(** * Event Hub: registration, moderation and view projection

    A shallow embedding of [src/event.js] (the event-management
    application: [FirebaseProvider], [EventModal], [EventCard], [App]) over
    a model of the hosted document store it talks to.

    The store is modelled as three keyed collections with the semantics of
    the Firestore calls the source uses ([getDoc], [setDoc], [addDoc],
    [updateDoc], [deleteDoc]); every call is recorded in a log, and a fault
    schedule lets any call be rejected, so that the [try]/[catch] paths of
    the handlers are part of the model.

    The handlers are given twice: as functions that run from their first
    call to their last, and as the sequence of their awaited calls, which
    a machine interleaves with the calls of other handlers. The first is
    the second left alone ([exec_handleRegister] and the lemmas after
    it, [reachable_interleaved]). *)

From Stdlib Require Import ZArith Ascii String.
From stdpp Require Import base option list gmap strings.

Local Open Scope Z_scope.

(** ** Data model *)

(** Identities ([user.uid]) are strings; document keys of the event
    collection are the opaque ids the store assigns in [addDoc]. *)
Abbreviation Uid := string (only parsing).
Abbreviation EventId := N (only parsing).

(** The value of [event.status]; the source writes only these three. *)
Inductive Status := pending | approved | rejected.

#[global] Instance Status_eq_dec : EqDecision Status.
Proof. solve_decision. Defined.

(** [const eventData = { title, description, date, time, location,
    capacity: Number(capacity) }] (EventModal.handleSubmit). *)
Record EventData := mkEventData {
  title : string;
  description : string;
  date : string;
  time : string;
  location : string;
  capacity : Z
}.

(** An event document: [{ ...eventData, creatorId, creatorEmail, status,
    attendees }] (handleSaveEvent, create branch). *)
Record Event := mkEvent {
  data :> EventData;
  creatorId : Uid;
  creatorEmail : string;
  status : Status;
  attendees : list Uid
}.

(** A registration record: [{ eventId, registeredAt }]. *)
Record Registration := mkRegistration {
  eventId : EventId;
  registeredAt : string
}.

(** A profile document: [{ email, isAdmin }]. *)
Record Profile := mkProfile {
  profile_email : string;
  profile_isAdmin : bool
}.

(** The authenticated user handed over by [onAuthStateChanged];
    [user.email] is null for an anonymous sign-in. *)
Record User := mkUser {
  uid : Uid;
  email : option string
}.

(** The second argument of [updateDoc]: an object holding some of the
    fields of an event document. *)
Record Patch := mkPatch {
  upd_title : option string;
  upd_description : option string;
  upd_date : option string;
  upd_time : option string;
  upd_location : option string;
  upd_capacity : option Z;
  upd_creatorId : option Uid;
  upd_creatorEmail : option string;
  upd_status : option Status;
  upd_attendees : option (list Uid)
}.

(** [updateDoc(ref, eventData)]: the six fields of [eventData]. *)
Definition patch_of_eventData (d : EventData) : Patch :=
  mkPatch (Some (title d)) (Some (description d)) (Some (date d))
          (Some (time d)) (Some (location d)) (Some (capacity d))
          None None None None.

(** [{ attendees: l }] *)
Definition patch_attendees (l : list Uid) : Patch :=
  mkPatch None None None None None None None None None (Some l).

(** [{ status: s }] *)
Definition patch_status (s : Status) : Patch :=
  mkPatch None None None None None None None None (Some s) None.

(** Merge semantics of [updateDoc]: the fields named in the patch are
    replaced, every other field of the document is kept. *)
Definition merge (p : Patch) (e : Event) : Event :=
  mkEvent
    (mkEventData (default (title e) (upd_title p))
                 (default (description e) (upd_description p))
                 (default (date e) (upd_date p))
                 (default (time e) (upd_time p))
                 (default (location e) (upd_location p))
                 (default (capacity e) (upd_capacity p)))
    (default (creatorId e) (upd_creatorId p))
    (default (creatorEmail e) (upd_creatorEmail p))
    (default (status e) (upd_status p))
    (default (attendees e) (upd_attendees p)).

(** ** The document store *)

(** [artifacts/${appId}/public/data/events],
    [artifacts/${appId}/users/${uid}/registrations/${eventId}] and
    [artifacts/${appId}/users/${uid}/profile]; [nextId] is the supply of
    keys for [addDoc], which never hands out a key twice. *)
Record Store := mkStore {
  event_docs : gmap N Event;
  registration_docs : gmap (string * N) Registration;
  profile_docs : gmap string Profile;
  nextId : N
}.

Definition empty_store : Store := mkStore ∅ ∅ ∅ 0%N.

(** The calls the application makes. *)
Inductive Call :=
| GetEvent (k : EventId)
| AddEvent (e : Event)
| UpdateEvent (k : EventId) (p : Patch)
| DeleteEvent (k : EventId)
| GetProfile (u : Uid)
| SetProfile (u : Uid) (p : Profile)
| SetRegistration (u : Uid) (k : EventId) (r : Registration)
| DeleteRegistration (u : Uid) (k : EventId).

(** Is the call a write? *)
Definition is_write (c : Call) : bool :=
  match c with
  | GetEvent _ | GetProfile _ => false
  | _ => true
  end.

(** What a rejected call throws; [error_message] is [error.message]. *)
Inductive StoreError := unavailable | not_found.

Definition error_message (e : StoreError) : string :=
  match e with
  | unavailable => "unavailable"
  | not_found => "not-found"
  end.

Inductive Reply (A : Type) :=
| Ok (a : A)
| Thrown (e : StoreError).
Arguments Ok {A} a.
Arguments Thrown {A} e.

(** The world a handler runs in: the committed store, the calls attempted
    so far (oldest first), the fault schedule (the head decides whether the
    next call is rejected by the store; an empty schedule rejects nothing)
    and the clock read by [new Date().toISOString()]. *)
Record World := mkWorld {
  store : Store;
  calls : list Call;
  faults : list bool;
  now : string
}.

Definition Task (A : Type) : Type := World → World * Reply A.

Definition ret {A} (a : A) : Task A := λ w, (w, Ok a).

Definition bind {A B} (m : Task A) (k : A → Task B) : Task B :=
  λ w, match m w with
       | (w', Ok a) => k a w'
       | (w', Thrown e) => (w', Thrown e)
       end.

Notation "'await' x ← m ; k" := (bind m (λ x, k))
  (at level 100, x name, m at level 99, k at level 200, right associativity,
   format "'[v' 'await'  x  ←  m ; '/' k ']'").

(** One round trip to the store: the call is logged, one entry of the
    fault schedule is consumed, and unless the call is rejected its effect
    [run] is committed. *)
Definition request {A} (c : Call) (run : Store → Reply (Store * A)) : Task A :=
  λ w,
    let logged := calls w ++ [c] in
    let rest := tail (faults w) in
    match faults w with
    | true :: _ => (mkWorld (store w) logged rest (now w), Thrown unavailable)
    | _ =>
      match run (store w) with
      | Ok (s', a) => (mkWorld s' logged rest (now w), Ok a)
      | Thrown e => (mkWorld (store w) logged rest (now w), Thrown e)
      end
    end.

(** [new Date().toISOString()] *)
Definition clock : Task string := λ w, (w, Ok (now w)).

Definition with_events (f : gmap N Event → gmap N Event) (s : Store) : Store :=
  mkStore (f (event_docs s)) (registration_docs s) (profile_docs s) (nextId s).

Definition with_registrations
    (f : gmap (string * N) Registration → gmap (string * N) Registration)
    (s : Store) : Store :=
  mkStore (event_docs s) (f (registration_docs s)) (profile_docs s) (nextId s).

Definition with_profiles (f : gmap string Profile → gmap string Profile)
    (s : Store) : Store :=
  mkStore (event_docs s) (registration_docs s) (f (profile_docs s)) (nextId s).

(** [getDoc(doc(db, `.../events`, k))]: [None] when [!snap.exists()]. *)
Definition getDoc_event (k : EventId) : Task (option Event) :=
  request (GetEvent k) (λ s, Ok (s, event_docs s !! k)).

(** [addDoc(collection(db, `.../events`), e)]: a fresh key. *)
Definition addDoc_event (e : Event) : Task EventId :=
  request (AddEvent e)
    (λ s, Ok (mkStore (<[nextId s := e]> (event_docs s)) (registration_docs s)
                      (profile_docs s) (N.succ (nextId s)),
              nextId s)).

(** [updateDoc(doc(db, `.../events`, k), p)]: fails when the document
    does not exist. *)
Definition updateDoc_event (k : EventId) (p : Patch) : Task unit :=
  request (UpdateEvent k p)
    (λ s, match event_docs s !! k with
          | Some e => Ok (with_events (<[k := merge p e]>) s, tt)
          | None => Thrown not_found
          end).

(** [deleteDoc(doc(db, `.../events`, k))]: succeeds on a missing key. *)
Definition deleteDoc_event (k : EventId) : Task unit :=
  request (DeleteEvent k) (λ s, Ok (with_events (delete k) s, tt)).

Definition getDoc_profile (u : Uid) : Task (option Profile) :=
  request (GetProfile u) (λ s, Ok (s, profile_docs s !! u)).

(** [setDoc]: create or replace. *)
Definition setDoc_profile (u : Uid) (p : Profile) : Task unit :=
  request (SetProfile u p) (λ s, Ok (with_profiles (<[u := p]>) s, tt)).

Definition setDoc_registration (u : Uid) (k : EventId) (r : Registration)
    : Task unit :=
  request (SetRegistration u k r)
    (λ s, Ok (with_registrations (<[(u, k) := r]>) s, tt)).

Definition deleteDoc_registration (u : Uid) (k : EventId) : Task unit :=
  request (DeleteRegistration u k)
    (λ s, Ok (with_registrations (delete (u, k)) s, tt)).

(** ** JavaScript helpers *)

(** A string is truthy unless it is empty. *)
Definition truthy (s : string) : bool :=
  match s with
  | EmptyString => false
  | String _ _ => true
  end.

(** [x || d] for a string [x] that may be null. *)
Definition js_or (x : option string) (d : string) : string :=
  match x with
  | Some s => if truthy s then s else d
  | None => d
  end.

(** [l.includes(x)] *)
Definition includes (x : string) (l : list string) : bool :=
  bool_decide (x ∈ l).

(** [l.filter(id => id !== x)] *)
Definition without (x : string) (l : list string) : list string :=
  List.filter (λ id, negb (String.eqb id x)) l.

(** [s.toLowerCase()] for text of the ASCII range, where it replaces the
    letters A to Z by a to z and leaves every other character alone.
    Outside that range [String.prototype.toLowerCase] follows the Unicode
    case mappings, which are not modelled: what is proved through
    [toLowerCase] is stated for [ascii_text]. *)
Definition lower_ascii (c : ascii) : ascii :=
  let n := nat_of_ascii c in
  if (Nat.leb 65 n && Nat.leb n 90)%bool then ascii_of_nat (n + 32) else c.

Fixpoint toLowerCase (s : string) : string :=
  match s with
  | EmptyString => EmptyString
  | String c r => String (lower_ascii c) (toLowerCase r)
  end.

(** Text all of whose characters lie in the ASCII range. *)
Fixpoint ascii_text (s : string) : bool :=
  match s with
  | EmptyString => true
  | String c r => Nat.ltb (nat_of_ascii c) 128 && ascii_text r
  end.

(** Case-insensitive equality of ASCII text, said without
    [toLowerCase]: two characters are the same letter when they are equal
    or one is a capital letter and the other the small letter 32 places
    after it; two texts are equal up to case when they have the same
    length and the same letters. *)
Definition capital_of (small capital : ascii) : bool :=
  let n := nat_of_ascii capital in
  Nat.leb 65 n && Nat.leb n 90 && Nat.eqb (nat_of_ascii small) (n + 32).

Definition same_letter (c d : ascii) : bool :=
  Ascii.eqb c d || capital_of c d || capital_of d c.

Fixpoint equal_ignoring_case (s t : string) : bool :=
  match s, t with
  | EmptyString, EmptyString => true
  | String c s', String d t' => same_letter c d && equal_ignoring_case s' t'
  | _, _ => false
  end.

(** [hay.includes(needle)] on strings: [needle] occurs in [hay]. *)
Fixpoint str_includes (needle hay : string) : bool :=
  String.prefix needle hay ||
  match hay with
  | EmptyString => false
  | String _ r => str_includes needle r
  end.

(** ** FirebaseProvider *)

(** The provider's state cells. [userId] is always set together with
    [currentUser] (to [user.uid], or both to null), so it is read off
    [currentUser]. *)
Record Session := mkSession {
  currentUser : option User;
  isAdmin : bool;
  loading : bool
}.

Definition userId (s : Session) : option Uid := uid <$> currentUser s.

Definition initial_session : Session := mkSession None false true.

(** The paths the source hands to [doc]: a template string, split at its
    slashes, followed by the further arguments. The values put into a
    path ([appId], a user id, an event id) are single segments. *)
Inductive Segment :=
| Literal (name : string)
| OfApp
| OfUser (u : Uid)
| OfEvent (k : EventId).

(** [doc(db, `artifacts/${appId}/public/data/events`, eventId)] *)
Definition event_path (eventId : EventId) : list Segment :=
  [Literal "artifacts"; OfApp; Literal "public"; Literal "data"; Literal "events";
   OfEvent eventId].

(** [doc(db, `artifacts/${appId}/users/${userId}/registrations`, eventId)] *)
Definition registration_path (userId : Uid) (eventId : EventId) : list Segment :=
  [Literal "artifacts"; OfApp; Literal "users"; OfUser userId;
   Literal "registrations"; OfEvent eventId].

(** [doc(firestore, `artifacts/${appId}/users/${user.uid}/profile`)] *)
Definition profile_path (userId : Uid) : list Segment :=
  [Literal "artifacts"; OfApp; Literal "users"; OfUser userId; Literal "profile"].

(** [doc] returns a reference for a path with an even number of segments
    (collection, document, collection, document, ...) and throws for any
    other path. *)
Definition valid_document_path (path : list Segment) : bool :=
  Nat.even (length path).

(** The callback given to [onAuthStateChanged]. For a user it first sets
    [currentUser] and [userId] and then builds the profile reference: when
    [doc] throws, or when a store call is rejected, the callback's promise
    is rejected and the setters after that point are not reached. The
    profile is read here, and only here. *)
Definition onAuthStateChanged (user : option User) (s : Session) (w : World)
    : Session * World :=
  match user with
  | Some u =>
    if negb (valid_document_path (profile_path (uid u)))
    then (mkSession (Some u) (isAdmin s) (loading s), w)
    else
      let fetch : Task bool :=
        await userProfileSnap ← getDoc_profile (uid u);
        match userProfileSnap with
        | Some p => ret (profile_isAdmin p || false)
        | None =>
          await _ ← setDoc_profile (uid u)
                      (mkProfile (js_or (email u) "anonymous") false);
          ret false
        end in
      match fetch w with
      | (w', Ok adm) => (mkSession (Some u) adm false, w')
      | (w', Thrown _) => (mkSession (Some u) (isAdmin s) (loading s), w')
      end
  | None => (mkSession None false false, w)
  end.

(** ** App state *)

(** The closures stored by [setConfirmAction], with what they capture. *)
Inductive ConfirmAction :=
| ConfirmDelete (eventId : EventId)
| ConfirmCancel (s : Session) (eventId : EventId).

(** The state cells of [App]; an element of [events] is
    [{ id: doc.id, ...doc.data() }], a key paired with a document. *)
Record App := mkApp {
  events : list (N * Event);
  filterDate : string;
  filterLocation : string;
  showCreateModal : bool;
  eventToEdit : option (N * Event);
  showConfirmationModal : bool;
  confirmAction : option ConfirmAction;
  confirmMessage : string;
  message : string;
  activeTab : string
}.

Definition initial_app : App :=
  mkApp [] "" "" false None false None "" "" "all".

Definition setEvents (l : list (N * Event)) (a : App) : App :=
  mkApp l (filterDate a) (filterLocation a) (showCreateModal a)
        (eventToEdit a) (showConfirmationModal a) (confirmAction a)
        (confirmMessage a) (message a) (activeTab a).

Definition setFilterDate (d : string) (a : App) : App :=
  mkApp (events a) d (filterLocation a) (showCreateModal a)
        (eventToEdit a) (showConfirmationModal a) (confirmAction a)
        (confirmMessage a) (message a) (activeTab a).

Definition setFilterLocation (l : string) (a : App) : App :=
  mkApp (events a) (filterDate a) l (showCreateModal a)
        (eventToEdit a) (showConfirmationModal a) (confirmAction a)
        (confirmMessage a) (message a) (activeTab a).

Definition setShowCreateModal (b : bool) (a : App) : App :=
  mkApp (events a) (filterDate a) (filterLocation a) b
        (eventToEdit a) (showConfirmationModal a) (confirmAction a)
        (confirmMessage a) (message a) (activeTab a).

Definition setEventToEdit (e : option (N * Event)) (a : App) : App :=
  mkApp (events a) (filterDate a) (filterLocation a) (showCreateModal a)
        e (showConfirmationModal a) (confirmAction a)
        (confirmMessage a) (message a) (activeTab a).

Definition setShowConfirmationModal (b : bool) (a : App) : App :=
  mkApp (events a) (filterDate a) (filterLocation a) (showCreateModal a)
        (eventToEdit a) b (confirmAction a)
        (confirmMessage a) (message a) (activeTab a).

Definition setConfirmAction (c : option ConfirmAction) (a : App) : App :=
  mkApp (events a) (filterDate a) (filterLocation a) (showCreateModal a)
        (eventToEdit a) (showConfirmationModal a) c
        (confirmMessage a) (message a) (activeTab a).

Definition setConfirmMessage (m : string) (a : App) : App :=
  mkApp (events a) (filterDate a) (filterLocation a) (showCreateModal a)
        (eventToEdit a) (showConfirmationModal a) (confirmAction a)
        m (message a) (activeTab a).

Definition setMessage (m : string) (a : App) : App :=
  mkApp (events a) (filterDate a) (filterLocation a) (showCreateModal a)
        (eventToEdit a) (showConfirmationModal a) (confirmAction a)
        (confirmMessage a) m (activeTab a).

Definition setActiveTab (t : string) (a : App) : App :=
  mkApp (events a) (filterDate a) (filterLocation a) (showCreateModal a)
        (eventToEdit a) (showConfirmationModal a) (confirmAction a)
        (confirmMessage a) (message a) t.

(** [showMessage]: the banner text (cleared again by a timer). *)
Definition showMessage (msg : string) (a : App) : App := setMessage msg a.

(** The callback given to [onSnapshot]. *)
Definition onSnapshot (w : World) (a : App) : App :=
  setEvents (map_to_list (event_docs (store w))) a.

(** ** Messages

    The handlers report every outcome through [showMessage]; the texts
    below are the ones the source passes to it. *)

Definition msg_login_save := "You must be logged in to create or edit events.".
Definition msg_login_register := "You must be logged in to register for events.".
Definition msg_login_cancel := "You must be logged in to cancel registration.".
Definition msg_updated := "Event updated successfully!".
Definition msg_created := "Event created successfully! Awaiting admin approval.".
Definition msg_deleted := "Event deleted successfully!".
Definition msg_NotFound := "Event not found.".
Definition msg_AlreadyRegistered := "You are already registered for this event.".
Definition msg_EventFull := "This event is full.".
Definition msg_registered := "Successfully registered for the event!".
Definition msg_NotRegistered := "You are not registered for this event.".
Definition msg_cancelled := "Registration cancelled successfully!".
Definition msg_Unauthorized_approve := "You are not authorized to approve events.".
Definition msg_Unauthorized_reject := "You are not authorized to reject events.".
Definition msg_approved := "Event approved successfully!".
Definition msg_rejected := "Event rejected successfully!".
Definition msg_form_error :=
  "All fields are required and capacity must be greater than 0.".

(** [try { body } catch (error) { showMessage(`${prefix}${error.message}`) }]
    where every path of [body] ends in one [showMessage]. *)
Definition try_catch (prefix : string) (body : Task string) (a : App) (w : World)
    : App * World :=
  match body w with
  | (w', Ok msg) => (showMessage msg a, w')
  | (w', Thrown e) => (showMessage (prefix +:+ error_message e) a, w')
  end.

(** ** EventModal *)

(** [handleSubmit]: the validation and the object handed to [onSave]. *)
Definition handleSubmit (title description date time location : string)
    (capacity : Z) : string + EventData :=
  if negb (truthy title) || negb (truthy description) || negb (truthy date)
     || negb (truthy time) || negb (truthy location) || (capacity <=? 0)
  then inl msg_form_error
  else inr (mkEventData title description date time location capacity).

(** ** App handlers *)

(** Event creation and update. *)
Definition handleSaveEvent (s : Session) (eventData : EventData) (a : App)
    (w : World) : App * World :=
  match currentUser s with
  | None => (showMessage msg_login_save a, w)
  | Some user =>
    let body : Task string :=
      match eventToEdit a with
      | Some ev =>
        await _ ← updateDoc_event (fst ev) (patch_of_eventData eventData);
        ret msg_updated
      | None =>
        await _ ← addDoc_event
                    (mkEvent eventData (uid user)
                             (js_or (email user) "anonymous") pending []);
        ret msg_created
      end in
    match body w with
    | (w', Ok msg) =>
      (setShowCreateModal false (setEventToEdit None (showMessage msg a)), w')
    | (w', Thrown e) =>
      (showMessage ("Error saving event: " +:+ error_message e) a, w')
    end
  end.

(** The modal's [onClose]. *)
Definition closeEventModal (a : App) : App :=
  setEventToEdit None (setShowCreateModal false a).

(** Submitting the modal's form: [onSave(eventData); onClose()] when the
    form is valid, nothing but the form's own error text otherwise. *)
Definition submitEventModal (s : Session)
    (title description date time location : string) (capacity : Z)
    (a : App) (w : World) : App * World :=
  match handleSubmit title description date time location capacity with
  | inl _ => (a, w)
  | inr eventData =>
    let '(a', w') := handleSaveEvent s eventData a w in
    (closeEventModal a', w')
  end.

(** The card's [onEdit]. *)
Definition onEdit (ev : N * Event) (a : App) : App :=
  setShowCreateModal true (setEventToEdit (Some ev) a).

(** The "Create New Event" button. *)
Definition onCreate (a : App) : App :=
  setShowCreateModal true (setEventToEdit None a).

(** [finally { setShowConfirmationModal(false); setConfirmAction(null) }] *)
Definition closeConfirmation (a : App) : App :=
  setConfirmAction None (setShowConfirmationModal false a).

(** Event deletion: only arms the confirmation dialog. *)
Definition handleDeleteEvent (eventId : EventId) (a : App) : App :=
  setShowConfirmationModal true
    (setConfirmAction (Some (ConfirmDelete eventId))
       (setConfirmMessage
          "Are you sure you want to delete this event? This action cannot be undone."
          a)).

(** The closure armed by [handleDeleteEvent]. *)
Definition confirmDelete (eventId : EventId) (a : App) (w : World)
    : App * World :=
  let '(a', w') :=
    try_catch "Error deleting event: "
      (await _ ← deleteDoc_event eventId; ret msg_deleted) a w in
  (closeConfirmation a', w').

(** Event registration. *)
Definition handleRegister (s : Session) (eventId : EventId) (a : App)
    (w : World) : App * World :=
  match currentUser s with
  | None => (showMessage msg_login_register a, w)
  | Some user =>
    let userId := uid user in
    try_catch "Error registering: "
      (await eventSnap ← getDoc_event eventId;
       match eventSnap with
       | None => ret msg_NotFound
       | Some eventData =>
         let currentAttendees := attendees eventData in
         if includes userId currentAttendees then ret msg_AlreadyRegistered
         else if Z.of_nat (length currentAttendees) >=? capacity eventData
         then ret msg_EventFull
         else
           await _ ← updateDoc_event eventId
                       (patch_attendees (currentAttendees ++ [userId]));
           await registeredAt ← clock;
           await _ ← setDoc_registration userId eventId
                       (mkRegistration eventId registeredAt);
           ret msg_registered
       end) a w
  end.

(** Cancelling a registration: only arms the confirmation dialog; the
    closure keeps the session of the render that created it. *)
Definition handleCancelRegistration (s : Session) (eventId : EventId) (a : App)
    : App :=
  setShowConfirmationModal true
    (setConfirmAction (Some (ConfirmCancel s eventId))
       (setConfirmMessage
          "Are you sure you want to cancel your registration for this event?"
          a)).

(** The closure armed by [handleCancelRegistration]. *)
Definition confirmCancel (s : Session) (eventId : EventId) (a : App)
    (w : World) : App * World :=
  match currentUser s with
  | None => (closeConfirmation (showMessage msg_login_cancel a), w)
  | Some user =>
    let userId := uid user in
    let '(a', w') :=
      try_catch "Error cancelling registration: "
        (await eventSnap ← getDoc_event eventId;
         match eventSnap with
         | None => ret msg_NotFound
         | Some eventData =>
           let currentAttendees := attendees eventData in
           let updatedAttendees := without userId currentAttendees in
           if Nat.eqb (length updatedAttendees) (length currentAttendees)
           then ret msg_NotRegistered
           else
             await _ ← updateDoc_event eventId
                         (patch_attendees updatedAttendees);
             await _ ← deleteDoc_registration userId eventId;
             ret msg_cancelled
         end) a w in
    (closeConfirmation a', w')
  end.

(** The dialog's "Yes" button: [onConfirm={confirmAction}]. *)
Definition onConfirm (a : App) (w : World) : App * World :=
  match confirmAction a with
  | Some (ConfirmDelete eventId) => confirmDelete eventId a w
  | Some (ConfirmCancel s eventId) => confirmCancel s eventId a w
  | None => (a, w)
  end.

(** The dialog's "No" button. *)
Definition onCancel (a : App) : App := closeConfirmation a.

(** Admin actions. *)
Definition handleApproveEvent (s : Session) (eventId : EventId) (a : App)
    (w : World) : App * World :=
  if negb (isAdmin s) then (showMessage msg_Unauthorized_approve a, w)
  else
    try_catch "Error approving event: "
      (await _ ← updateDoc_event eventId (patch_status approved);
       ret msg_approved) a w.

Definition handleRejectEvent (s : Session) (eventId : EventId) (a : App)
    (w : World) : App * World :=
  if negb (isAdmin s) then (showMessage msg_Unauthorized_reject a, w)
  else
    try_catch "Error rejecting event: "
      (await _ ← updateDoc_event eventId (patch_status rejected);
       ret msg_rejected) a w.

(** ** View projection *)

(** The predicate of [filteredEvents]. *)
Definition matchesFilters (filterDate filterLocation : string)
    (event : N * Event) : bool :=
  let matchesDate :=
    if truthy filterDate then String.eqb (date event.2) filterDate else true in
  let matchesLocation :=
    if truthy filterLocation
    then str_includes (toLowerCase filterLocation)
                      (toLowerCase (location event.2))
    else true in
  matchesDate && matchesLocation.

Definition filteredEvents (a : App) : list (N * Event) :=
  List.filter (matchesFilters (filterDate a) (filterLocation a)) (events a).

(** The predicate of [displayedEvents]. *)
Definition matchesTab (s : Session) (activeTab : string) (event : N * Event)
    : bool :=
  if String.eqb activeTab "all" then bool_decide (status event.2 = approved)
  else if String.eqb activeTab "myEvents"
  then bool_decide (Some (creatorId event.2) = userId s)
  else if String.eqb activeTab "myRegistrations"
  then match userId s with
       | Some u => includes u (attendees event.2)
       | None => false
       end
  else if String.eqb activeTab "adminPending"
  then isAdmin s && bool_decide (status event.2 = pending)
  else false.

Definition displayedEvents (s : Session) (a : App) : list (N * Event) :=
  List.filter (matchesTab s (activeTab a)) (filteredEvents a).

(** ** EventCard

    Which controls a card renders for an element of [displayedEvents]
    ([isPastEvent] compares the event's date and time with the wall clock
    and is a parameter here). *)

Definition isFull (event : N * Event) : bool :=
  Z.of_nat (length (attendees event.2)) >=? capacity event.2.

Definition isAdminView (a : App) : bool := String.eqb (activeTab a) "adminPending".

Definition isRegistered (s : Session) (event : N * Event) : bool :=
  match userId s with
  | Some u => includes u (attendees event.2)
  | None => false
  end.

(** The "Approve" and "Reject" buttons. *)
Definition offersModeration (a : App) (event : N * Event) : bool :=
  isAdminView a && bool_decide (status event.2 = pending).

(** The enabled "Register" button. *)
Definition offersRegister (s : Session) (a : App) (isPastEvent : bool)
    (event : N * Event) : bool :=
  negb (isAdminView a) && bool_decide (status event.2 = approved)
  && negb isPastEvent && negb (isRegistered s event) && negb (isFull event).

(** The "Cancel Registration" button. *)
Definition offersCancel (s : Session) (a : App) (isPastEvent : bool)
    (event : N * Event) : bool :=
  negb (isAdminView a) && bool_decide (status event.2 = approved)
  && negb isPastEvent && isRegistered s event.

(** ** The client as a transition system

    Everything that can happen to one client, in the order the user and the
    store make it happen: each action runs its handler to completion. *)

Inductive Action :=
| AuthStateChanged (user : option User)
| Snapshot
| ClickCreate
| ClickEdit (event : N * Event)
| SubmitModal (title description date time location : string) (capacity : Z)
| CloseModal
| ClickRegister (eventId : EventId)
| ClickCancelRegistration (eventId : EventId)
| ClickDelete (eventId : EventId)
| ClickYes
| ClickNo
| ClickApprove (eventId : EventId)
| ClickReject (eventId : EventId)
| ChangeFilterDate (d : string)
| ChangeFilterLocation (l : string)
| ChangeTab (t : string).

Record Client := mkClient {
  session : Session;
  app : App
}.

Definition initial_client : Client := mkClient initial_session initial_app.

Definition step (act : Action) (c : Client) (w : World) : Client * World :=
  let s := session c in
  let a := app c in
  let app_only (a' : App) := (mkClient s a', w) in
  let with_app (r : App * World) := (mkClient s r.1, r.2) in
  match act with
  | AuthStateChanged user =>
    let r := onAuthStateChanged user s w in (mkClient r.1 a, r.2)
  | Snapshot => app_only (onSnapshot w a)
  | ClickCreate => app_only (onCreate a)
  | ClickEdit event => app_only (onEdit event a)
  | SubmitModal title description date time location capacity =>
    with_app (submitEventModal s title description date time location capacity a w)
  | CloseModal => app_only (closeEventModal a)
  | ClickRegister eventId => with_app (handleRegister s eventId a w)
  | ClickCancelRegistration eventId => app_only (handleCancelRegistration s eventId a)
  | ClickDelete eventId => app_only (handleDeleteEvent eventId a)
  | ClickYes => with_app (onConfirm a w)
  | ClickNo => app_only (onCancel a)
  | ClickApprove eventId => with_app (handleApproveEvent s eventId a w)
  | ClickReject eventId => with_app (handleRejectEvent s eventId a w)
  | ChangeFilterDate d => app_only (setFilterDate d a)
  | ChangeFilterLocation l => app_only (setFilterLocation l a)
  | ChangeTab t => app_only (setActiveTab t a)
  end.

(** A session of one client: the actions in order. *)
Fixpoint run (acts : list Action) (c : Client) (w : World) : Client * World :=
  match acts with
  | [] => (c, w)
  | act :: rest => let r := step act c w in run rest r.1 r.2
  end.

(** The worlds any number of clients can produce from [w0] when their
    handlers do not overlap: each step is taken by some client in some
    state of its own and runs its handler from the first call to the
    last. Handlers that overlap at their awaits are the subject of
    [interleaved] below. *)
Inductive reachable_from (w0 : World) : World → Prop :=
| reach_start : reachable_from w0 w0
| reach_step act c w :
    reachable_from w0 w → reachable_from w0 (step act c w).2.

(** Cancelling in one go: the click and the "Yes" of the dialog. *)
Definition cancelRegistration (s : Session) (eventId : EventId) (a : App)
    (w : World) : App * World :=
  onConfirm (handleCancelRegistration s eventId a) w.

(** The write calls attempted so far. *)
Definition writes (w : World) : list Call := List.filter is_write (calls w).

(** ** Properties of store states *)

(** The capacity invariant. *)
Definition capacity_ok (st : Store) : Prop :=
  ∀ k e, event_docs st !! k = Some e →
         Z.of_nat (length (attendees e)) ≤ capacity e.

(** ** Sample data *)

Definition alice : User := mkUser "A" None.
Definition bob : User := mkUser "B" (Some "bob@example.org").
Definition carol : User := mkUser "C" (Some "carol@example.org").

Definition signed_in (u : User) (adm : bool) : Session :=
  mkSession (Some u) adm false.

Definition party (cap : Z) (st : Status) (att : list string) : Event :=
  mkEvent (mkEventData "Party" "Bring cake" "2030-01-01" "18:00" "Berlin" cap)
          "C" "carol@example.org" st att.

Definition world_of (st : Store) : World :=
  mkWorld st [] [] "2029-06-01T12:00:00.000Z".

Definition one_event (e : Event) : Store :=
  mkStore {[ 0%N := e ]} ∅ ∅ 1%N.

(** ** Committed writes

    The single-document writes the handlers can get committed, each with
    what the handler has checked when it issues the write. [edit_ok]
    constrains the edits of an event by the data submitted for it. *)
Inductive commit (edit_ok : Event → EventData → Prop) : Store → Store → Prop :=
| commit_create st d u em :
    0 < capacity d →
    commit edit_ok st
      (mkStore (<[nextId st := mkEvent d u em pending []]> (event_docs st))
               (registration_docs st) (profile_docs st) (N.succ (nextId st)))
| commit_edit st k e d :
    event_docs st !! k = Some e →
    0 < capacity d →
    edit_ok e d →
    commit edit_ok st (with_events (<[k := merge (patch_of_eventData d) e]>) st)
| commit_join st k e u :
    event_docs st !! k = Some e →
    u ∉ attendees e →
    Z.of_nat (length (attendees e)) < capacity e →
    commit edit_ok st
      (with_events (<[k := merge (patch_attendees (attendees e ++ [u])) e]>) st)
| commit_leave st k e u :
    event_docs st !! k = Some e →
    commit edit_ok st
      (with_events (<[k := merge (patch_attendees (without u (attendees e))) e]>) st)
| commit_moderate st k e s :
    event_docs st !! k = Some e →
    s ≠ pending →
    commit edit_ok st (with_events (<[k := merge (patch_status s) e]>) st)
| commit_delete st k :
    commit edit_ok st (with_events (delete k) st)
| commit_record st u k e r :
    event_docs st !! k = Some e →
    u ∈ attendees e →
    commit edit_ok st (with_registrations (<[(u, k) := r]>) st)
| commit_unrecord st u k :
    commit edit_ok st (with_registrations (delete (u, k)) st)
| commit_profile st u p :
    profile_docs st !! u = None →
    profile_isAdmin p = false →
    commit edit_ok st (with_profiles (<[u := p]>) st).

(** What an action must satisfy for its edits to meet [edit_ok]. *)
Definition edits_ok (edit_ok : Event → EventData → Prop) (act : Action)
    (c : Client) (w : World) : Prop :=
  ∀ title description date time location capacity ev e,
    act = SubmitModal title description date time location capacity →
    eventToEdit (app c) = Some ev →
    event_docs (store w) !! ev.1 = Some e →
    edit_ok e (mkEventData title description date time location capacity).

(** An edit that does not put the capacity below the attendee count. *)
Definition keeps_room (e : Event) (d : EventData) : Prop :=
  Z.of_nat (length (attendees e)) ≤ capacity d.

(** A decided event is never pending again: the key has been handed out
    and whatever document it holds is not pending. *)
Definition decided_at (k : N) (st : Store) : Prop :=
  (k < nextId st)%N ∧
  ∀ e, event_docs st !! k = Some e → status e ≠ pending.

(** ** Sign-out

    [handleLogout]: [signOut(auth)] either resolves, and the auth
    listener then fires with no user, or rejects; its outcome is a
    parameter. *)
Definition msg_logged_out := "Logged out successfully.".

Definition handleLogout (signOut : Reply unit) (s : Session) (a : App)
    (w : World) : Session * App * World :=
  match signOut with
  | Ok _ =>
    let r := onAuthStateChanged None s w in
    (r.1, showMessage msg_logged_out a, r.2)
  | Thrown e =>
    (s, showMessage ("Error logging out: " +:+ error_message e) a, w)
  end.

(** Deleting in one go: the click and the "Yes" of the dialog. *)
Definition deleteEvent (eventId : EventId) (a : App) (w : World) : App * World :=
  onConfirm (handleDeleteEvent eventId a) w.

(** ** More properties of store states *)

(** No identity is listed twice on an event. *)
Definition attendees_nodup (st : Store) : Prop :=
  ∀ k e, event_docs st !! k = Some e → NoDup (attendees e).

(** Every event has room for somebody. *)
Definition capacity_positive (st : Store) : Prop :=
  ∀ k (e : Event), event_docs st !! k = Some e → 0 < capacity e.

(** On the events that exist, the attendee lists and the registration
    records say the same. *)
Definition records_mirror (st : Store) : Prop :=
  ∀ u k e, event_docs st !! k = Some e →
           (u ∈ attendees e ↔ is_Some (registration_docs st !! (u, k))).

(** The actions that neither sign a user in nor arm a deletion. *)
Definition needs_no_user (act : Action) : Prop :=
  match act with
  | AuthStateChanged (Some _) | ClickDelete _ => False
  | _ => True
  end.

(** ** Handlers between their awaits

    An [async] handler gives up control at every [await], so the calls of
    handlers that are under way at the same time, in one client or in
    several, reach the store in any order; each call is a single-document
    operation and takes effect in one piece. [Prog] is what is left of the
    [try] block of a handler: [Read] and [Write] stand for an awaited call
    and what follows it, [Now] for [new Date().toISOString()], [Finish]
    for the [showMessage] the block ends with. *)
Inductive Prog :=
| Finish (msg : string)
| Read (eventId : EventId) (cont : option Event → Prog)
| Write (c : Call) (cont : Prog)
| Now (cont : string → Prog).

(** What a call does to the store when it is committed: the effects of
    [addDoc_event], [updateDoc_event], [deleteDoc_event], [setDoc_profile],
    [setDoc_registration] and [deleteDoc_registration]. *)
Definition commit_call (c : Call) (s : Store) : Reply Store :=
  match c with
  | AddEvent e =>
    Ok (mkStore (<[nextId s := e]> (event_docs s)) (registration_docs s)
                (profile_docs s) (N.succ (nextId s)))
  | UpdateEvent k p =>
    match event_docs s !! k with
    | Some e => Ok (with_events (<[k := merge p e]>) s)
    | None => Thrown not_found
    end
  | DeleteEvent k => Ok (with_events (delete k) s)
  | SetProfile u p => Ok (with_profiles (<[u := p]>) s)
  | SetRegistration u k r => Ok (with_registrations (<[(u, k) := r]>) s)
  | DeleteRegistration u k => Ok (with_registrations (delete (u, k)) s)
  | GetEvent _ | GetProfile _ => Ok s
  end.

(** An awaited write whose result the handler does not use. *)
Definition perform (c : Call) : Task unit :=
  request c (λ s, match commit_call c s with
                  | Ok s' => Ok (s', tt)
                  | Thrown e => Thrown e
                  end).

(** The [try] block of [handleRegister]. *)
Definition handleRegister_prog (userId : Uid) (eventId : EventId) : Prog :=
  Read eventId (λ eventSnap,
    match eventSnap with
    | None => Finish msg_NotFound
    | Some eventData =>
      let currentAttendees := attendees eventData in
      if includes userId currentAttendees then Finish msg_AlreadyRegistered
      else if Z.of_nat (length currentAttendees) >=? capacity eventData
      then Finish msg_EventFull
      else
        Write (UpdateEvent eventId (patch_attendees (currentAttendees ++ [userId])))
          (Now (λ registeredAt,
             Write (SetRegistration userId eventId
                      (mkRegistration eventId registeredAt))
               (Finish msg_registered)))
    end).

(** The [try] block of the closure armed by [handleCancelRegistration]. *)
Definition confirmCancel_prog (userId : Uid) (eventId : EventId) : Prog :=
  Read eventId (λ eventSnap,
    match eventSnap with
    | None => Finish msg_NotFound
    | Some eventData =>
      let currentAttendees := attendees eventData in
      let updatedAttendees := without userId currentAttendees in
      if Nat.eqb (length updatedAttendees) (length currentAttendees)
      then Finish msg_NotRegistered
      else
        Write (UpdateEvent eventId (patch_attendees updatedAttendees))
          (Write (DeleteRegistration userId eventId) (Finish msg_cancelled))
    end).

(** The [try] block of [handleSaveEvent]. *)
Definition handleSaveEvent_prog (user : User) (eventToEdit : option (N * Event))
    (eventData : EventData) : Prog :=
  match eventToEdit with
  | Some ev =>
    Write (UpdateEvent (fst ev) (patch_of_eventData eventData)) (Finish msg_updated)
  | None =>
    Write (AddEvent (mkEvent eventData (uid user)
                             (js_or (email user) "anonymous") pending []))
      (Finish msg_created)
  end.

(** The [try] blocks of the closure armed by [handleDeleteEvent], of
    [handleApproveEvent] and of [handleRejectEvent]. *)
Definition confirmDelete_prog (eventId : EventId) : Prog :=
  Write (DeleteEvent eventId) (Finish msg_deleted).

Definition handleApproveEvent_prog (eventId : EventId) : Prog :=
  Write (UpdateEvent eventId (patch_status approved)) (Finish msg_approved).

Definition handleRejectEvent_prog (eventId : EventId) : Prog :=
  Write (UpdateEvent eventId (patch_status rejected)) (Finish msg_rejected).

(** A block run from its first call to its last with nothing in
    between: the handlers above are [try_catch] of these. *)
Fixpoint exec (p : Prog) : Task string :=
  match p with
  | Finish msg => ret msg
  | Read k cont => await eventSnap ← getDoc_event k; exec (cont eventSnap)
  | Write c cont => await _ ← perform c; exec cont
  | Now cont => await t ← clock; exec (cont t)
  end.

(** A handler under way: the prefix its [catch] puts before the error
    message, and what is left of its [try] block. *)
Record Running := mkRunning {
  catch_prefix : string;
  rest : Prog
}.

(** The handlers a client can start, taken from the point where the
    guards before the [try] block ([!currentUser], [!isAdmin], the
    validation of the form) have let it pass. [s] is the session of the
    client; a cancellation runs for the user of the render that armed the
    dialog, whoever that was. *)
Inductive starts (s : Session) : Running → Prop :=
| starts_register user k :
    currentUser s = Some user →
    starts s (mkRunning "Error registering: " (handleRegister_prog (uid user) k))
| starts_cancel (user : User) k :
    starts s (mkRunning "Error cancelling registration: "
                        (confirmCancel_prog (uid user) k))
| starts_save user ev title description date time location capacity eventData :
    currentUser s = Some user →
    handleSubmit title description date time location capacity = inr eventData →
    starts s (mkRunning "Error saving event: " (handleSaveEvent_prog user ev eventData))
| starts_delete k :
    starts s (mkRunning "Error deleting event: " (confirmDelete_prog k))
| starts_approve k :
    isAdmin s = true →
    starts s (mkRunning "Error approving event: " (handleApproveEvent_prog k))
| starts_reject k :
    isAdmin s = true →
    starts s (mkRunning "Error rejecting event: " (handleRejectEvent_prog k)).

(** One handler takes its next step: the awaited call is made (and
    committed unless the store rejects it), or the clock is read. A call
    that throws takes the handler to its [catch]. *)
Definition advance (h : Running) (w : World) : Running * World :=
  let continue_with (p : Prog) := mkRunning (catch_prefix h) p in
  let caught (e : StoreError) :=
    continue_with (Finish (catch_prefix h +:+ error_message e)) in
  match rest h with
  | Finish _ => (h, w)
  | Read k cont =>
    match getDoc_event k w with
    | (w', Ok eventSnap) => (continue_with (cont eventSnap), w')
    | (w', Thrown e) => (caught e, w')
    end
  | Write c cont =>
    match perform c w with
    | (w', Ok _) => (continue_with cont, w')
    | (w', Thrown e) => (caught e, w')
    end
  | Now cont => (continue_with (cont (now w)), w)
  end.

(** The world and the handlers under way. *)
Definition Config : Type := World * list Running.

(** The handler at position [i] takes its next step. *)
Definition advance_at (i : nat) (cfg : Config) : Config :=
  match cfg.2 !! i with
  | Some h => let r := advance h cfg.1 in (r.2, <[i := r.1]> cfg.2)
  | None => cfg
  end.

(** The handlers take their steps in the given order. *)
Fixpoint schedule (order : list nat) (cfg : Config) : Config :=
  match order with
  | [] => cfg
  | i :: order' => schedule order' (advance_at i cfg)
  end.

(** Everything that can happen from [cfg0]: at any moment a client whose
    session satisfies [session_ok] starts a handler, or a handler under
    way takes its next step. [call_ok] restricts the writes that are
    issued, judged against the store at the moment of the call. *)
Inductive interleaved (session_ok : Session → Prop) (call_ok : Call → Store → Prop)
    (cfg0 : Config) : Config → Prop :=
| il_begin : interleaved session_ok call_ok cfg0 cfg0
| il_start w pool s h :
    interleaved session_ok call_ok cfg0 (w, pool) →
    session_ok s → starts s h →
    interleaved session_ok call_ok cfg0 (w, pool ++ [h])
| il_advance cfg i h :
    interleaved session_ok call_ok cfg0 cfg →
    cfg.2 !! i = Some h →
    (∀ c cont, rest h = Write c cont → call_ok c (store cfg.1)) →
    interleaved session_ok call_ok cfg0 (advance_at i cfg).

(** Keys of events are keys that [addDoc] has handed out. *)
Definition event_keys_ok (st : Store) : Prop :=
  ∀ k e, event_docs st !! k = Some e → (k < nextId st)%N.

(** A write that does not lower the capacity of the event it updates. *)
Definition keeps_capacity (c : Call) (st : Store) : Prop :=
  ∀ k p (e : Event) cap,
    c = UpdateEvent k p → event_docs st !! k = Some e →
    upd_capacity p = Some cap → capacity e ≤ cap.

(** The sessions a client of the application gets into. *)
Definition session_reached (s : Session) : Prop :=
  ∃ acts w, s = session (run acts initial_client w).1.

(** [st'] comes after [st]: the keys handed out in [st] stay handed out,
    and an event still found under one of them has at least the capacity
    it had. *)
Definition later_store (st st' : Store) : Prop :=
  (nextId st ≤ nextId st')%N ∧
  ∀ k (e' : Event), (k < nextId st)%N → event_docs st' !! k = Some e' →
    ∃ e : Event, event_docs st !! k = Some e ∧ capacity e ≤ capacity e'.

(** A write that cannot break the capacity invariant in [st]: an attendee
    list written to an event fits the capacity the event has, a new event
    has room for its attendees. *)
Definition write_within_capacity (st : Store) (c : Call) : Prop :=
  match c with
  | UpdateEvent k p =>
    ∀ l, upd_attendees p = Some l →
         (k < nextId st)%N ∧
         ∀ e : Event, event_docs st !! k = Some e → Z.of_nat (length l) ≤ capacity e
  | AddEvent e => Z.of_nat (length (attendees e)) ≤ capacity e
  | _ => True
  end.

(** What is left of a handler cannot break the capacity invariant:
    whatever it reads from a store that satisfies the invariant and
    whatever becomes of the store before its writes, every write fits. *)
Fixpoint within_capacity (st : Store) (p : Prog) : Prop :=
  match p with
  | Finish _ => True
  | Read k cont =>
    ∀ st', event_keys_ok st' → capacity_ok st' →
           within_capacity st' (cont (event_docs st' !! k))
  | Write c cont =>
    write_within_capacity st c ∧ ∀ st', later_store st st' → within_capacity st' cont
  | Now cont => ∀ t, within_capacity st (cont t)
  end.

(** What is left of a handler writes no status: its updates do not name
    the field, and the events it adds are pending. *)
Fixpoint writes_no_status (p : Prog) : Prop :=
  match p with
  | Finish _ => True
  | Read k cont => ∀ eventSnap, writes_no_status (cont eventSnap)
  | Write c cont =>
    match c with
    | UpdateEvent k p => upd_status p = None
    | AddEvent e => status e = pending
    | _ => True
    end ∧ writes_no_status cont
  | Now cont => ∀ t, writes_no_status (cont t)
  end.

(** Since [st0], no event has changed its status and every event added
    is pending. *)
Definition status_kept (st0 st : Store) : Prop :=
  (nextId st0 ≤ nextId st)%N ∧
  ∀ k (e' : Event), event_docs st !! k = Some e' →
    if decide (k < nextId st0)%N
    then ∃ e : Event, event_docs st0 !! k = Some e ∧ status e' = status e
    else status e' = pending.

(** * Job portal

    The second application of [src/event.js]: [JobList], [AppliedJobs]
    and their [App], over the per-user collection
    [artifacts/${__app_id}/users/${userId}/applications]. *)
Module JobPortal.

(** An entry of [predefinedJobs]. *)
Record Job := mkJob {
  id : string;
  title : string;
  company : string;
  location : string;
  description : string
}.

(** An application document; [appliedAt] is the time at which the server
    commits the write ([serverTimestamp()]). *)
Record Application := mkApplication {
  jobId : string;
  jobTitle : string;
  applicantName : string;
  applicantEmail : string;
  appliedAt : string
}.

(** The applications of all users, keyed by user and document id, and
    the supply of document ids for [addDoc]. *)
Record Store := mkStore {
  application_docs : gmap (string * N) Application;
  nextId : N
}.

Inductive Call :=
| AddApplication (u : string) (a : Application)
| DeleteApplication (u : string) (k : N).

(** The world of the job portal: as for the event application, with the
    server's clock. [now] is the server's time at the next call, [later]
    its times at the calls after that (when [later] runs out the clock
    stands still). *)
Record World := mkWorld {
  store : Store;
  calls : list Call;
  faults : list bool;
  now : string;
  later : list string
}.

(** One round trip to the store, as for the event application; the
    server's clock moves on with every call. *)
Definition request {A} (c : Call) (run : Store → Store * A) (w : World)
    : World * Reply A :=
  let logged := calls w ++ [c] in
  let rest := tail (faults w) in
  let next := default (now w) (head (later w)) in
  match faults w with
  | true :: _ => (mkWorld (store w) logged rest next (tail (later w)), Thrown unavailable)
  | _ =>
    let '(s', a) := run (store w) in
    (mkWorld s' logged rest next (tail (later w)), Ok a)
  end.

(** [addDoc(applicationsColRef, { ..., appliedAt: serverTimestamp() })]:
    the document is stamped with the server's time at this call. *)
Definition addDoc (u : string) (jobId jobTitle applicantName applicantEmail : string)
    (w : World) : World * Reply N :=
  let a := mkApplication jobId jobTitle applicantName applicantEmail (now w) in
  request (AddApplication u a)
    (λ s, (mkStore (<[(u, nextId s) := a]> (application_docs s)) (N.succ (nextId s)),
           nextId s)) w.

(** [deleteDoc(doc(db, `.../applications`, k))] *)
Definition deleteDoc (u : string) (k : N) (w : World) : World * Reply unit :=
  request (DeleteApplication u k)
    (λ s, (mkStore (delete (u, k) (application_docs s)) (nextId s), tt)) w.

(** How an [async] handler ends: it resolves, or rejects with an [Error]
    carrying a message. *)
Inductive Outcome := Resolved | Rejected (message : string).

(** The state cells of [App] that the handlers read or write. *)
Record App := mkApp {
  db : bool;
  userId : option string;
  isAuthReady : bool;
  jobs : list Job;
  applications : list (N * Application);
  loadingJobs : bool;
  loadingApplications : bool;
  jobSearchQuery : string;
  error : string
}.

Definition setError (e : string) (a : App) : App :=
  mkApp (db a) (userId a) (isAuthReady a) (jobs a) (applications a)
        (loadingJobs a) (loadingApplications a) (jobSearchQuery a) e.

Definition setJobSearchQuery (q : string) (a : App) : App :=
  mkApp (db a) (userId a) (isAuthReady a) (jobs a) (applications a)
        (loadingJobs a) (loadingApplications a) q (error a).

Definition predefinedJobs : list Job :=
  [ mkJob "job1" "Software Engineer" "Tech Solutions Inc." "Bangalore, India"
          "Develop and maintain high-performance software applications.";
    mkJob "job2" "Product Manager" "Innovate Corp" "Mumbai, India"
          "Define product vision, strategy, and roadmap.";
    mkJob "job3" "UX Designer" "Creative Studio" "Delhi, India"
          "Design intuitive and engaging user experiences.";
    mkJob "job4" "Data Scientist" "Analytics Hub" "Hyderabad, India"
          "Analyze complex data sets to extract actionable insights.";
    mkJob "job5" "Marketing Specialist" "Global Brands" "Chennai, India"
          "Develop and execute marketing campaigns across various channels." ].

(** The effect that loads the jobs once [db] and [isAuthReady] are set. *)
Definition loadJobs (a : App) : App :=
  if db a && isAuthReady a
  then mkApp (db a) (userId a) (isAuthReady a) predefinedJobs (applications a)
             false (loadingApplications a) (jobSearchQuery a) (error a)
  else a.

(** The snapshot listener of the user's applications. *)
Definition onSnapshot (w : World) (a : App) : App :=
  match userId a with
  | Some u =>
    if db a && truthy u && isAuthReady a
    then mkApp (db a) (userId a) (isAuthReady a) (jobs a)
               (omap (λ kv : (string * N) * Application,
                        if decide (kv.1.1 = u) then Some (kv.1.2, kv.2) else None)
                     (map_to_list (application_docs (store w))))
               (loadingJobs a) false (jobSearchQuery a) (error a)
    else a
  | None => a
  end.

(** [!db || !userId] *)
Definition not_ready (a : App) : bool :=
  negb (db a) ||
  match userId a with
  | Some u => negb (truthy u)
  | None => true
  end.

Definition msg_not_ready := "Database not ready or user not authenticated.".

(** [handleApplyJob]: when not ready it sets the error and returns (the
    promise resolves); a failed [addDoc] is rethrown. *)
Definition handleApplyJob (jobId jobTitle applicantName applicantEmail : string)
    (a : App) (w : World) : App * World * Outcome :=
  if not_ready a then (setError msg_not_ready a, w, Resolved)
  else
    match userId a with
    | None => (setError msg_not_ready a, w, Resolved)
    | Some u =>
      match addDoc u jobId jobTitle applicantName applicantEmail w with
      | (w', Ok _) => (a, w', Resolved)
      | (w', Thrown _) => (a, w', Rejected "Failed to submit application.")
      end
    end.

(** [handleDeleteApplication] *)
Definition handleDeleteApplication (applicationId : N) (a : App) (w : World)
    : App * World * Outcome :=
  if not_ready a then (setError msg_not_ready a, w, Resolved)
  else
    match userId a with
    | None => (setError msg_not_ready a, w, Resolved)
    | Some u =>
      match deleteDoc u applicationId w with
      | (w', Ok _) => (a, w', Resolved)
      | (w', Thrown _) => (a, w', Rejected "Failed to delete application.")
      end
    end.

(** [filteredJobs] *)
Definition matchesQuery (q : string) (job : Job) : bool :=
  str_includes (toLowerCase q) (toLowerCase (title job)) ||
  str_includes (toLowerCase q) (toLowerCase (company job)) ||
  str_includes (toLowerCase q) (toLowerCase (location job)) ||
  str_includes (toLowerCase q) (toLowerCase (description job)).

Definition filteredJobs (a : App) : list Job :=
  List.filter (matchesQuery (jobSearchQuery a)) (jobs a).

(** The state cells of [JobList]. *)
Record JobList := mkJobList {
  isModalOpen : bool;
  selectedJob : option Job;
  formName : string;
  formEmail : string;
  applyError : string;
  applySuccess : string;
  isApplying : bool
}.

Definition msg_fill_in := "Please fill in both name and email.".
Definition msg_submitted := "Application submitted successfully!".
Definition msg_submit_failed := "Failed to submit application. Please try again.".

(** [handleApplyClick] *)
Definition handleApplyClick (job : Job) (l : JobList) : JobList :=
  mkJobList true (Some job) "" "" "" "" (isApplying l).

(** [handleSubmitApplication], run to completion. Reading
    [selectedJob.id] of a null [selectedJob] throws inside the [try]. *)
Definition handleSubmitApplication (l : JobList) (a : App) (w : World)
    : JobList * App * World :=
  if negb (truthy (formName l)) || negb (truthy (formEmail l))
  then (mkJobList (isModalOpen l) (selectedJob l) (formName l) (formEmail l)
                  msg_fill_in (applySuccess l) (isApplying l), a, w)
  else
    let failed :=
      mkJobList (isModalOpen l) (selectedJob l) (formName l) (formEmail l)
                msg_submit_failed "" false in
    match selectedJob l with
    | None => (failed, a, w)
    | Some job =>
      match handleApplyJob (id job) (title job) (formName l) (formEmail l) a w with
      | (a', w', Resolved) =>
        (mkJobList (isModalOpen l) (selectedJob l) (formName l) (formEmail l)
                   "" msg_submitted false, a', w')
      | (a', w', Rejected _) => (failed, a', w')
      end
    end.

(** The timer started after a successful submission. *)
Definition closeAfterSuccess (l : JobList) : JobList :=
  mkJobList false (selectedJob l) (formName l) (formEmail l)
            (applyError l) "" (isApplying l).

(** The state cells of [AppliedJobs]. *)
Record AppliedJobs := mkAppliedJobs {
  isDeleteModalOpen : bool;
  appToDelete : option N;
  deleteError : string;
  isDeleting : bool
}.

Definition msg_delete_failed := "Failed to delete application. Please try again.".

(** [handleDeleteClick] *)
Definition handleDeleteClick (appId : N) (d : AppliedJobs) : AppliedJobs :=
  mkAppliedJobs true (Some appId) "" (isDeleting d).

(** [confirmDelete], run to completion. *)
Definition confirmDelete (d : AppliedJobs) (a : App) (w : World)
    : AppliedJobs * App * World :=
  match appToDelete d with
  | None => (d, a, w)
  | Some k =>
    match handleDeleteApplication k a w with
    | (a', w', Resolved) => (mkAppliedJobs false None "" false, a', w')
    | (a', w', Rejected _) =>
      (mkAppliedJobs (isDeleteModalOpen d) (appToDelete d) msg_delete_failed false,
       a', w')
    end
  end.

(** Document ids handed out by [addDoc] are below [nextId]. *)
Definition keys_ok (st : Store) : Prop :=
  ∀ u k a, application_docs st !! (u, k) = Some a → (k < nextId st)%N.

(** Sample data. *)
Definition ready (u : string) : App :=
  mkApp true (Some u) true predefinedJobs [] false false "" "".

Definition world_of (st : Store) : World :=
  mkWorld st [] [] "2029-06-01T12:00:00.000Z" [].

Definition empty_store : Store := mkStore ∅ 0%N.

Definition applying (job : Job) (name email : string) : JobList :=
  mkJobList true (Some job) name email "" "" false.

End JobPortal.

(** * Verification *)

Ltac unfold_gateway :=
  unfold try_catch, bind, ret, clock, getDoc_event, updateDoc_event,
    addDoc_event, deleteDoc_event, setDoc_registration,
    deleteDoc_registration, getDoc_profile, setDoc_profile, request.

Lemma without_notin x (l : list string) : x ∉ l → without x l = l.
Proof.
  induction l as [|y l IH]; intros Hx; [done|].
  apply not_elem_of_cons in Hx as [Hne Hx]. simpl.
  destruct (String.eqb_spec y x) as [->|_]; [done|]. simpl. by rewrite IH.
Qed.

Lemma without_app_self x (l : list string) : x ∉ l → without x (l ++ [x]) = l.
Proof.
  intros Hx. unfold without. rewrite List.filter_app. fold (without x l).
  rewrite without_notin by done. simpl. rewrite String.eqb_refl. simpl.
  apply app_nil_r.
Qed.

Lemma without_length_le x (l : list string) :
  (length (without x l) ≤ length l)%nat.
Proof. apply List.filter_length_le. Qed.

Lemma without_length_in x (l : list string) :
  x ∈ l → (length (without x l) < length l)%nat.
Proof.
  induction l as [|y l IH]; intros Hx; [by apply elem_of_nil in Hx|].
  simpl. destruct (String.eqb_spec y x) as [->|Hne]; simpl.
  - pose proof (without_length_le x l). lia.
  - apply elem_of_cons in Hx as [->|Hx]; [done|]. specialize (IH Hx). lia.
Qed.

Lemma includes_true x (l : list string) : includes x l = true ↔ x ∈ l.
Proof. unfold includes. apply bool_decide_eq_true. Qed.

Lemma includes_false x (l : list string) : includes x l = false ↔ x ∉ l.
Proof. unfold includes. apply bool_decide_eq_false. Qed.

Lemma geb_lt x y : x < y → (x >=? y) = false.
Proof. intros H. rewrite Z.geb_leb. by apply Z.leb_gt. Qed.

Lemma merge_attendees_undo l (e : Event) :
  merge (patch_attendees (attendees e)) (merge (patch_attendees l) e) = e.
Proof. by destruct e as [[] ? ? ? ?]. Qed.

Section Handlers.
Variables (s : Session) (user : User) (a : App) (w : World) (k : N) (e : Event).
Hypothesis Hlogin : currentUser s = Some user.
Hypothesis Hfaults : faults w = [].
Hypothesis Hevent : event_docs (store w) !! k = Some e.

Lemma handleRegister_AlreadyRegistered :
  uid user ∈ attendees e →
  handleRegister s k a w =
    (showMessage msg_AlreadyRegistered a,
     mkWorld (store w) (calls w ++ [GetEvent k]) [] (now w)).
Proof using Hlogin Hfaults Hevent.
  intros Hin. unfold handleRegister. rewrite Hlogin. unfold_gateway.
  rewrite Hfaults, Hevent. simpl.
  by rewrite (proj2 (includes_true _ _) Hin).
Qed.

Lemma handleRegister_EventFull :
  uid user ∉ attendees e →
  capacity e ≤ Z.of_nat (length (attendees e)) →
  handleRegister s k a w =
    (showMessage msg_EventFull a,
     mkWorld (store w) (calls w ++ [GetEvent k]) [] (now w)).
Proof using Hlogin Hfaults Hevent.
  intros Hin Hcap. unfold handleRegister. rewrite Hlogin. unfold_gateway.
  rewrite Hfaults, Hevent. simpl.
  rewrite (proj2 (includes_false _ _) Hin).
  by rewrite (proj2 (Z.geb_le _ _) Hcap).
Qed.

Lemma handleRegister_registered :
  uid user ∉ attendees e →
  Z.of_nat (length (attendees e)) < capacity e →
  handleRegister s k a w =
    (showMessage msg_registered a,
     mkWorld
       (with_registrations (<[(uid user, k) := mkRegistration k (now w)]>)
          (with_events
             (<[k := merge (patch_attendees (attendees e ++ [uid user])) e]>)
             (store w)))
       (calls w ++ [GetEvent k;
                    UpdateEvent k (patch_attendees (attendees e ++ [uid user]));
                    SetRegistration (uid user) k (mkRegistration k (now w))])
       [] (now w)).
Proof using Hlogin Hfaults Hevent.
  intros Hin Hcap. unfold handleRegister. rewrite Hlogin. unfold_gateway.
  rewrite Hfaults, Hevent. simpl.
  rewrite (proj2 (includes_false _ _) Hin).
  destruct (Z.geb_spec (Z.of_nat (length (attendees e))) (capacity e)); [lia|].
  simpl. rewrite Hevent. simpl. by rewrite <- !app_assoc.
Qed.

Lemma cancelRegistration_NotRegistered :
  uid user ∉ attendees e →
  cancelRegistration s k a w =
    (closeConfirmation
       (showMessage msg_NotRegistered (handleCancelRegistration s k a)),
     mkWorld (store w) (calls w ++ [GetEvent k]) [] (now w)).
Proof using Hlogin Hfaults Hevent.
  intros Hin. unfold cancelRegistration, onConfirm. simpl.
  unfold confirmCancel. rewrite Hlogin. unfold_gateway.
  rewrite Hfaults, Hevent. simpl.
  rewrite without_notin by done. by rewrite Nat.eqb_refl.
Qed.

Lemma cancelRegistration_cancelled :
  uid user ∈ attendees e →
  cancelRegistration s k a w =
    (closeConfirmation
       (showMessage msg_cancelled (handleCancelRegistration s k a)),
     mkWorld
       (with_registrations (delete (uid user, k))
          (with_events
             (<[k := merge (patch_attendees (without (uid user) (attendees e))) e]>)
             (store w)))
       (calls w ++ [GetEvent k;
                    UpdateEvent k (patch_attendees (without (uid user) (attendees e)));
                    DeleteRegistration (uid user) k])
       [] (now w)).
Proof using Hlogin Hfaults Hevent.
  intros Hin. unfold cancelRegistration, onConfirm. simpl.
  unfold confirmCancel. rewrite Hlogin. unfold_gateway.
  rewrite Hfaults, Hevent. simpl.
  pose proof (without_length_in _ _ Hin) as Hlt.
  destruct (Nat.eqb_spec (length (without (uid user) (attendees e)))
                         (length (attendees e))); [lia|].
  simpl. rewrite Hevent. simpl. by rewrite <- !app_assoc.
Qed.
End Handlers.

Lemma writes_read_only w st k fs nw :
  writes (mkWorld st (calls w ++ [GetEvent k]) fs nw) = writes w.
Proof. unfold writes. simpl. rewrite List.filter_app. simpl. apply app_nil_r. Qed.

Lemma writes_app st cs l fs nw :
  writes (mkWorld st (cs ++ l) fs nw) = List.filter is_write cs ++ List.filter is_write l.
Proof. unfold writes. simpl. apply List.filter_app. Qed.

Lemma merge_patch_attendees l (e : Event) :
  merge (patch_attendees l) e =
    mkEvent (data e) (creatorId e) (creatorEmail e) (status e) l.
Proof. by destruct e as [[] ? ? ? ?]. Qed.

(** C4: for an existing event with room left and a registrant who is not
    yet among its attendees, [handleRegister] first issues one [updateDoc]
    on the event document, naming the one field [attendees] with the list
    [attendees ++ [userId]], and only then the [setDoc] of the
    registration record. When the store rejects nothing, both are
    committed: the event document is the old one with the registrant
    appended to its attendees and nothing else changed, and the record is
    in place. Whatever the store rejects, the writes attempted are an
    initial part of that two-element sequence, and the record write is
    attempted only once the attendee update is committed. *)
Theorem register_update_before_record s user a w k e :
  currentUser s = Some user →
  event_docs (store w) !! k = Some e →
  uid user ∉ attendees e →
  Z.of_nat (length (attendees e)) < capacity e →
  let joined := mkEvent (data e) (creatorId e) (creatorEmail e) (status e)
                        (attendees e ++ [uid user]) in
  let upd := UpdateEvent k (mkPatch None None None None None None None None None
                                    (Some (attendees e ++ [uid user]))) in
  let rec := SetRegistration (uid user) k (mkRegistration k (now w)) in
  let r := handleRegister s k a w in
  (faults w = [] →
     message r.1 = msg_registered ∧
     calls r.2 = calls w ++ [GetEvent k; upd; rec] ∧
     event_docs (store r.2) = <[k := joined]> (event_docs (store w)) ∧
     attendees <$> event_docs (store r.2) !! k = Some (attendees e ++ [uid user]) ∧
     registration_docs (store r.2) =
       <[(uid user, k) := mkRegistration k (now w)]> (registration_docs (store w))) ∧
  (∃ n, writes r.2 = writes w ++ take n [upd; rec]) ∧
  (rec ∈ drop (length (calls w)) (calls r.2) →
     event_docs (store r.2) !! k = Some joined).
Proof.
  intros Hlogin Hevent Hout Hroom joined upd rec r.
  assert (Hjoined : merge (patch_attendees (attendees e ++ [uid user])) e = joined)
    by apply merge_patch_attendees.
  split; [|split].
  - intros Hfaults. subst r.
    rewrite (handleRegister_registered s user a w k e) by done. simpl.
    rewrite Hjoined. repeat split; try done. by rewrite lookup_insert_eq.
  - subst r. unfold handleRegister. rewrite Hlogin. unfold_gateway.
    apply includes_false in Hout. apply geb_lt in Hroom.
    destruct w as [st cs fs nw]. simpl in *.
    destruct fs as [|[] [|[] [|[] fs]]]; simpl;
      rewrite ?Hevent; simpl; rewrite ?Hout, ?Hroom; simpl;
      rewrite ?Hevent; simpl; rewrite <- ?app_assoc; simpl;
      rewrite writes_app; unfold writes; simpl;
      first [ by exists 0%nat | by exists 1%nat | by exists 2%nat ].
  - subst r. unfold handleRegister. rewrite Hlogin. unfold_gateway.
    apply includes_false in Hout. apply geb_lt in Hroom.
    destruct w as [st cs fs nw]. simpl in *.
    destruct fs as [|[] [|[] [|[] fs]]]; simpl;
      rewrite ?Hevent; simpl; rewrite ?Hout, ?Hroom; simpl;
      rewrite ?Hevent; simpl; rewrite <- ?app_assoc; simpl;
      rewrite drop_app_length;
      intros Hin; try (by rewrite Hjoined, lookup_insert_eq);
      repeat (apply elem_of_cons in Hin as [Hin|Hin]; [discriminate Hin|]);
      by apply elem_of_nil in Hin.
Qed.

Lemma register_update_before_record_witness :
  let r := handleRegister (signed_in alice false) 0%N initial_app
             (world_of (one_event (party 2 approved ["B"]))) in
  calls r.2
  = [GetEvent 0;
     UpdateEvent 0 (mkPatch None None None None None None None None None
                            (Some ["B"; "A"]));
     SetRegistration "A" 0 (mkRegistration 0 "2029-06-01T12:00:00.000Z")] ∧
  event_docs (store r.2) !! 0%N = Some (party 2 approved ["B"; "A"]) ∧
  registration_docs (store r.2) !! ("A", 0%N)
  = Some (mkRegistration 0 "2029-06-01T12:00:00.000Z").
Proof.
  intros r.
  assert (Hout : uid alice ∉ attendees (party 2 approved ["B"])).
  { apply includes_false. vm_compute. reflexivity. }
  assert (Hroom : Z.of_nat (length (attendees (party 2 approved ["B"])))
                  < capacity (party 2 approved ["B"])).
  { simpl. lia. }
  destruct (register_update_before_record (signed_in alice false) alice
              initial_app (world_of (one_event (party 2 approved ["B"]))) 0%N
              (party 2 approved ["B"]) eq_refl eq_refl Hout Hroom) as [Hok _].
  destruct (Hok eq_refl) as (_ & Hcalls & Hdocs & _ & Hrecs).
  fold r in Hcalls, Hdocs, Hrecs.
  split; [exact Hcalls|]. split.
  - rewrite Hdocs. reflexivity.
  - rewrite Hrecs. reflexivity.
Defined.

(** C5: [handleRegister] for a registrant who is already among the
    attendees reports "already registered", leaves the store as it is and
    attempts no write; in particular a second [handleRegister] for the
    same event and identity does so whenever the first one registered the
    identity (or found it registered): the attendee list stays as the
    first call left it, with the identity in it. *)
Theorem register_twice_AlreadyRegistered s user a w k e :
  currentUser s = Some user →
  faults w = [] →
  event_docs (store w) !! k = Some e →
  let r1 := handleRegister s k a w in
  let r2 := handleRegister s k r1.1 r1.2 in
  (uid user ∈ attendees e →
     message r1.1 = msg_AlreadyRegistered ∧
     store r1.2 = store w ∧ writes r1.2 = writes w) ∧
  (message r1.1 = msg_registered ∨ message r1.1 = msg_AlreadyRegistered →
     message r2.1 = msg_AlreadyRegistered ∧
     store r2.2 = store r1.2 ∧ writes r2.2 = writes r1.2 ∧
     ∃ e1, event_docs (store r2.2) !! k = Some e1 ∧ uid user ∈ attendees e1) ∧
  (message r1.1 = msg_registered →
     attendees <$> event_docs (store r2.2) !! k = Some (attendees e ++ [uid user])).
Proof.
  intros Hlogin Hfaults Hevent r1 r2. split; [|split].
  - intros Hin. subst r1.
    rewrite (handleRegister_AlreadyRegistered s user a w k e) by done.
    simpl. split; [done|]. split; [done|]. apply writes_read_only.
  - destruct (decide (uid user ∈ attendees e)) as [Hin|Hout].
    { (* the identity was registered before the first call *)
      intros _. subst r2 r1.
      rewrite (handleRegister_AlreadyRegistered s user a w k e) by done. simpl.
      set (w1 := mkWorld _ _ _ _).
      rewrite (handleRegister_AlreadyRegistered s user _ w1 k e Hlogin eq_refl Hevent Hin).
      simpl. split; [done|]. split; [done|]. split; [apply (writes_read_only w1)|].
      by exists e. }
    destruct (Z.lt_ge_cases (Z.of_nat (length (attendees e))) (capacity e))
      as [Hroom|Hfull].
    2:{ subst r1 r2.
        rewrite (handleRegister_EventFull s user a w k e) by done.
        intros [?|?]; discriminate. }
    (* the first call registers the identity *)
    intros _. subst r2 r1.
    rewrite (handleRegister_registered s user a w k e) by done. simpl.
    set (e1 := merge (patch_attendees (attendees e ++ [uid user])) e).
    set (w1 := mkWorld _ _ _ _).
    assert (Hevent1 : event_docs (store w1) !! k = Some e1)
      by (subst w1; simpl; apply lookup_insert_eq).
    assert (Hin1 : uid user ∈ attendees e1).
    { subst e1. simpl. apply elem_of_app. right. by apply list_elem_of_singleton. }
    rewrite (handleRegister_AlreadyRegistered s user _ w1 k e1 Hlogin eq_refl
               Hevent1 Hin1).
    simpl. split; [done|]. split; [done|]. split; [apply (writes_read_only w1)|].
    by exists e1.
  - destruct (decide (uid user ∈ attendees e)) as [Hin|Hout].
    { subst r1 r2.
      rewrite (handleRegister_AlreadyRegistered s user a w k e) by done.
      discriminate. }
    destruct (Z.lt_ge_cases (Z.of_nat (length (attendees e))) (capacity e))
      as [Hroom|Hfull].
    2:{ subst r1 r2.
        rewrite (handleRegister_EventFull s user a w k e) by done. discriminate. }
    intros _. subst r2 r1.
    rewrite (handleRegister_registered s user a w k e) by done. simpl.
    set (e1 := merge (patch_attendees (attendees e ++ [uid user])) e).
    set (w1 := mkWorld _ _ _ _).
    assert (Hevent1 : event_docs (store w1) !! k = Some e1)
      by (subst w1; simpl; apply lookup_insert_eq).
    rewrite (handleRegister_AlreadyRegistered s user _ w1 k e1 Hlogin eq_refl Hevent1).
    2:{ subst e1. simpl. apply elem_of_app. right. by apply list_elem_of_singleton. }
    simpl. subst w1. simpl. by rewrite lookup_insert_eq.
Qed.

Lemma register_twice_AlreadyRegistered_witness :
  let r1 := handleRegister (signed_in alice false) 0%N initial_app
              (world_of (one_event (party 2 approved ["B"]))) in
  let r2 := handleRegister (signed_in alice false) 0%N r1.1 r1.2 in
  message r2.1 = msg_AlreadyRegistered ∧ store r2.2 = store r1.2.
Proof.
  destruct (register_twice_AlreadyRegistered (signed_in alice false) alice
              initial_app (world_of (one_event (party 2 approved ["B"]))) 0%N
              (party 2 approved ["B"]) eq_refl eq_refl eq_refl) as (_ & Htwice & _).
  destruct (Htwice (or_introl eq_refl)) as (Hmsg & Hstore & _). split; assumption.
Defined.

(** C7: cancelling (the click and the confirmation) for an existing
    event by an identity that is not among its attendees reports "not
    registered"; the store is left as it is and no write is attempted,
    neither on the event document nor on a registration record. *)
Theorem cancel_unregistered_NotRegistered s user a w k e :
  currentUser s = Some user →
  faults w = [] →
  event_docs (store w) !! k = Some e →
  uid user ∉ attendees e →
  let r := cancelRegistration s k a w in
  message r.1 = msg_NotRegistered ∧
  store r.2 = store w ∧
  writes r.2 = writes w ∧
  calls r.2 = calls w ++ [GetEvent k].
Proof.
  intros Hlogin Hfaults Hevent Hout r. subst r.
  rewrite (cancelRegistration_NotRegistered s user a w k e) by done. simpl.
  split; [done|]. split; [done|]. split; [|done]. apply writes_read_only.
Qed.

Lemma cancel_unregistered_NotRegistered_witness :
  let r := cancelRegistration (signed_in alice false) 0%N initial_app
             (world_of (one_event (party 2 approved ["B"]))) in
  message r.1 = msg_NotRegistered ∧
  store r.2 = one_event (party 2 approved ["B"]) ∧
  writes r.2 = [] ∧
  calls r.2 = [GetEvent 0].
Proof.
  apply (cancel_unregistered_NotRegistered (signed_in alice false) alice
           initial_app (world_of (one_event (party 2 approved ["B"]))) 0%N
           (party 2 approved ["B"]) eq_refl eq_refl eq_refl).
  apply includes_false. vm_compute. reflexivity.
Defined.

(** C6, as stated, fails: on an event that is full, a registrant who is
    already among the attendees is told "already registered", not "event
    full" (the membership test comes first in [handleRegister]). *)
Lemma register_on_full_event_AlreadyRegistered :
  let e := party 1 approved ["A"] in
  let r := handleRegister (signed_in alice false) 0%N initial_app
             (world_of (one_event e)) in
  capacity e ≤ Z.of_nat (length (attendees e)) ∧
  message r.1 = msg_AlreadyRegistered ∧
  message r.1 ≠ msg_EventFull.
Proof. vm_compute. split; [discriminate|]. split; [reflexivity|discriminate]. Qed.

(** C6, amended: for an existing event whose attendee count has reached
    its capacity and a registrant who is not among the attendees,
    [handleRegister] reports "event full", leaves the store as it is and
    attempts no write. In particular, on an event of capacity 1 without
    attendees (whatever its status): A registers and the attendees are
    [A]; B is told the event is full; A cancels and the attendees are
    empty; B registers and the attendees are [B]. *)
Theorem register_EventFull sA userA sB userB a w k e :
  currentUser sA = Some userA →
  currentUser sB = Some userB →
  uid userA ≠ uid userB →
  faults w = [] →
  event_docs (store w) !! k = Some e →
  (uid userB ∉ attendees e →
   capacity e ≤ Z.of_nat (length (attendees e)) →
   let r := handleRegister sB k a w in
   message r.1 = msg_EventFull ∧ store r.2 = store w ∧ writes r.2 = writes w) ∧
  (capacity e = 1 → attendees e = [] →
   let r1 := handleRegister sA k a w in
   let r2 := handleRegister sB k r1.1 r1.2 in
   let r3 := cancelRegistration sA k r2.1 r2.2 in
   let r4 := handleRegister sB k r3.1 r3.2 in
   let attendees_at (w' : World) := attendees <$> event_docs (store w') !! k in
   message r1.1 = msg_registered ∧ attendees_at r1.2 = Some [uid userA] ∧
   message r2.1 = msg_EventFull ∧ store r2.2 = store r1.2 ∧
   message r3.1 = msg_cancelled ∧ attendees_at r3.2 = Some [] ∧
   message r4.1 = msg_registered ∧ attendees_at r4.2 = Some [uid userB]).
Proof.
  intros HA HB Hne Hfaults Hevent. split.
  - intros Hout Hfull r. subst r.
    rewrite (handleRegister_EventFull sB userB a w k e) by done.
    simpl. split; [done|]. split; [done|]. apply writes_read_only.
  - intros Hcap Hnil r1 r2 r3 r4 attendees_at.
    subst r1 r2 r3 r4 attendees_at.
    (* A registers *)
    rewrite (handleRegister_registered sA userA a w k e HA Hfaults Hevent);
      [|rewrite Hnil; apply not_elem_of_nil|rewrite Hnil, Hcap; simpl; lia].
    rewrite Hnil. simpl.
    set (e1 := merge (patch_attendees [uid userA]) e).
    set (w1 := mkWorld _ _ _ _).
    assert (H1 : event_docs (store w1) !! k = Some e1)
      by (subst w1; simpl; apply lookup_insert_eq).
    (* B is refused *)
    rewrite (handleRegister_EventFull sB userB _ w1 k e1 HB eq_refl H1);
      [|subst e1; simpl; by intros ?%list_elem_of_singleton
       |subst e1; simpl; lia].
    simpl.
    set (w2 := mkWorld _ _ _ _).
    assert (H2 : event_docs (store w2) !! k = Some e1) by exact H1.
    (* A cancels *)
    rewrite (cancelRegistration_cancelled sA userA _ w2 k e1 HA eq_refl H2);
      [|subst e1; simpl; by apply list_elem_of_singleton].
    simpl. rewrite String.eqb_refl. simpl.
    set (e3 := merge (patch_attendees []) e1).
    set (w3 := mkWorld _ _ _ _).
    assert (H3 : event_docs (store w3) !! k = Some e3)
      by (subst w3; simpl; apply lookup_insert_eq).
    (* B registers *)
    rewrite (handleRegister_registered sB userB _ w3 k e3 HB eq_refl H3);
      [|subst e3; simpl; apply not_elem_of_nil
       |subst e3 e1; simpl; lia].
    simpl. subst w1 w3. simpl.
    rewrite !lookup_insert_eq. done.
Qed.

Lemma register_EventFull_witness :
  let w := world_of (one_event (party 1 approved ["A"])) in
  let r := handleRegister (signed_in bob false) 0%N initial_app w in
  message r.1 = msg_EventFull ∧ store r.2 = store w ∧ writes r.2 = writes w.
Proof.
  assert (Hne : uid alice ≠ uid bob) by discriminate.
  destruct (register_EventFull (signed_in alice false) alice
              (signed_in bob false) bob initial_app
              (world_of (one_event (party 1 approved ["A"]))) 0%N
              (party 1 approved ["A"]) eq_refl eq_refl Hne eq_refl eq_refl)
    as [Hfull _].
  apply Hfull.
  - apply includes_false. vm_compute. reflexivity.
  - simpl. lia.
Defined.

(** C8, as stated, fails on a store that holds a stale registration
    record. Here A registers, then cancels while the store rejects the
    [deleteDoc] of the record (the sixth call), which leaves A's record
    behind; a register and a cancel whose writes all succeed then end with
    no record, although there was one before that register. *)
Lemma roundtrip_drops_stale_record :
  let s := signed_in alice false in
  let w := mkWorld (one_event (party 2 approved [])) []
             [false; false; false; false; false; true]
             "2029-06-01T12:00:00.000Z" in
  let r1 := handleRegister s 0%N initial_app w in
  let r2 := cancelRegistration s 0%N r1.1 r1.2 in
  let before := r2.2 in
  let r3 := handleRegister s 0%N r2.1 before in
  let r4 := cancelRegistration s 0%N r3.1 r3.2 in
  let after := r4.2 in
  faults before = [] ∧
  message r3.1 = msg_registered ∧
  message r4.1 = msg_cancelled ∧
  attendees <$> event_docs (store before) !! 0%N = Some [] ∧
  attendees <$> event_docs (store after) !! 0%N = Some [] ∧
  is_Some (registration_docs (store before) !! ("A", 0%N)) ∧
  registration_docs (store after) !! ("A", 0%N) = None.
Proof. vm_compute. repeat split; eauto. Qed.

(** What a register that goes through and the cancel after it leave
    behind. *)
Lemma register_then_cancel_store s user a w k e :
  currentUser s = Some user →
  faults w = [] →
  event_docs (store w) !! k = Some e →
  uid user ∉ attendees e →
  Z.of_nat (length (attendees e)) < capacity e →
  let r1 := handleRegister s k a w in
  let r2 := cancelRegistration s k r1.1 r1.2 in
  message r1.1 = msg_registered ∧
  message r2.1 = msg_cancelled ∧
  store r2.2 = with_registrations (delete (uid user, k)) (store w).
Proof.
  intros Hlogin Hfaults Hevent Hout Hroom r1 r2. subst r2 r1.
  rewrite (handleRegister_registered s user a w k e) by done. simpl.
  set (e1 := merge (patch_attendees (attendees e ++ [uid user])) e).
  set (w1 := mkWorld _ _ _ _).
  assert (H1 : event_docs (store w1) !! k = Some e1)
    by (subst w1; simpl; apply lookup_insert_eq).
  rewrite (cancelRegistration_cancelled s user _ w1 k e1 Hlogin eq_refl H1).
  2:{ subst e1. simpl. apply elem_of_app. right. by apply list_elem_of_singleton. }
  simpl. rewrite without_app_self by done.
  split; [done|]. split; [done|].
  subst w1 e1. unfold with_registrations, with_events. simpl.
  rewrite merge_attendees_undo, insert_insert_eq, delete_insert_eq.
  by rewrite (insert_id _ _ _ Hevent).
Qed.

(** C8, amended: for an existing event with room left and an identity
    that is not among its attendees, a register followed by a cancel
    (the store rejecting nothing) both report success, leave the event
    collection exactly as it was before the register, and leave no
    registration record for the pair; so the whole store is as before
    whenever no record for the pair existed before the register. *)
Theorem register_then_cancel_roundtrip s user a w k e :
  currentUser s = Some user →
  faults w = [] →
  event_docs (store w) !! k = Some e →
  uid user ∉ attendees e →
  Z.of_nat (length (attendees e)) < capacity e →
  let r1 := handleRegister s k a w in
  let r2 := cancelRegistration s k r1.1 r1.2 in
  message r1.1 = msg_registered ∧
  message r2.1 = msg_cancelled ∧
  event_docs (store r2.2) = event_docs (store w) ∧
  registration_docs (store r2.2) = delete (uid user, k) (registration_docs (store w)) ∧
  registration_docs (store r2.2) !! (uid user, k) = None ∧
  (registration_docs (store w) !! (uid user, k) = None → store r2.2 = store w).
Proof.
  intros Hlogin Hfaults Hevent Hout Hroom r1 r2.
  destruct (register_then_cancel_store s user a w k e Hlogin Hfaults Hevent
              Hout Hroom) as (Hmsg1 & Hmsg2 & Hstore).
  fold r1 in Hmsg1. fold r1 r2 in Hmsg2, Hstore.
  split; [exact Hmsg1|]. split; [exact Hmsg2|].
  rewrite Hstore. simpl.
  split; [done|]. split; [done|]. split; [apply lookup_delete_eq|].
  intros Hnone. unfold with_registrations.
  rewrite delete_id by done. by destruct (store w).
Qed.

Lemma register_then_cancel_roundtrip_witness :
  let w := world_of (one_event (party 2 approved ["B"])) in
  let r1 := handleRegister (signed_in alice false) 0%N initial_app w in
  let r2 := cancelRegistration (signed_in alice false) 0%N r1.1 r1.2 in
  store r2.2 = store w.
Proof.
  assert (Hout : uid alice ∉ attendees (party 2 approved ["B"])).
  { apply includes_false. vm_compute. reflexivity. }
  assert (Hroom : Z.of_nat (length (attendees (party 2 approved ["B"])))
                  < capacity (party 2 approved ["B"])).
  { simpl. lia. }
  destruct (register_then_cancel_roundtrip (signed_in alice false) alice
              initial_app (world_of (one_event (party 2 approved ["B"]))) 0%N
              (party 2 approved ["B"]) eq_refl eq_refl eq_refl Hout Hroom)
    as (_ & _ & _ & _ & _ & Hsame).
  apply Hsame. reflexivity.
Defined.

(** C10: saving while an event is being edited attempts at most one
    write, an [updateDoc] whose object names exactly title, description,
    date, time, location and capacity; whatever the store does with it,
    the status, attendees, creatorId and creatorEmail of every event are
    as before. When the event exists and the store rejects nothing, the
    six fields take the submitted values. *)
Theorem edit_keeps_status_and_attendees s a w ev eventData :
  eventToEdit a = Some ev →
  let r := handleSaveEvent s eventData a w in
  let p := patch_of_eventData eventData in
  (calls r.2 = calls w ∨ calls r.2 = calls w ++ [UpdateEvent ev.1 p]) ∧
  (upd_status p = None ∧ upd_attendees p = None ∧
   upd_creatorId p = None ∧ upd_creatorEmail p = None ∧
   upd_title p = Some (title eventData) ∧
   upd_description p = Some (description eventData) ∧
   upd_date p = Some (date eventData) ∧ upd_time p = Some (time eventData) ∧
   upd_location p = Some (location eventData) ∧
   upd_capacity p = Some (capacity eventData)) ∧
  (∀ k, status <$> event_docs (store r.2) !! k = status <$> event_docs (store w) !! k) ∧
  (∀ k, attendees <$> event_docs (store r.2) !! k = attendees <$> event_docs (store w) !! k) ∧
  (∀ k, creatorId <$> event_docs (store r.2) !! k = creatorId <$> event_docs (store w) !! k) ∧
  (∀ k, creatorEmail <$> event_docs (store r.2) !! k
        = creatorEmail <$> event_docs (store w) !! k) ∧
  registration_docs (store r.2) = registration_docs (store w) ∧
  profile_docs (store r.2) = profile_docs (store w) ∧
  (∀ user e, currentUser s = Some user → faults w = [] →
     event_docs (store w) !! ev.1 = Some e →
     message r.1 = msg_updated ∧
     event_docs (store r.2) =
       <[ev.1 := mkEvent eventData (creatorId e) (creatorEmail e)
                         (status e) (attendees e)]> (event_docs (store w))).
Proof.
  intros Hedit r p. subst r p.
  split; [|split; [by repeat split|]].
  - unfold handleSaveEvent. rewrite Hedit.
    destruct (currentUser s); [|by left]. unfold_gateway.
    destruct w as [st cs fs nw]; simpl.
    destruct fs as [|[] fs]; simpl; destruct (event_docs st !! ev.1); simpl; auto.
  - assert (Hstore : store (handleSaveEvent s eventData a w).2 = store w ∨
        ∃ e, event_docs (store w) !! ev.1 = Some e ∧
             store (handleSaveEvent s eventData a w).2 =
               with_events (<[ev.1 := merge (patch_of_eventData eventData) e]>)
                           (store w)).
    { unfold handleSaveEvent. rewrite Hedit.
      destruct (currentUser s); [|by left]. unfold_gateway.
      destruct w as [st cs fs nw]; simpl.
      destruct fs as [|[] fs]; simpl;
        destruct (event_docs st !! ev.1) as [e|] eqn:He; simpl; eauto. }
    assert (Hframe : ∀ (A : Type) (f : Event → A) k,
              (∀ e, f (merge (patch_of_eventData eventData) e) = f e) →
              f <$> event_docs (store (handleSaveEvent s eventData a w).2) !! k
              = f <$> event_docs (store w) !! k).
    { intros A f k Hf. destruct Hstore as [->|(e & He & ->)]; [done|]. simpl.
      destruct (decide (ev.1 = k)) as [<-|Hne].
      - rewrite lookup_insert_eq, He. simpl. by rewrite Hf.
      - by rewrite lookup_insert_ne. }
    split; [intros k; by apply (Hframe _ status)|].
    split; [intros k; by apply (Hframe _ attendees)|].
    split; [intros k; by apply (Hframe _ creatorId)|].
    split; [intros k; by apply (Hframe _ creatorEmail)|].
    split; [by destruct Hstore as [->|(e & He & ->)]|].
    split; [by destruct Hstore as [->|(e & He & ->)]|].
    intros user e Hlogin Hfaults He.
    unfold handleSaveEvent. rewrite Hedit, Hlogin. unfold_gateway.
    rewrite Hfaults, He. simpl. split; [done|]. by destruct eventData.
Qed.

Lemma edit_keeps_status_and_attendees_witness :
  let e := party 2 approved ["A"; "B"] in
  let d := mkEventData "Picnic" "Bring salad" "2030-02-02" "12:00" "Potsdam" 5 in
  let r := handleSaveEvent (signed_in carol false) d
             (onEdit (0%N, e) initial_app) (world_of (one_event e)) in
  event_docs (store r.2) !! 0%N =
    Some (mkEvent d "C" "carol@example.org" approved ["A"; "B"]).
Proof.
  intros e d r.
  destruct (edit_keeps_status_and_attendees (signed_in carol false)
              (onEdit (0%N, e) initial_app) (world_of (one_event e))
              (0%N, e) d eq_refl) as (_ & _ & _ & _ & _ & _ & _ & _ & Hok).
  destruct (Hok carol e eq_refl eq_refl eq_refl) as [_ Hdocs].
  subst r. rewrite Hdocs. reflexivity.
Defined.

Lemma filter_swap {A} (f g : A → bool) (l : list A) :
  List.filter f (List.filter g l) = List.filter g (List.filter f l).
Proof.
  induction l as [|x l IH]; [done|]. simpl.
  destruct (g x) eqn:Hg, (f x) eqn:Hf; simpl; rewrite ?Hg, ?Hf, IH; done.
Qed.

Lemma elem_of_filter_bool {A} (f : A → bool) (l : list A) x :
  x ∈ List.filter f l ↔ x ∈ l ∧ f x = true.
Proof. rewrite !list_elem_of_In. apply List.filter_In. Qed.

Lemma filter_all_true {A} (f : A → bool) (l : list A) :
  (∀ x, f x = true) → List.filter f l = l.
Proof.
  intros Hf. induction l as [|x l IH]; [done|]. simpl. by rewrite Hf, IH.
Qed.

Lemma filter_all_false {A} (f : A → bool) (l : list A) :
  (∀ x, f x = false) → List.filter f l = [].
Proof.
  intros Hf. induction l as [|x l IH]; [done|]. simpl. by rewrite Hf, IH.
Qed.

Lemma append_cons c (p q : string) : String c p +:+ q = String c (p +:+ q).
Proof. reflexivity. Qed.

Lemma append_nil (q : string) : "" +:+ q = q.
Proof. reflexivity. Qed.

Lemma prefix_spec (p s : string) :
  String.prefix p s = true ↔ ∃ post, s = p +:+ post.
Proof.
  revert s. induction p as [|c p IH]; intros [|d s]; simpl.
  - split; [by exists ""|done].
  - split; [by exists (String d s)|done].
  - split; [done|]. intros [post Hp]. discriminate.
  - destruct (Ascii.ascii_dec c d) as [->|Hne].
    + rewrite IH. split; intros [post Hp]; exists post;
        rewrite append_cons in *; congruence.
    + split; [done|]. intros [post Hp]. rewrite append_cons in Hp. congruence.
Qed.

(** [str_includes] is the substring test. *)
Lemma str_includes_spec (needle hay : string) :
  str_includes needle hay = true ↔ ∃ pre post, hay = pre +:+ needle +:+ post.
Proof.
  induction hay as [|c hay IH]; cbn [str_includes].
  - rewrite orb_false_r, prefix_spec. split.
    + intros [post Hp]. by exists "", post.
    + intros (pre & post & Hp). destruct pre; [by exists post|discriminate].
  - rewrite orb_true_iff, prefix_spec, IH. split.
    + intros [[post Hp]|(pre & post & Hp)].
      * by exists "", post.
      * exists (String c pre), post. by rewrite append_cons, Hp.
    + intros (pre & post & Hp). destruct pre as [|d pre].
      * left. by exists post.
      * right. exists pre, post. rewrite append_cons in Hp. congruence.
Qed.

Lemma toLowerCase_app (p q : string) :
  toLowerCase (p +:+ q) = toLowerCase p +:+ toLowerCase q.
Proof.
  induction p as [|c p IH]; [done|].
  rewrite append_cons. simpl. rewrite IH. by rewrite append_cons.
Qed.

Lemma append_assoc (p q r : string) : (p +:+ q) +:+ r = p +:+ q +:+ r.
Proof.
  induction p as [|c p IH]; [done|]. rewrite !append_cons. by rewrite IH.
Qed.

Lemma nat_of_ascii_inj c d : nat_of_ascii c = nat_of_ascii d → c = d.
Proof. intros H. by rewrite <- (ascii_nat_embedding c), H, ascii_nat_embedding. Qed.

Lemma nat_of_lower_ascii c :
  nat_of_ascii (lower_ascii c) =
    if (Nat.leb 65 (nat_of_ascii c) && Nat.leb (nat_of_ascii c) 90)%bool
    then (nat_of_ascii c + 32)%nat else nat_of_ascii c.
Proof.
  unfold lower_ascii.
  destruct (Nat.leb 65 (nat_of_ascii c) && Nat.leb (nat_of_ascii c) 90)%bool eqn:Hc;
    [|done].
  apply andb_true_iff in Hc as [_ Hc%Nat.leb_le].
  apply nat_ascii_embedding. lia.
Qed.

(** Two characters have the same [lower_ascii] exactly when they are the
    same letter. *)
Lemma lower_ascii_same_letter c d :
  lower_ascii c = lower_ascii d ↔ same_letter c d = true.
Proof.
  unfold same_letter, capital_of.
  rewrite !orb_true_iff, !andb_true_iff, Ascii.eqb_eq, !Nat.eqb_eq, !Nat.leb_le.
  split.
  - intros H%(f_equal nat_of_ascii). rewrite !nat_of_lower_ascii in H.
    destruct (Nat.leb_spec 65 (nat_of_ascii c)), (Nat.leb_spec (nat_of_ascii c) 90),
      (Nat.leb_spec 65 (nat_of_ascii d)), (Nat.leb_spec (nat_of_ascii d) 90);
      simpl in H;
      first [ left; left; apply nat_of_ascii_inj; lia
            | left; right; lia | right; lia ].
  - intros H. apply nat_of_ascii_inj. rewrite !nat_of_lower_ascii.
    destruct H as [[->|H]|H]; [done| |];
      destruct (Nat.leb_spec 65 (nat_of_ascii c)), (Nat.leb_spec (nat_of_ascii c) 90),
        (Nat.leb_spec 65 (nat_of_ascii d)), (Nat.leb_spec (nat_of_ascii d) 90);
      simpl; lia.
Qed.

Lemma toLowerCase_equal_ignoring_case (s t : string) :
  toLowerCase s = toLowerCase t ↔ equal_ignoring_case s t = true.
Proof.
  revert t. induction s as [|c s IH]; intros [|d t]; simpl; try done.
  rewrite andb_true_iff, <- IH, <- lower_ascii_same_letter.
  split; [by intros [= -> ->]|by intros [-> ->]].
Qed.

Lemma toLowerCase_split (s p q : string) :
  toLowerCase s = p +:+ q →
  ∃ s1 s2, s = s1 +:+ s2 ∧ toLowerCase s1 = p ∧ toLowerCase s2 = q.
Proof.
  revert s. induction p as [|c p IH]; intros s Hs.
  - by exists "", s.
  - destruct s as [|d s]; [discriminate|]. simpl in Hs. rewrite append_cons in Hs.
    injection Hs as Hc Hs. destruct (IH s Hs) as (s1 & s2 & -> & H1 & H2).
    exists (String d s1), s2. rewrite append_cons. simpl. by rewrite Hc, H1.
Qed.

(** Lower-casing both sides and testing for a substring finds the texts
    that contain the needle up to case. *)
Lemma str_includes_ignoring_case (needle hay : string) :
  str_includes (toLowerCase needle) (toLowerCase hay) = true ↔
    ∃ pre m post, hay = pre +:+ m +:+ post ∧ equal_ignoring_case m needle = true.
Proof.
  rewrite str_includes_spec. split.
  - intros (p & q & Hhay).
    apply toLowerCase_split in Hhay as (pre & rest & -> & Hpre & Hrest).
    apply toLowerCase_split in Hrest as (m & post & -> & Hm & Hpost).
    exists pre, m, post. split; [done|]. by apply toLowerCase_equal_ignoring_case.
  - intros (pre & m & post & -> & Hm%toLowerCase_equal_ignoring_case).
    exists (toLowerCase pre), (toLowerCase post). by rewrite !toLowerCase_app, Hm.
Qed.

Example toLowerCase_Berlin : toLowerCase "BerLin Mitte" = "berlin mitte".
Proof. reflexivity. Qed.

Example matchesFilters_location :
  matchesFilters "" "LIN" (0%N, party 5 approved []) = true ∧
  matchesFilters "" "bonn" (0%N, party 5 approved []) = false ∧
  matchesFilters "2030-01-01" "ber" (0%N, party 5 approved []) = true ∧
  matchesFilters "2030-01-02" "ber" (0%N, party 5 approved []) = false.
Proof. repeat split; reflexivity. Qed.

(** The two secondary filters, as a proposition. *)
Lemma matchesFilters_spec fd fl (event : N * Event) :
  matchesFilters fd fl event = true ↔
    (fd = "" ∨ date event.2 = fd) ∧
    (fl = "" ∨ ∃ pre m post,
        location event.2 = pre +:+ m +:+ post ∧ equal_ignoring_case m fl = true).
Proof.
  unfold matchesFilters. rewrite andb_true_iff.
  assert (Hd : (if truthy fd then String.eqb (date event.2) fd else true) = true
               ↔ fd = "" ∨ date event.2 = fd).
  { destruct fd as [|c fd]; cbn [truthy]; [by split; auto|].
    rewrite String.eqb_eq. split; [auto|]. by intros [?|?]. }
  assert (Hl : (if truthy fl
                then str_includes (toLowerCase fl) (toLowerCase (location event.2))
                else true) = true
               ↔ fl = "" ∨ ∃ pre m post,
                   location event.2 = pre +:+ m +:+ post ∧
                   equal_ignoring_case m fl = true).
  { destruct fl as [|c fl]; [by split; auto|].
    cbn [truthy]. rewrite str_includes_ignoring_case. split; [auto|]. by intros [?|?]. }
  by rewrite Hd, Hl.
Qed.



(** The auth listener, for a user: it stores the user and stops at the
    profile reference, which [doc] refuses. *)
Lemma onAuthStateChanged_user user s w :
  onAuthStateChanged (Some user) s w
  = (mkSession (Some user) (isAdmin s) (loading s), w).
Proof. reflexivity. Qed.

Lemma step_keeps_non_admin act c w :
  isAdmin (session c) = false → isAdmin (session (step act c w).1) = false.
Proof. intros Hc. destruct act; simpl; try done. by destruct user. Qed.

Lemma run_keeps_non_admin acts c w :
  isAdmin (session c) = false → isAdmin (session (run acts c w).1) = false.
Proof.
  revert c w. induction acts as [|act acts IH]; intros c w Hc; [done|].
  simpl. apply IH. by apply step_keeps_non_admin.
Qed.

(** C3 fails on the code: the authorization of approve and reject never
    looks at the actor's Profile. The handlers test the [isAdmin] cell of
    the session and read nothing; the one place that would fill that cell
    from the Profile, the auth listener, hands [doc] a path of five
    segments and stops there, before any read. So the cell keeps its
    initial [false] in every session the application reaches, and approve
    and reject are refused for every actor, also for one whose Profile
    says [isAdmin = true]: in the run below A signs in with such a
    Profile in the store, and A's approve and reject of a pending event
    are answered "not authorized" without a single store call. *)
Theorem moderation_ignores_profile :
  let st := mkStore {[ 0%N := party 5 pending [] ]} ∅
                    {[ "A" := mkProfile "anonymous" true ]} 1%N in
  let c := run [AuthStateChanged None; AuthStateChanged (Some alice)]
               initial_client (world_of st) in
  let apr := step (ClickApprove 0%N) c.1 c.2 in
  let rej := step (ClickReject 0%N) c.1 c.2 in
  (profile_docs st !! "A" = Some (mkProfile "anonymous" true) ∧
   currentUser (session c.1) = Some alice ∧ loading (session c.1) = false ∧
   c.2 = world_of st ∧
   message (app apr.1) = msg_Unauthorized_approve ∧ apr.2 = world_of st ∧
   message (app rej.1) = msg_Unauthorized_reject ∧ rej.2 = world_of st ∧
   status <$> event_docs (store apr.2) !! 0%N = Some pending) ∧
  (∀ user s w,
     valid_document_path (profile_path (uid user)) = false ∧
     onAuthStateChanged (Some user) s w
     = (mkSession (Some user) (isAdmin s) (loading s), w)) ∧
  (∀ acts w k,
     let c := run acts initial_client w in
     isAdmin (session c.1) = false ∧
     handleApproveEvent (session c.1) k (app c.1) c.2
     = (showMessage msg_Unauthorized_approve (app c.1), c.2) ∧
     handleRejectEvent (session c.1) k (app c.1) c.2
     = (showMessage msg_Unauthorized_reject (app c.1), c.2)) ∧
  (∀ s a w k,
     (isAdmin s = false →
        handleApproveEvent s k a w = (showMessage msg_Unauthorized_approve a, w) ∧
        handleRejectEvent s k a w = (showMessage msg_Unauthorized_reject a, w)) ∧
     (isAdmin s = true →
        calls (handleApproveEvent s k a w).2
        = calls w ++ [UpdateEvent k (patch_status approved)] ∧
        calls (handleRejectEvent s k a w).2
        = calls w ++ [UpdateEvent k (patch_status rejected)])).
Proof.
  intros st c apr rej. split; [|split; [|split]].
  - vm_compute. repeat split; reflexivity.
  - intros user s w. split; reflexivity.
  - intros acts w k c0.
    assert (Hadm : isAdmin (session c0.1) = false)
      by by apply run_keeps_non_admin.
    unfold handleApproveEvent, handleRejectEvent. by rewrite Hadm.
  - intros s a w k. unfold handleApproveEvent, handleRejectEvent. split.
    + by intros ->.
    + intros ->. simpl. unfold_gateway. destruct w as [st0 cs fs nw]; simpl.
      split; destruct fs as [|[] fs]; simpl; destruct (event_docs st0 !! k); done.
Qed.

(** ** Every step is a sequence of committed writes *)

Section Commits.
Variable edit_ok : Event → EventData → Prop.
Local Abbreviation commits := (rtc (commit edit_ok)).

Lemma onAuthStateChanged_commits user s w :
  commits (store w) (store (onAuthStateChanged user s w).2).
Proof.
  by destruct user.
Qed.

Lemma handleSaveEvent_commits s d a w :
  0 < capacity d →
  (∀ ev e, eventToEdit a = Some ev → event_docs (store w) !! ev.1 = Some e →
           edit_ok e d) →
  commits (store w) (store (handleSaveEvent s d a w).2).
Proof.
  intros Hcap Hedit. unfold handleSaveEvent.
  destruct (currentUser s) as [user|]; [|done].
  unfold_gateway. destruct w as [st cs fs nw]; simpl in *.
  destruct (eventToEdit a) as [ev|]; simpl.
  - destruct fs as [|[] fs]; simpl;
      destruct (event_docs st !! ev.1) as [e|] eqn:He; simpl; try done;
      apply rtc_once, commit_edit; eauto.
  - destruct fs as [|[] fs]; simpl; try done;
      by apply rtc_once, commit_create.
Qed.

Lemma handleRegister_commits s k a w :
  commits (store w) (store (handleRegister s k a w).2).
Proof.
  unfold handleRegister. destruct (currentUser s) as [user|]; [|done].
  unfold_gateway. destruct w as [st cs fs nw]; simpl.
  destruct (event_docs st !! k) as [e|] eqn:He.
  2:{ destruct fs as [|[] fs]; simpl; rewrite ?He; done. }
  destruct (includes (uid user) (attendees e)) eqn:Hin.
  { destruct fs as [|[] fs]; simpl; rewrite ?He; simpl; rewrite ?Hin; done. }
  destruct (Z.of_nat (length (attendees e)) >=? capacity e) eqn:Hfull.
  { destruct fs as [|[] fs]; simpl; rewrite ?He; simpl;
      rewrite ?Hin, ?Hfull; done. }
  apply includes_false in Hin as Hout.
  assert (Hroom : Z.of_nat (length (attendees e)) < capacity e).
  { rewrite Z.geb_leb in Hfull. by apply Z.leb_gt. }
  assert (Hjoin : commit edit_ok st
            (with_events
               (<[k := merge (patch_attendees (attendees e ++ [uid user])) e]>) st))
    by by apply commit_join.
  destruct fs as [|[] [|[] [|[] fs]]]; simpl; rewrite ?He; simpl;
    rewrite ?Hin, ?Hfull; simpl; rewrite ?He; simpl; try done;
    try (by apply rtc_once);
    (eapply rtc_l; [exact Hjoin|]; apply rtc_once;
     eapply commit_record; [apply lookup_insert_eq|];
     simpl; apply elem_of_app; right; by apply list_elem_of_singleton).
Qed.

Lemma confirmCancel_commits s k a w :
  commits (store w) (store (confirmCancel s k a w).2).
Proof.
  unfold confirmCancel. destruct (currentUser s) as [user|]; [|done].
  unfold_gateway. destruct w as [st cs fs nw]; simpl.
  destruct (event_docs st !! k) as [e|] eqn:He.
  2:{ destruct fs as [|[] fs]; simpl; rewrite ?He; done. }
  destruct (Nat.eqb (length (without (uid user) (attendees e)))
                    (length (attendees e))) eqn:Hsame.
  { destruct fs as [|[] fs]; simpl; rewrite ?He; simpl; rewrite ?Hsame; done. }
  assert (Hleave : commit edit_ok st
            (with_events
               (<[k := merge (patch_attendees (without (uid user) (attendees e))) e]>)
               st))
    by by apply commit_leave.
  destruct fs as [|[] [|[] [|[] fs]]]; simpl; rewrite ?He; simpl;
    rewrite ?Hsame; simpl; rewrite ?He; simpl; try done;
    try (by apply rtc_once);
    (eapply rtc_l; [exact Hleave|]; apply rtc_once, commit_unrecord).
Qed.

Lemma confirmDelete_commits k a w :
  commits (store w) (store (confirmDelete k a w).2).
Proof.
  unfold confirmDelete. unfold_gateway. destruct w as [st cs fs nw]; simpl.
  destruct fs as [|[] fs]; simpl; try done; apply rtc_once, commit_delete.
Qed.

Lemma handleApproveEvent_commits s k a w :
  commits (store w) (store (handleApproveEvent s k a w).2).
Proof.
  unfold handleApproveEvent. destruct (isAdmin s); [|done]. simpl.
  unfold_gateway. destruct w as [st cs fs nw]; simpl.
  destruct fs as [|[] fs]; simpl;
    destruct (event_docs st !! k) as [e|] eqn:He; simpl; try done;
    by apply rtc_once, commit_moderate.
Qed.

Lemma handleRejectEvent_commits s k a w :
  commits (store w) (store (handleRejectEvent s k a w).2).
Proof.
  unfold handleRejectEvent. destruct (isAdmin s); [|done]. simpl.
  unfold_gateway. destruct w as [st cs fs nw]; simpl.
  destruct fs as [|[] fs]; simpl;
    destruct (event_docs st !! k) as [e|] eqn:He; simpl; try done;
    by apply rtc_once, commit_moderate.
Qed.

Lemma handleSubmit_valid t d dt tm l cap eventData :
  handleSubmit t d dt tm l cap = inr eventData →
  eventData = mkEventData t d dt tm l cap ∧ 0 < cap.
Proof.
  unfold handleSubmit.
  destruct (cap <=? 0) eqn:Hcap; [rewrite !orb_true_r; discriminate|].
  apply Z.leb_gt in Hcap.
  destruct (_ || _)%bool; [discriminate|]. by intros [= <-].
Qed.

Lemma step_commits act c w :
  edits_ok edit_ok act c w →
  commits (store w) (store (step act c w).2).
Proof.
  intros Hedits. destruct act; simpl; try done.
  - apply onAuthStateChanged_commits.
  - unfold submitEventModal.
    destruct (handleSubmit _ _ _ _ _ _) as [?|eventData] eqn:Hsub; [done|].
    apply handleSubmit_valid in Hsub as [-> Hcap].
    destruct (handleSaveEvent _ _ _ _) as [a' w'] eqn:Hsave. simpl.
    change w' with (a', w').2. rewrite <- Hsave.
    apply handleSaveEvent_commits; [done|].
    intros ev e Hev He. by eapply Hedits.
  - apply handleRegister_commits.
  - unfold onConfirm. destruct (confirmAction (app c)) as [[k|s k]|]; [| |done].
    + apply confirmDelete_commits.
    + apply confirmCancel_commits.
  - apply handleApproveEvent_commits.
  - apply handleRejectEvent_commits.
Qed.
End Commits.

(** ** Invariants of committed writes *)

Lemma commit_nextId edit_ok st st' :
  commit edit_ok st st' → (nextId st ≤ nextId st')%N.
Proof. destruct 1; simpl; lia. Qed.

Lemma commit_decided edit_ok k st st' :
  commit edit_ok st st' → decided_at k st → decided_at k st'.
Proof.
  intros Hc [Hk Hst]. split; [pose proof (commit_nextId _ _ _ Hc); lia|].
  destruct Hc; simpl; intros e'; try by apply Hst.
  - rewrite lookup_insert_ne by lia. apply Hst.
  - destruct (decide (k0 = k)) as [->|Hne];
      [rewrite lookup_insert_eq|rewrite lookup_insert_ne by done; apply Hst].
    intros [= <-]. simpl. by apply Hst.
  - destruct (decide (k0 = k)) as [->|Hne];
      [rewrite lookup_insert_eq|rewrite lookup_insert_ne by done; apply Hst].
    intros [= <-]. simpl. by apply Hst.
  - destruct (decide (k0 = k)) as [->|Hne];
      [rewrite lookup_insert_eq|rewrite lookup_insert_ne by done; apply Hst].
    intros [= <-]. simpl. by apply Hst.
  - destruct (decide (k0 = k)) as [->|Hne];
      [rewrite lookup_insert_eq|rewrite lookup_insert_ne by done; apply Hst].
    by intros [= <-].
  - destruct (decide (k0 = k)) as [->|Hne];
      [by rewrite lookup_delete_eq|rewrite lookup_delete_ne by done; apply Hst].
Qed.

Lemma commits_decided edit_ok k st st' :
  rtc (commit edit_ok) st st' → decided_at k st → decided_at k st'.
Proof. induction 1; eauto using commit_decided. Qed.

Lemma reachable_decided k w w' :
  reachable_from w w' → decided_at k (store w) → decided_at k (store w').
Proof.
  induction 1 as [|act c w' Hreach IH]; [done|]. intros Hd.
  eapply (commits_decided (λ _ _, True)); [|by apply IH].
  apply step_commits. by intros ? ? ? ? ? ? ? ? _ _ _.
Qed.

Lemma commit_capacity_ok st st' :
  commit keeps_room st st' → capacity_ok st → capacity_ok st'.
Proof.
  intros Hc Hcap. destruct Hc; simpl; try done; intros k' e'; simpl.
  - destruct (decide (nextId st = k')) as [<-|Hne];
      [rewrite lookup_insert_eq|rewrite lookup_insert_ne by done; apply Hcap].
    intros [= <-]. simpl. lia.
  - destruct (decide (k = k')) as [<-|Hne];
      [rewrite lookup_insert_eq|rewrite lookup_insert_ne by done; apply Hcap].
    intros [= <-]. simpl. done.
  - destruct (decide (k = k')) as [<-|Hne];
      [rewrite lookup_insert_eq|rewrite lookup_insert_ne by done; apply Hcap].
    intros [= <-]. simpl. rewrite length_app. simpl. lia.
  - destruct (decide (k = k')) as [<-|Hne];
      [rewrite lookup_insert_eq|rewrite lookup_insert_ne by done; apply Hcap].
    intros [= <-]. simpl. pose proof (without_length_le u (attendees e)).
    specialize (Hcap _ _ H). lia.
  - destruct (decide (k = k')) as [<-|Hne];
      [rewrite lookup_insert_eq|rewrite lookup_insert_ne by done; apply Hcap].
    intros [= <-]. simpl. by apply (Hcap k).
  - destruct (decide (k = k')) as [<-|Hne];
      [by rewrite lookup_delete_eq|rewrite lookup_delete_ne by done; apply Hcap].
Qed.

(** The capacity invariant survives every step of a client whose edits
    do not put a capacity below the attendee count; registration in
    particular keeps it. *)
Lemma step_capacity_ok act c w :
  edits_ok keeps_room act c w →
  capacity_ok (store w) → capacity_ok (store (step act c w).2).
Proof.
  intros Hedits Hcap.
  pose proof (step_commits keeps_room act c w Hedits) as Hrtc.
  induction Hrtc; eauto using commit_capacity_ok.
Qed.

Lemma handleRegister_capacity_ok s k a w :
  capacity_ok (store w) → capacity_ok (store (handleRegister s k a w).2).
Proof.
  intros Hcap.
  apply (step_capacity_ok (ClickRegister k) (mkClient s a) w); [|done].
  by intros ? ? ? ? ? ? ? ? [=].
Qed.





Lemma elem_of_without x y (l : list string) :
  x ∈ without y l ↔ x ∈ l ∧ x ≠ y.
Proof.
  unfold without. rewrite !list_elem_of_In, List.filter_In, negb_true_iff.
  by rewrite String.eqb_neq.
Qed.

(** * Further properties of the event application *)

(** X2: deleting an event (the click and the confirmation) asks for no
    signed-in user and no admin: it issues one [deleteDoc] on the event
    document, closes the dialog, and touches neither another event nor any
    registration record or profile, so the registration records of the
    deleted event stay behind. When the store rejects nothing the event is
    gone and the success message is shown, also for a key that held no
    event. *)
Theorem delete_leaves_registrations eventId a w :
  let r := deleteEvent eventId a w in
  calls r.2 = calls w ++ [DeleteEvent eventId] ∧
  registration_docs (store r.2) = registration_docs (store w) ∧
  profile_docs (store r.2) = profile_docs (store w) ∧
  (∀ k, k ≠ eventId → event_docs (store r.2) !! k = event_docs (store w) !! k) ∧
  showConfirmationModal r.1 = false ∧ confirmAction r.1 = None ∧
  (faults w = [] →
     message r.1 = msg_deleted ∧
     event_docs (store r.2) = delete eventId (event_docs (store w)) ∧
     ∀ u rec, registration_docs (store w) !! (u, eventId) = Some rec →
              event_docs (store r.2) !! eventId = None ∧
              registration_docs (store r.2) !! (u, eventId) = Some rec).
Proof.
  intros r. subst r. unfold deleteEvent, onConfirm. simpl.
  unfold confirmDelete. unfold_gateway. destruct w as [st cs fs nw]. simpl.
  destruct fs as [|[] fs]; simpl.
  - repeat split; try done.
    + intros k Hne. by rewrite lookup_delete_ne.
    + apply lookup_delete_eq.
  - repeat split; try done.
  - repeat split; try done. intros k Hne. by rewrite lookup_delete_ne.
Qed.

Lemma delete_leaves_registrations_witness :
  let st := mkStore {[ 0%N := party 2 approved ["A"] ]}
                    {[ ("A", 0%N) := mkRegistration 0%N "2029-05-01T08:00:00.000Z" ]}
                    ∅ 1%N in
  let r := deleteEvent 0%N initial_app (world_of st) in
  event_docs (store r.2) !! 0%N = None ∧
  registration_docs (store r.2) !! ("A", 0%N)
    = Some (mkRegistration 0%N "2029-05-01T08:00:00.000Z").
Proof.
  intros st r.
  destruct (delete_leaves_registrations 0%N initial_app (world_of st))
    as (_ & _ & _ & _ & _ & _ & Hok).
  destruct (Hok eq_refl) as (_ & _ & Horphan).
  exact (Horphan "A" (mkRegistration 0%N "2029-05-01T08:00:00.000Z") eq_refl).
Defined.


Lemma truthy_true (x : string) : x ≠ "" → truthy x = true.
Proof. by destruct x. Qed.

Lemma handleSubmit_complete t d dt tm l cap :
  t ≠ "" → d ≠ "" → dt ≠ "" → tm ≠ "" → l ≠ "" → 0 < cap →
  handleSubmit t d dt tm l cap = inr (mkEventData t d dt tm l cap).
Proof.
  intros Ht Hd Hdt Htm Hl Hcap. unfold handleSubmit.
  rewrite !truthy_true by done. simpl.
  by destruct (Z.leb_spec cap 0); [lia|].
Qed.

(** X4: a handler given the key of an event that does not exist commits
    nothing. Register and cancel find out from their read and report
    "event not found" without attempting a write; approve, reject and the
    submission of an edit attempt their [updateDoc], which the store
    refuses, and report the store's error. The edit form is closed all
    the same, with no event selected any more. *)
Theorem missing_event_changes_nothing s user a w k :
  currentUser s = Some user →
  faults w = [] →
  event_docs (store w) !! k = None →
  let reg := handleRegister s k a w in
  let can := cancelRegistration s k a w in
  message reg.1 = msg_NotFound ∧ store reg.2 = store w ∧ writes reg.2 = writes w ∧
  message can.1 = msg_NotFound ∧ store can.2 = store w ∧ writes can.2 = writes w ∧
  (isAdmin s = true →
     let apr := handleApproveEvent s k a w in
     let rej := handleRejectEvent s k a w in
     message apr.1 = "Error approving event: " +:+ error_message not_found ∧ store apr.2 = store w ∧
     message rej.1 = "Error rejecting event: " +:+ error_message not_found ∧ store rej.2 = store w) ∧
  (∀ ev t d dt tm l cap,
     eventToEdit a = Some ev → ev.1 = k →
     t ≠ "" → d ≠ "" → dt ≠ "" → tm ≠ "" → l ≠ "" → 0 < cap →
     let sav := submitEventModal s t d dt tm l cap a w in
     message sav.1 = "Error saving event: " +:+ error_message not_found ∧
     store sav.2 = store w ∧
     calls sav.2
     = calls w ++ [UpdateEvent k (patch_of_eventData (mkEventData t d dt tm l cap))] ∧
     eventToEdit sav.1 = None ∧ showCreateModal sav.1 = false).
Proof.
  intros Hlogin Hfaults Hmissing reg can. subst reg can.
  destruct w as [st cs fs nw]. simpl in *. subst fs.
  assert (Hw : ∀ c, writes (mkWorld st (cs ++ [GetEvent c]) [] nw)
                    = writes (mkWorld st cs [] nw)).
  { intros c. unfold writes. simpl. rewrite List.filter_app. simpl.
    apply app_nil_r. }
  split; [|split; [|split; [|split; [|split; [|split; [|split]]]]]].
  - unfold handleRegister. rewrite Hlogin. unfold_gateway. simpl.
    by rewrite Hmissing.
  - unfold handleRegister. rewrite Hlogin. unfold_gateway. simpl.
    by rewrite Hmissing.
  - unfold handleRegister. rewrite Hlogin. unfold_gateway. simpl.
    rewrite Hmissing. apply Hw.
  - unfold cancelRegistration, onConfirm. simpl. unfold confirmCancel.
    rewrite Hlogin. unfold_gateway. simpl. by rewrite Hmissing.
  - unfold cancelRegistration, onConfirm. simpl. unfold confirmCancel.
    rewrite Hlogin. unfold_gateway. simpl. by rewrite Hmissing.
  - unfold cancelRegistration, onConfirm. simpl. unfold confirmCancel.
    rewrite Hlogin. unfold_gateway. simpl. rewrite Hmissing. apply Hw.
  - intros Hadmin.
    unfold handleApproveEvent, handleRejectEvent. rewrite Hadmin. simpl.
    unfold_gateway. simpl. by rewrite Hmissing.
  - intros ev t d dt tm l cap Hedit <- Ht Hd Hdt Htm Hl Hcap.
    unfold submitEventModal. rewrite handleSubmit_complete by done.
    unfold handleSaveEvent. rewrite Hlogin, Hedit. unfold_gateway. simpl.
    by rewrite Hmissing.
Qed.

Lemma missing_event_changes_nothing_witness :
  let w := world_of (one_event (party 2 approved [])) in
  let r := handleRegister (signed_in alice false) 7%N initial_app w in
  message r.1 = msg_NotFound ∧ store r.2 = store w ∧ writes r.2 = writes w.
Proof.
  intros w r.
  destruct (missing_event_changes_nothing (signed_in alice false) alice
              initial_app w 7%N eq_refl eq_refl eq_refl)
    as (Hmsg & Hstore & Hwrites & _).
  split; [exact Hmsg|]. split; [exact Hstore|exact Hwrites].
Defined.


(** One step of a client that has no user. *)
Lemma signed_out_step act c w :
  currentUser (session c) = None →
  isAdmin (session c) = false →
  (confirmAction (app c) = None ∨
   ∃ s k, confirmAction (app c) = Some (ConfirmCancel s k) ∧ currentUser s = None) →
  needs_no_user act →
  (step act c w).2 = w ∧
  currentUser (session (step act c w).1) = None ∧
  isAdmin (session (step act c w).1) = false ∧
  (confirmAction (app (step act c w).1) = None ∨
   ∃ s k, confirmAction (app (step act c w).1) = Some (ConfirmCancel s k) ∧
          currentUser s = None).
Proof.
  intros Hout Hadmin Harmed Hact.
  destruct act; simpl in *; try done; try (repeat split; done).
  - (* auth listener *) destruct user; [done|]. by repeat split.
  - (* submit *) unfold submitEventModal.
    destruct (handleSubmit _ _ _ _ _ _); [by repeat split|].
    unfold handleSaveEvent. rewrite Hout. simpl.
    repeat split; try done; try (by left).
  - (* register *) unfold handleRegister. rewrite Hout. by repeat split.
  - (* arming a cancellation *) repeat split; try done.
    right. by exists (session c), eventId0.
  - (* yes *) unfold onConfirm.
    destruct Harmed as [Hidle|(s & k & -> & Hs)].
    { rewrite Hidle. simpl. repeat split; try done. by left. }
    unfold confirmCancel. rewrite Hs. simpl.
    repeat split; try done; try (by left).
  - (* no *) repeat split; try done; try (by left).
  - (* approve *) unfold handleApproveEvent. rewrite Hadmin. by repeat split.
  - (* reject *) unfold handleRejectEvent. rewrite Hadmin. by repeat split.
Qed.



(** X6: a cancellation dialog keeps the user of the render that armed
    it. If that user was an attendee, "Yes" removes the registration even
    when the client has signed out in between: the sign-out does not
    disarm the dialog, and the armed closure does not look at the current
    session. *)
Theorem armed_cancel_outlives_sign_out s user a w k e :
  currentUser s = Some user →
  faults w = [] →
  event_docs (store w) !! k = Some e →
  uid user ∈ attendees e →
  let c0 := mkClient s a in
  let r := run [ClickCancelRegistration k; AuthStateChanged None; ClickYes] c0 w in
  currentUser (session r.1) = None ∧
  message (app r.1) = msg_cancelled ∧
  event_docs (store r.2) =
    <[k := merge (patch_attendees (without (uid user) (attendees e))) e]>
      (event_docs (store w)) ∧
  registration_docs (store r.2) = delete (uid user, k) (registration_docs (store w)).
Proof.
  intros Hlogin Hfaults Hevent Hin c0 r. subst r c0. simpl.
  pose proof (cancelRegistration_cancelled s user a w k e Hlogin Hfaults Hevent Hin)
    as Hcancel.
  unfold cancelRegistration in Hcancel. rewrite Hcancel. done.
Qed.

Lemma armed_cancel_outlives_sign_out_witness :
  let w := world_of (one_event (party 2 approved ["A"; "B"])) in
  let r := run [ClickCancelRegistration 0%N; AuthStateChanged None; ClickYes]
               (mkClient (signed_in alice false) initial_app) w in
  currentUser (session r.1) = None ∧
  attendees <$> event_docs (store r.2) !! 0%N = Some ["B"].
Proof.
  intros w r.
  assert (Hin : uid alice ∈ attendees (party 2 approved ["A"; "B"])).
  { apply includes_true. vm_compute. reflexivity. }
  destruct (armed_cancel_outlives_sign_out (signed_in alice false) alice
              initial_app w 0%N (party 2 approved ["A"; "B"])
              eq_refl eq_refl eq_refl Hin) as (Hout & _ & Hdocs & _).
  split; [exact Hout|]. subst r. rewrite Hdocs. reflexivity.
Defined.

(** X7: when the store accepts the attendee update of a register but
    rejects the write of the registration record, nothing is rolled back:
    the identity is on the event, no record exists for it, and the error
    is reported. A retry then finds the identity among the attendees and
    reports "already registered" without writing, so the record stays
    missing. *)
Theorem register_without_record s user a w k e :
  currentUser s = Some user →
  faults w = [false; false; true] →
  event_docs (store w) !! k = Some e →
  uid user ∉ attendees e →
  Z.of_nat (length (attendees e)) < capacity e →
  let r1 := handleRegister s k a w in
  let r2 := handleRegister s k r1.1 r1.2 in
  message r1.1 = "Error registering: " +:+ error_message unavailable ∧
  event_docs (store r1.2) =
    <[k := merge (patch_attendees (attendees e ++ [uid user])) e]>
      (event_docs (store w)) ∧
  registration_docs (store r1.2) = registration_docs (store w) ∧
  message r2.1 = msg_AlreadyRegistered ∧
  store r2.2 = store r1.2 ∧
  writes r2.2 = writes r1.2.
Proof.
  intros Hlogin Hfaults Hevent Hout Hroom r1 r2.
  assert (Hr1 : r1 =
    (showMessage ("Error registering: " +:+ error_message unavailable) a,
     mkWorld (with_events
                (<[k := merge (patch_attendees (attendees e ++ [uid user])) e]>)
                (store w))
             (calls w ++ [GetEvent k;
                          UpdateEvent k (patch_attendees (attendees e ++ [uid user]));
                          SetRegistration (uid user) k (mkRegistration k (now w))])
             [] (now w))).
  { subst r1. unfold handleRegister. rewrite Hlogin. unfold_gateway.
    rewrite Hfaults, Hevent. simpl.
    rewrite (proj2 (includes_false _ _) Hout), (geb_lt _ _ Hroom). simpl.
    rewrite Hevent. simpl. by rewrite <- !app_assoc. }
  subst r2. rewrite Hr1. simpl.
  set (w1 := mkWorld _ _ _ _).
  rewrite (handleRegister_AlreadyRegistered s user _ w1 k
             (merge (patch_attendees (attendees e ++ [uid user])) e) Hlogin eq_refl).
  - simpl. repeat split; try done. apply (writes_read_only w1).
  - subst w1. simpl. apply lookup_insert_eq.
  - simpl. apply elem_of_app. right. by apply list_elem_of_singleton.
Qed.

Lemma register_without_record_witness :
  let w := mkWorld (one_event (party 2 approved ["B"])) [] [false; false; true]
                   "2029-06-01T12:00:00.000Z" in
  let r1 := handleRegister (signed_in alice false) 0%N initial_app w in
  attendees <$> event_docs (store r1.2) !! 0%N = Some ["B"; "A"] ∧
  registration_docs (store r1.2) !! ("A", 0%N) = None ∧
  message (handleRegister (signed_in alice false) 0%N r1.1 r1.2).1
    = msg_AlreadyRegistered.
Proof.
  intros w r1.
  assert (Hout : uid alice ∉ attendees (party 2 approved ["B"])).
  { apply includes_false. vm_compute. reflexivity. }
  assert (Hroom : Z.of_nat (length (attendees (party 2 approved ["B"])))
                  < capacity (party 2 approved ["B"])).
  { simpl. lia. }
  destruct (register_without_record (signed_in alice false) alice initial_app
              w 0%N (party 2 approved ["B"]) eq_refl eq_refl eq_refl Hout Hroom)
    as (_ & Hdocs & Hrecs & Hretry & _).
  fold r1 in Hdocs, Hrecs, Hretry.
  split; [by rewrite Hdocs|]. split; [by rewrite Hrecs|exact Hretry].
Defined.

(** X8: when the store accepts the attendee update of a cancel but
    rejects the delete of the registration record, the identity is off
    the event while its record stays, and the error is reported. A retry
    reports "not registered" without writing, so the record is not
    cleaned up. *)
Theorem cancel_leaving_record s user a w k e :
  currentUser s = Some user →
  faults w = [false; false; true] →
  event_docs (store w) !! k = Some e →
  uid user ∈ attendees e →
  let r1 := cancelRegistration s k a w in
  let r2 := cancelRegistration s k r1.1 r1.2 in
  message r1.1 = "Error cancelling registration: " +:+ error_message unavailable ∧
  event_docs (store r1.2) =
    <[k := merge (patch_attendees (without (uid user) (attendees e))) e]>
      (event_docs (store w)) ∧
  registration_docs (store r1.2) = registration_docs (store w) ∧
  showConfirmationModal r1.1 = false ∧
  message r2.1 = msg_NotRegistered ∧
  store r2.2 = store r1.2 ∧
  writes r2.2 = writes r1.2.
Proof.
  intros Hlogin Hfaults Hevent Hin r1 r2.
  assert (Hr1 : r1 =
    (closeConfirmation
       (showMessage ("Error cancelling registration: " +:+ error_message unavailable)
                    (handleCancelRegistration s k a)),
     mkWorld (with_events
                (<[k := merge (patch_attendees (without (uid user) (attendees e))) e]>)
                (store w))
             (calls w ++ [GetEvent k;
                          UpdateEvent k (patch_attendees (without (uid user) (attendees e)));
                          DeleteRegistration (uid user) k])
             [] (now w))).
  { subst r1. unfold cancelRegistration, onConfirm. simpl.
    unfold confirmCancel. rewrite Hlogin. unfold_gateway.
    rewrite Hfaults, Hevent. simpl.
    pose proof (without_length_in _ _ Hin) as Hlt.
    destruct (Nat.eqb_spec (length (without (uid user) (attendees e)))
                           (length (attendees e))); [lia|].
    simpl. rewrite Hevent. simpl. by rewrite <- !app_assoc. }
  subst r2. rewrite Hr1. simpl.
  set (w1 := mkWorld _ _ _ _).
  rewrite (cancelRegistration_NotRegistered s user _ w1 k
             (merge (patch_attendees (without (uid user) (attendees e))) e)
             Hlogin eq_refl).
  - simpl. repeat split; try done. apply (writes_read_only w1).
  - subst w1. simpl. apply lookup_insert_eq.
  - simpl. intros [_ Hne]%elem_of_without. done.
Qed.

Lemma cancel_leaving_record_witness :
  let st := mkStore {[ 0%N := party 2 approved ["A"; "B"] ]}
                    {[ ("A", 0%N) := mkRegistration 0%N "2029-05-01T08:00:00.000Z" ]}
                    ∅ 1%N in
  let w := mkWorld st [] [false; false; true] "2029-06-01T12:00:00.000Z" in
  let r1 := cancelRegistration (signed_in alice false) 0%N initial_app w in
  attendees <$> event_docs (store r1.2) !! 0%N = Some ["B"] ∧
  is_Some (registration_docs (store r1.2) !! ("A", 0%N)) ∧
  message (cancelRegistration (signed_in alice false) 0%N r1.1 r1.2).1
    = msg_NotRegistered.
Proof.
  intros st w r1.
  assert (Hin : uid alice ∈ attendees (party 2 approved ["A"; "B"])).
  { apply includes_true. vm_compute. reflexivity. }
  destruct (cancel_leaving_record (signed_in alice false) alice initial_app
              w 0%N (party 2 approved ["A"; "B"]) eq_refl eq_refl eq_refl Hin)
    as (_ & Hdocs & Hrecs & _ & Hretry & _).
  fold r1 in Hdocs, Hrecs, Hretry.
  split; [by rewrite Hdocs|]. split; [rewrite Hrecs; by eexists|exact Hretry].
Defined.

(** ** Invariants along every run *)

Lemma reachable_commits w0 w :
  reachable_from w0 w → rtc (commit (λ _ _, True)) (store w0) (store w).
Proof.
  induction 1 as [|act c w Hreach IH]; [done|].
  etrans; [exact IH|]. apply step_commits. by intros ? ? ? ? ? ? ? ? _ _ _.
Qed.

Lemma reachable_invariant (P : Store → Prop) w0 w :
  (∀ st st', commit (λ _ _, True) st st' → P st → P st') →
  reachable_from w0 w → P (store w0) → P (store w).
Proof.
  intros Hstep Hreach%reachable_commits. induction Hreach; eauto.
Qed.

Lemma run_reachable w0 acts c w :
  reachable_from w0 w → reachable_from w0 (run acts c w).2.
Proof.
  revert c w. induction acts as [|act acts IH]; intros c w Hreach; [done|].
  simpl. apply IH. by apply reach_step.
Qed.

Lemma without_NoDup x (l : list string) : NoDup l → NoDup (without x l).
Proof.
  intros Hl. apply NoDup_ListNoDup, List.NoDup_filter. by apply NoDup_ListNoDup.
Qed.

Lemma lookup_insert_cases {A} (m : gmap N A) k k' x y :
  <[k := x]> m !! k' = Some y → (k = k' ∧ x = y) ∨ (k ≠ k' ∧ m !! k' = Some y).
Proof.
  destruct (decide (k = k')) as [->|Hne].
  - rewrite lookup_insert_eq. intros [= ->]. by left.
  - rewrite lookup_insert_ne by done. by right.
Qed.

(** X9: no identity is ever listed twice on an event. Whatever any
    number of clients do and whatever the store rejects, the attendee
    lists stay free of duplicates: register appends only an identity it
    did not find in the list, cancel filters, and no other handler writes
    the list. *)
Theorem attendees_stay_unique w0 w :
  reachable_from w0 w →
  attendees_nodup (store w0) →
  attendees_nodup (store w).
Proof.
  intros Hreach. apply (reachable_invariant attendees_nodup w0 w); [|done].
  clear. intros st st' Hc Hinv. unfold attendees_nodup in *.
  destruct Hc; simpl; try done; intros k' e'.
  - intros [[_ <-]|[_ He]]%lookup_insert_cases; [apply NoDup_nil_2|by eapply Hinv].
  - intros [[_ <-]|[_ He]]%lookup_insert_cases; [simpl|by eapply Hinv].
    by eapply Hinv.
  - intros [[_ <-]|[_ He]]%lookup_insert_cases; [simpl|by eapply Hinv].
    apply NoDup_app. split; [by eapply Hinv|]. split; [|apply NoDup_singleton].
    intros x Hx ->%list_elem_of_singleton. done.
  - intros [[_ <-]|[_ He]]%lookup_insert_cases; [simpl|by eapply Hinv].
    apply without_NoDup. by eapply Hinv.
  - intros [[_ <-]|[_ He]]%lookup_insert_cases; [simpl|by eapply Hinv].
    by eapply Hinv.
  - destruct (decide (k = k')) as [->|Hne]; [by rewrite lookup_delete_eq|].
    rewrite lookup_delete_ne by done. by eapply Hinv.
Qed.

Lemma attendees_stay_unique_witness :
  let w0 := world_of (one_event (party 3 approved ["B"])) in
  let w := (run [ClickRegister 0%N; ClickRegister 0%N]
                (mkClient (signed_in alice false) initial_app) w0).2 in
  attendees_nodup (store w).
Proof.
  intros w0 w.
  apply (attendees_stay_unique w0 w).
  - subst w. apply run_reachable, reach_start.
  - intros k e. subst w0. simpl.
    intros [<- <-]%lookup_singleton_Some. simpl. apply NoDup_singleton.
Defined.

(** X10: every event keeps a positive capacity. The form refuses a
    capacity of zero or less before anything is sent, for a new event and
    for an edit alike, and no other handler writes the capacity; so along
    every run, whatever the store rejects, all capacities stay positive. *)
Theorem capacity_stays_positive w0 w :
  reachable_from w0 w →
  capacity_positive (store w0) →
  capacity_positive (store w).
Proof.
  intros Hreach. apply (reachable_invariant capacity_positive w0 w); [|done].
  clear. intros st st' Hc Hinv. unfold capacity_positive in *.
  destruct Hc; simpl; try done; intros k' e'.
  - by intros [[_ <-]|[_ He]]%lookup_insert_cases; [|by eapply Hinv].
  - by intros [[_ <-]|[_ He]]%lookup_insert_cases; [|by eapply Hinv].
  - intros [[_ <-]|[_ He]]%lookup_insert_cases; [simpl|by eapply Hinv].
    by eapply (Hinv k).
  - intros [[_ <-]|[_ He]]%lookup_insert_cases; [simpl|by eapply Hinv].
    by eapply (Hinv k).
  - intros [[_ <-]|[_ He]]%lookup_insert_cases; [simpl|by eapply Hinv].
    by eapply (Hinv k).
  - destruct (decide (k = k')) as [->|Hne]; [by rewrite lookup_delete_eq|].
    rewrite lookup_delete_ne by done. by eapply Hinv.
Qed.

Lemma capacity_stays_positive_witness :
  let w0 := world_of empty_store in
  let w := (run [AuthStateChanged (Some carol); ClickCreate;
                 SubmitModal "Party" "Bring cake" "2030-01-01" "18:00" "Berlin" 0;
                 SubmitModal "Party" "Bring cake" "2030-01-01" "18:00" "Berlin" 4]
                initial_client w0).2 in
  capacity_positive (store w).
Proof.
  intros w0 w.
  apply (capacity_stays_positive w0 w).
  - subst w. apply run_reachable, reach_start.
  - intros k e. subst w0. simpl. by rewrite lookup_empty.
Defined.

(** X11: the identity of an event is stable. For a key the store has
    handed out, whatever any number of clients do and whatever the store
    rejects: an event found under the key later has the creatorId and
    creatorEmail it had (no handler writes them), and a key whose event
    was deleted never holds an event again (events are only ever created
    under fresh keys). *)
Theorem event_identity_is_stable w0 w k :
  reachable_from w0 w →
  (k < nextId (store w0))%N →
  (∀ e e', event_docs (store w0) !! k = Some e →
           event_docs (store w) !! k = Some e' →
           creatorId e' = creatorId e ∧ creatorEmail e' = creatorEmail e) ∧
  (event_docs (store w0) !! k = None → event_docs (store w) !! k = None).
Proof.
  intros Hreach Hkey.
  set (P := λ st : Store,
         (k < nextId st)%N ∧
         ∀ e', event_docs st !! k = Some e' →
               ∃ e, event_docs (store w0) !! k = Some e ∧
                    creatorId e' = creatorId e ∧ creatorEmail e' = creatorEmail e).
  assert (HP : P (store w)).
  { apply (reachable_invariant P w0 w); [|done|by split; eauto].
    clear Hreach. intros st st' Hc [Hk Hinv]. subst P. simpl.
    split; [pose proof (commit_nextId _ _ _ Hc); lia|].
    destruct Hc; simpl; try done; intros e'.
    - rewrite lookup_insert_ne by lia. apply Hinv.
    - intros [[<- <-]|[_ He]]%lookup_insert_cases; [simpl|by apply Hinv].
      by apply Hinv.
    - intros [[<- <-]|[_ He]]%lookup_insert_cases; [simpl|by apply Hinv].
      by apply Hinv.
    - intros [[<- <-]|[_ He]]%lookup_insert_cases; [simpl|by apply Hinv].
      by apply Hinv.
    - intros [[<- <-]|[_ He]]%lookup_insert_cases; [simpl|by apply Hinv].
      by apply Hinv.
    - destruct (decide (k0 = k)) as [->|Hne]; [by rewrite lookup_delete_eq|].
      rewrite lookup_delete_ne by done. apply Hinv. }
  destruct HP as [_ HP]. split.
  - intros e e' He He'. destruct (HP e' He') as (e0 & He0 & Hid).
    rewrite He in He0. by injection He0 as <-.
  - intros Hnone. destruct (event_docs (store w) !! k) as [e'|] eqn:He'; [|done].
    destruct (HP e' eq_refl) as (e0 & He0 & _). congruence.
Qed.

Lemma event_identity_is_stable_witness :
  let w0 := world_of (mkStore {[ 0%N := party 3 approved [] ]} ∅ ∅ 2%N) in
  let w := (run [ClickCreate;
                 SubmitModal "Picnic" "Bring salad" "2030-02-02" "12:00" "Potsdam" 5;
                 ClickCreate;
                 SubmitModal "Picnic" "Bring salad" "2030-02-02" "12:00" "Potsdam" 5]
                (mkClient (signed_in alice false) initial_app) w0).2 in
  event_docs (store w) !! 1%N = None.
Proof.
  intros w0 w.
  destruct (event_identity_is_stable w0 w 1%N) as [_ Hgone].
  - subst w. apply run_reachable, reach_start.
  - reflexivity.
  - apply Hgone. reflexivity.
Defined.

(** X12: the application never makes anybody an admin. Whatever any
    number of clients do and whatever the store rejects, a profile that
    exists is never rewritten, and a profile created along the way (at a
    first sign-in) has [isAdmin = false]; so every admin profile of a
    reachable world was an admin profile to begin with. *)
Theorem admin_is_never_granted w0 w u p :
  reachable_from w0 w →
  (profile_docs (store w0) !! u = Some p → profile_docs (store w) !! u = Some p) ∧
  (profile_docs (store w) !! u = Some p → profile_isAdmin p = true →
   profile_docs (store w0) !! u = Some p).
Proof.
  intros Hreach.
  set (P := λ st : Store,
         (∀ q, profile_docs (store w0) !! u = Some q → profile_docs st !! u = Some q) ∧
         (∀ q, profile_docs st !! u = Some q → profile_isAdmin q = true →
               profile_docs (store w0) !! u = Some q)).
  assert (HP : P (store w)).
  { apply (reachable_invariant P w0 w); [|done|by split].
    clear Hreach. intros st st' Hc [Hkeep Hadm]. subst P. simpl.
    destruct Hc; simpl; try done. split.
    - intros q Hq. destruct (decide (u0 = u)) as [->|Hne].
      + apply Hkeep in Hq. congruence.
      + rewrite lookup_insert_ne by done. by apply Hkeep.
    - intros q. destruct (decide (u0 = u)) as [->|Hne].
      + rewrite lookup_insert_eq. intros [= <-]. congruence.
      + rewrite lookup_insert_ne by done. apply Hadm. }
  destruct HP as [Hkeep Hadm]. split; [apply Hkeep|apply Hadm].
Qed.

Lemma admin_is_never_granted_witness :
  let w0 := world_of (mkStore ∅ ∅ {[ "R" := mkProfile "root@example.org" true ]} 0%N) in
  let w := (run [AuthStateChanged (Some alice); AuthStateChanged (Some bob)]
                initial_client w0).2 in
  profile_docs (store w) !! "R" = Some (mkProfile "root@example.org" true).
Proof.
  intros w0 w.
  destruct (admin_is_never_granted w0 w "R" (mkProfile "root@example.org" true))
    as [Hkeep _].
  - subst w. apply run_reachable, reach_start.
  - apply Hkeep. reflexivity.
Defined.

(** ** Handlers that overlap *)

(** What [getDoc], a write and the clock do to a handler under way. *)
Lemma advance_read h w k cont :
  rest h = Read k cont →
  store (advance h w).2 = store w ∧
  (rest (advance h w).1 = cont (event_docs (store w) !! k) ∨
   ∃ msg, rest (advance h w).1 = Finish msg).
Proof.
  intros Hh. unfold advance. rewrite Hh. unfold_gateway.
  destruct w as [st cs fs nw]; simpl.
  destruct fs as [|[] fs]; simpl; split; try done; try (by left); right; by eexists.
Qed.

Lemma advance_write h w c cont :
  rest h = Write c cont →
  (store (advance h w).2 = store w ∧ ∃ msg, rest (advance h w).1 = Finish msg) ∨
  (commit_call c (store w) = Ok (store (advance h w).2) ∧
   rest (advance h w).1 = cont).
Proof.
  intros Hh. unfold advance. rewrite Hh. unfold perform, request.
  destruct w as [st cs fs nw]; simpl.
  destruct fs as [|[] fs]; simpl;
    destruct (commit_call c st) as [st'|err]; simpl;
    first [ by right | left; split; [done|by eexists] ].
Qed.

Section Invariant.
Variables (session_ok : Session → Prop) (call_ok : Call → Store → Prop).
Variables (inv : Store → Prop) (fits : Store → Prog → Prop).
Hypothesis fits_finish : ∀ st msg, fits st (Finish msg).
Hypothesis fits_start : ∀ s h st, session_ok s → starts s h → fits st (rest h).
Hypothesis fits_read :
  ∀ st k cont, inv st → fits st (Read k cont) → fits st (cont (event_docs st !! k)).
Hypothesis fits_now : ∀ st cont t, fits st (Now cont) → fits st (cont t).
Hypothesis fits_write :
  ∀ st c cont st',
    inv st → fits st (Write c cont) → call_ok c st → commit_call c st = Ok st' →
    inv st' ∧ fits st' cont ∧ ∀ p, fits st p → fits st' p.

Lemma advance_invariant h w :
  inv (store w) → fits (store w) (rest h) →
  (∀ c cont, rest h = Write c cont → call_ok c (store w)) →
  inv (store (advance h w).2) ∧
  fits (store (advance h w).2) (rest (advance h w).1) ∧
  ∀ p, fits (store w) p → fits (store (advance h w).2) p.
Proof using fits_finish fits_read fits_now fits_write.
  intros Hinv Hfits Hcall. destruct (rest h) as [msg|k cont|c cont|cont] eqn:Hh.
  - unfold advance. rewrite Hh. simpl. rewrite Hh. eauto.
  - destruct (advance_read h w k cont Hh) as [-> [->|[msg ->]]]; eauto.
  - destruct (advance_write h w c cont Hh) as [[-> [msg ->]]|[Hc ->]]; [by eauto|].
    apply (fits_write (store w) c cont); [done|done|by apply (Hcall c cont)|done].
  - unfold advance. rewrite Hh. simpl. eauto.
Qed.

Lemma interleaved_invariant cfg0 cfg :
  interleaved session_ok call_ok cfg0 cfg →
  inv (store cfg0.1) →
  Forall (λ h, fits (store cfg0.1) (rest h)) cfg0.2 →
  inv (store cfg.1) ∧ Forall (λ h, fits (store cfg.1) (rest h)) cfg.2.
Proof using fits_finish fits_start fits_read fits_now fits_write.
  intros Hil Hinv0 Hfits0.
  induction Hil as [|w pool s h Hil [Hinv Hfits] Hs Hh|cfg i h Hil [Hinv Hfits] Hi Hcall].
  - done.
  - split; [done|]. simpl in *. apply Forall_app. split; [done|].
    apply Forall_singleton. by eapply fits_start.
  - unfold advance_at. rewrite Hi. simpl.
    assert (Hh : fits (store cfg.1) (rest h)).
    { rewrite Forall_forall in Hfits. apply Hfits. by eapply list_elem_of_lookup_2. }
    destruct (advance_invariant h cfg.1 Hinv Hh Hcall) as (Hinv' & Hh' & Hstable).
    split; [done|]. apply Forall_insert; [|done].
    eapply Forall_impl; [exact Hfits|]. intros h0. apply Hstable.
Qed.
End Invariant.

Lemma later_store_refl st : later_store st st.
Proof. split; [lia|]. intros k e' _ He. exists e'. split; [done|lia]. Qed.

Lemma later_store_trans st1 st2 st3 :
  later_store st1 st2 → later_store st2 st3 → later_store st1 st3.
Proof.
  intros [Hn12 H12] [Hn23 H23]. split; [lia|]. intros k e3 Hk He3.
  destruct (H23 k e3) as (e2 & He2 & Hc23); [lia|done|].
  destruct (H12 k e2) as (e1 & He1 & Hc12); [done|done|].
  exists e1. split; [done|lia].
Qed.

Lemma within_capacity_later st st' p :
  within_capacity st p → later_store st st' → within_capacity st' p.
Proof.
  revert st st'. induction p as [msg|k cont IH|c p IH|cont IH]; intros st st'; simpl.
  - done.
  - done.
  - intros [Hc Hp] Hlater. split.
    + destruct c; simpl in *; try done. intros l Hl.
      destruct (Hc l Hl) as [Hk Hfit]. destruct Hlater as [Hn Hdocs].
      split; [lia|]. intros e' He'.
      destruct (Hdocs k e' Hk He') as (e & He & Hcap). specialize (Hfit e He). lia.
    + intros st'' Hlater'. apply Hp. by eapply later_store_trans.
  - intros Hp Hlater t. by eapply IH.
Qed.

Lemma starts_within_capacity s h st :
  starts s h → within_capacity st (rest h).
Proof.
  destruct 1 as [user k Hlogin|user k|user ev t d dt tm l cap eventData Hlogin Hsub
                |k|k Hadm|k Hadm]; simpl.
  - intros st' Hkeys Hcap. destruct (event_docs st' !! k) as [e|] eqn:He; [|done].
    destruct (includes (uid user) (attendees e)); [done|].
    destruct (Z.geb_spec (Z.of_nat (length (attendees e))) (capacity e)); [done|].
    simpl. split; [|done]. intros l0 [= <-]. split; [by eapply Hkeys|].
    intros e0. rewrite He. intros [= <-]. rewrite length_app. simpl. lia.
  - intros st' Hkeys Hcap. destruct (event_docs st' !! k) as [e|] eqn:He; [|done].
    destruct (Nat.eqb _ _); [done|].
    simpl. split; [|done]. intros l0 [= <-]. split; [by eapply Hkeys|].
    intros e0. rewrite He. intros [= <-].
    pose proof (without_length_le (uid user) (attendees e)).
    specialize (Hcap _ _ He). lia.
  - apply handleSubmit_valid in Hsub as [-> Hpos].
    destruct ev as [ev|]; simpl; split; try done. lia.
  - split; done.
  - split; done.
  - split; done.
Qed.

Lemma commit_call_capacity st c cont st' :
  event_keys_ok st ∧ capacity_ok st →
  within_capacity st (Write c cont) →
  keeps_capacity c st →
  commit_call c st = Ok st' →
  (event_keys_ok st' ∧ capacity_ok st') ∧ within_capacity st' cont ∧
  ∀ p, within_capacity st p → within_capacity st' p.
Proof.
  intros [Hkeys Hcap] [Hc Hcont] Hkeep Hcommit.
  assert (Hlater : later_store st st' ∧ event_keys_ok st' ∧ capacity_ok st').
  { destruct c as [k|e|k p|k|u|u p|u k r|u k]; simpl in *;
      try (injection Hcommit as <-; split; [apply later_store_refl|done]).
    - (* addDoc *) injection Hcommit as <-. split; [|split].
      + split; simpl; [lia|]. intros k e' Hk. rewrite lookup_insert_ne by lia.
        intros He'. exists e'. split; [done|lia].
      + intros k e'. simpl. intros [[<- <-]|[_ He']]%lookup_insert_cases; [lia|].
        apply Hkeys in He'. lia.
      + intros k e'. simpl. intros [[<- <-]|[_ He']]%lookup_insert_cases; [done|].
        by eapply Hcap.
    - (* updateDoc *) destruct (event_docs st !! k) as [e|] eqn:He; [|done].
      injection Hcommit as <-.
      assert (Hgrow : capacity e ≤ capacity (merge p e)).
      { simpl. destruct (upd_capacity p) as [cap|] eqn:Hp; simpl; [|lia].
        by eapply Hkeep. }
      split; [|split].
      + split; simpl; [lia|]. intros k' e' Hk'.
        intros [[<- <-]|[_ He']]%lookup_insert_cases; [by exists e|].
        exists e'. split; [done|lia].
      + intros k' e'. simpl.
        intros [[<- <-]|[_ He']]%lookup_insert_cases; by eapply Hkeys.
      + intros k' e'. simpl.
        intros [[<- <-]|[_ He']]%lookup_insert_cases; [|by eapply Hcap].
        destruct (upd_attendees p) as [l|] eqn:Hl.
        * destruct (Hc l eq_refl) as [_ Hfit]. specialize (Hfit e eq_refl).
          assert (attendees (merge p e) = l) as -> by (simpl; by rewrite Hl).
          lia.
        * assert (attendees (merge p e) = attendees e) as ->
            by (simpl; by rewrite Hl).
          specialize (Hcap _ _ He). lia.
    - (* deleteDoc *) injection Hcommit as <-. split; [|split].
      + split; simpl; [lia|]. intros k' e' Hk'.
        destruct (decide (k = k')) as [->|Hne]; [by rewrite lookup_delete_eq|].
        rewrite lookup_delete_ne by done. intros He'. exists e'. split; [done|lia].
      + intros k' e'. simpl.
        destruct (decide (k = k')) as [->|Hne]; [by rewrite lookup_delete_eq|].
        rewrite lookup_delete_ne by done. apply Hkeys.
      + intros k' e'. simpl.
        destruct (decide (k = k')) as [->|Hne]; [by rewrite lookup_delete_eq|].
        rewrite lookup_delete_ne by done. apply Hcap.
    - injection Hcommit as <-. split; [|done].
      split; simpl; [lia|]. intros k' e' _ He'. exists e'. split; [done|lia].
    - injection Hcommit as <-. split; [|done].
      split; simpl; [lia|]. intros k' e' _ He'. exists e'. split; [done|lia].
    - injection Hcommit as <-. split; [|done].
      split; simpl; [lia|]. intros k' e' _ He'. exists e'. split; [done|lia]. }
  destruct Hlater as (Hlater & Hkeys' & Hcap').
  split; [done|]. split; [by apply Hcont|].
  intros p Hp. by eapply within_capacity_later.
Qed.



Lemma starts_writes_no_status s h :
  isAdmin s = false → starts s h → writes_no_status (rest h).
Proof.
  intros Hs.
  destruct 1 as [user k Hlogin|user k|user ev t d dt tm l cap eventData Hlogin Hsub
                |k|k Hadm|k Hadm]; simpl; try congruence.
  - intros [e|]; [|done].
    destruct (includes _ _); [done|]. by destruct (_ >=? _).
  - intros [e|]; [|done]. by destruct (Nat.eqb _ _).
  - by destruct ev.
  - done.
Qed.

Lemma commit_call_status st0 st c cont st' :
  status_kept st0 st ∧ event_keys_ok st →
  writes_no_status (Write c cont) →
  commit_call c st = Ok st' →
  (status_kept st0 st' ∧ event_keys_ok st') ∧ writes_no_status cont ∧
  ∀ p, writes_no_status p → writes_no_status p.
Proof.
  intros [[Hn Hkept] Hkeys] [Hc Hcont] Hcommit.
  split; [|by split].
  destruct c as [k|e|k p|k|u|u p|u k r|u k]; simpl in *;
    try (by injection Hcommit as <-).
  - (* addDoc *) injection Hcommit as <-. split; [split|]; simpl.
    + lia.
    + intros k e'. intros [[<- <-]|[_ He']]%lookup_insert_cases; [|by apply Hkept].
      by rewrite decide_False by lia.
    + intros k e'. intros [[<- <-]|[_ He']]%lookup_insert_cases; simpl; [lia|].
      apply Hkeys in He'. lia.
  - (* updateDoc *) destruct (event_docs st !! k) as [e|] eqn:He; [|done].
    injection Hcommit as <-. split; [split|]; simpl.
    + lia.
    + intros k' e'. intros [[<- <-]|[_ He']]%lookup_insert_cases; [|by apply Hkept].
      assert (status (merge p e) = status e) as -> by (simpl; by rewrite Hc).
      by apply Hkept.
    + intros k' e'. intros [[<- <-]|[_ He']]%lookup_insert_cases; by eapply Hkeys.
  - (* deleteDoc *) injection Hcommit as <-. split; [split|]; simpl.
    + lia.
    + intros k' e'.
      destruct (decide (k = k')) as [->|Hne]; [by rewrite lookup_delete_eq|].
      rewrite lookup_delete_ne by done. apply Hkept.
    + intros k' e'. simpl.
      destruct (decide (k = k')) as [->|Hne]; [by rewrite lookup_delete_eq|].
      rewrite lookup_delete_ne by done. apply Hkeys.
Qed.

Lemma status_kept_refl st : event_keys_ok st → status_kept st st.
Proof.
  intros Hkeys. split; [lia|]. intros k e' He'.
  rewrite decide_True by by eapply Hkeys. by exists e'.
Qed.

Lemma interleaved_schedule session_ok cfg0 order cfg :
  interleaved session_ok (λ _ _, True) cfg0 cfg →
  interleaved session_ok (λ _ _, True) cfg0 (schedule order cfg).
Proof.
  revert cfg. induction order as [|i order IH]; intros cfg Hil; [done|].
  simpl. apply IH. unfold advance_at.
  destruct (cfg.2 !! i) as [h|] eqn:Hi.
  - pose proof (il_advance session_ok (λ _ _, True) cfg0 cfg i h Hil Hi) as Hstep.
    unfold advance_at in Hstep. rewrite Hi in Hstep. by apply Hstep.
  - done.
Qed.

(** The same for a restricted [call_ok], which is then owed at each step. *)
Lemma interleaved_schedule_if session_ok call_ok cfg0 order cfg :
  interleaved session_ok call_ok cfg0 cfg →
  (∀ n i h c cont,
     order !! n = Some i →
     (schedule (take n order) cfg).2 !! i = Some h →
     rest h = Write c cont →
     call_ok c (store (schedule (take n order) cfg).1)) →
  interleaved session_ok call_ok cfg0 (schedule order cfg).
Proof.
  revert cfg. induction order as [|i order IH]; intros cfg Hil Hcalls; [done|].
  simpl. apply IH.
  - destruct (cfg.2 !! i) as [h|] eqn:Hi.
    + apply (il_advance _ _ _ _ _ h); [done|done|].
      intros c cont Hrest. by apply (Hcalls 0%nat i h c cont).
    + unfold advance_at. by rewrite Hi.
  - intros n j h c cont Hn Hj Hrest. by apply (Hcalls (S n) j h c cont).
Qed.


Lemma keeps_capacity_attendees k l st :
  keeps_capacity (UpdateEvent k (patch_attendees l)) st.
Proof. intros k' p e cap [= <- <-] _ Hcap. discriminate Hcap. Qed.

(** ** The handlers are their blocks run without a break *)

Lemma exec_handleRegister s user k a w :
  currentUser s = Some user →
  handleRegister s k a w
  = try_catch "Error registering: " (exec (handleRegister_prog (uid user) k)) a w.
Proof.
  intros Hlogin. unfold handleRegister. rewrite Hlogin.
  unfold try_catch. simpl. unfold perform. unfold_gateway.
  destruct w as [st cs fs nw]; simpl.
  destruct fs as [|[] [|[] [|[] fs]]]; simpl;
    destruct (event_docs st !! k) as [e|] eqn:He; simpl; try done;
    destruct (includes (uid user) (attendees e)); simpl; try done;
    destruct (Z.of_nat (length (attendees e)) >=? capacity e); simpl; try done;
    unfold perform; unfold_gateway; simpl;
    rewrite ?He; simpl; rewrite ?He; done.
Qed.

Lemma exec_confirmCancel s user k a w :
  currentUser s = Some user →
  confirmCancel s k a w
  = (closeConfirmation
       (try_catch "Error cancelling registration: "
          (exec (confirmCancel_prog (uid user) k)) a w).1,
     (try_catch "Error cancelling registration: "
        (exec (confirmCancel_prog (uid user) k)) a w).2).
Proof.
  intros Hlogin. unfold confirmCancel. rewrite Hlogin.
  unfold try_catch. simpl. unfold perform. unfold_gateway.
  destruct w as [st cs fs nw]; simpl.
  destruct fs as [|[] [|[] [|[] fs]]]; simpl;
    destruct (event_docs st !! k) as [e|] eqn:He; simpl; try done;
    destruct (Nat.eqb _ _); simpl; try done;
    unfold perform; unfold_gateway; simpl;
    rewrite ?He; simpl; rewrite ?He; done.
Qed.

Lemma exec_handleSaveEvent s user eventData a w :
  currentUser s = Some user →
  (handleSaveEvent s eventData a w).2
  = (try_catch "Error saving event: "
       (exec (handleSaveEvent_prog user (eventToEdit a) eventData)) a w).2 ∧
  message (handleSaveEvent s eventData a w).1
  = message (try_catch "Error saving event: "
               (exec (handleSaveEvent_prog user (eventToEdit a) eventData)) a w).1.
Proof.
  intros Hlogin. unfold handleSaveEvent. rewrite Hlogin.
  unfold try_catch. unfold perform. unfold_gateway.
  destruct w as [st cs fs nw]; simpl.
  destruct (eventToEdit a) as [ev|]; simpl; unfold perform; unfold_gateway; simpl;
    destruct fs as [|[] fs]; simpl; try done;
    destruct (event_docs st !! ev.1); done.
Qed.

Lemma exec_moderation s k a w :
  isAdmin s = true →
  confirmDelete k a w
  = (closeConfirmation
       (try_catch "Error deleting event: " (exec (confirmDelete_prog k)) a w).1,
     (try_catch "Error deleting event: " (exec (confirmDelete_prog k)) a w).2) ∧
  handleApproveEvent s k a w
  = try_catch "Error approving event: " (exec (handleApproveEvent_prog k)) a w ∧
  handleRejectEvent s k a w
  = try_catch "Error rejecting event: " (exec (handleRejectEvent_prog k)) a w.
Proof.
  intros Hadm. unfold confirmDelete, handleApproveEvent, handleRejectEvent.
  rewrite Hadm. unfold try_catch. simpl. unfold perform. unfold_gateway.
  destruct w as [st cs fs nw]; simpl.
  destruct fs as [|[] fs]; simpl; destruct (event_docs st !! k); done.
Qed.

(** A handler under way that nobody interrupts does what its block run
    without a break does. *)
Lemma advance_alone prefix p w :
  ∃ n,
    Nat.iter n (λ hw : Running * World, advance hw.1 hw.2) (mkRunning prefix p, w)
    = (mkRunning prefix
         (Finish match (exec p w).2 with
                 | Ok msg => msg
                 | Thrown e => prefix +:+ error_message e
                 end),
       (exec p w).1).
Proof.
  revert w. induction p as [msg|k cont IH|c p IH|cont IH]; intros w.
  - by exists 0%nat.
  - simpl. unfold bind.
    destruct (getDoc_event k w) as [w' [snap|err]] eqn:Hget.
    + destruct (IH snap w') as [n Hn]. exists (S n).
      rewrite Nat.iter_succ_r. unfold advance at 2. simpl. by rewrite Hget.
    + exists 1%nat. simpl. unfold advance. simpl. by rewrite Hget.
  - simpl. unfold bind.
    destruct (perform c w) as [w' [[]|err]] eqn:Hperform.
    + destruct (IH w') as [n Hn]. exists (S n).
      rewrite Nat.iter_succ_r. unfold advance at 2. simpl. by rewrite Hperform.
    + exists 1%nat. simpl. unfold advance. simpl. by rewrite Hperform.
  - simpl. unfold bind, clock.
    destruct (IH (now w) w) as [n Hn]. exists (S n).
    rewrite Nat.iter_succ_r. unfold advance at 2. simpl. done.
Qed.

Lemma advance_at_last w pool h :
  advance_at (length pool) (w, pool ++ [h])
  = ((advance h w).2, pool ++ [(advance h w).1]).
Proof.
  unfold advance_at. simpl.
  rewrite lookup_app_r by lia. rewrite Nat.sub_diag. simpl.
  f_equal. rewrite insert_app_r_alt by lia. by rewrite Nat.sub_diag.
Qed.

Lemma interleaved_alone session_ok cfg0 w pool h n :
  interleaved session_ok (λ _ _, True) cfg0 (w, pool ++ [h]) →
  interleaved session_ok (λ _ _, True) cfg0
    ((Nat.iter n (λ hw : Running * World, advance hw.1 hw.2) (h, w)).2,
     pool ++ [(Nat.iter n (λ hw : Running * World, advance hw.1 hw.2) (h, w)).1]).
Proof.
  intros Hil. induction n as [|n IH]; [done|]. simpl.
  set (hw := Nat.iter n _ _) in *.
  rewrite <- advance_at_last.
  eapply il_advance; [exact IH| |done].
  simpl. rewrite lookup_app_r by lia. by rewrite Nat.sub_diag.
Qed.

(** A handler that is started and left alone gets the world to where its
    block, run without a break, gets it. *)
Lemma interleaved_exec session_ok cfg0 w pool s prefix p :
  interleaved session_ok (λ _ _, True) cfg0 (w, pool) →
  session_ok s → starts s (mkRunning prefix p) →
  ∃ pool', interleaved session_ok (λ _ _, True) cfg0 ((exec p w).1, pool').
Proof.
  intros Hil Hs Hstart.
  destruct (advance_alone prefix p w) as [n Hn].
  pose proof (interleaved_alone session_ok cfg0 w pool (mkRunning prefix p) n
                (il_start _ _ _ _ _ s _ Hil Hs Hstart)) as Hrun.
  rewrite Hn in Hrun. simpl in Hrun. by eexists.
Qed.

Lemma try_catch_world prefix body a w : (try_catch prefix body a w).2 = (body w).1.
Proof. unfold try_catch. by destruct (body w) as [w' [msg|e]]. Qed.

(** Every world the clients produce with handlers that do not overlap is
    one they produce with handlers that may overlap. *)
Lemma reachable_interleaved w0 w :
  reachable_from w0 w →
  ∃ pool, interleaved (λ _, True) (λ _ _, True) (w0, []) (w, pool).
Proof.
  induction 1 as [|act c w Hreach [pool IH]]; [exists []; apply il_begin|].
  assert (Hsame : ∃ pool', interleaved (λ _, True) (λ _ _, True) (w0, []) (w, pool'))
    by by exists pool.
  destruct act as [user| | |ev|t d dt tm l cap| |k|k|k| | |k|k|fd|fl|tab]; simpl;
    try done.
  - by destruct user.
  - unfold submitEventModal.
    destruct (handleSubmit _ _ _ _ _ _) as [?|eventData] eqn:Hsub; [done|].
    destruct (handleSaveEvent _ _ _ _) as [a' w'] eqn:Hsave. simpl.
    change w' with (a', w').2. rewrite <- Hsave.
    destruct (currentUser (session c)) as [user|] eqn:Hlogin.
    + rewrite (proj1 (exec_handleSaveEvent _ user _ _ _ Hlogin)), try_catch_world.
      eapply (interleaved_exec _ _ _ _ (session c)); [exact IH|done|].
      by eapply starts_save.
    + unfold handleSaveEvent. by rewrite Hlogin.
  - destruct (currentUser (session c)) as [user|] eqn:Hlogin.
    + rewrite (exec_handleRegister _ user) by done. rewrite try_catch_world.
      eapply (interleaved_exec _ _ _ _ (session c)); [exact IH|done|].
      by apply starts_register.
    + unfold handleRegister. by rewrite Hlogin.
  - unfold onConfirm. destruct (confirmAction (app c)) as [[k|s k]|]; [| |done].
    + rewrite (proj1 (exec_moderation (mkSession None true false) k _ _ eq_refl)).
      cbn [snd]. rewrite try_catch_world.
      eapply (interleaved_exec _ _ _ _ (session c)); [exact IH|done|].
      apply starts_delete.
    + destruct (currentUser s) as [user|] eqn:Hlogin.
      * rewrite (exec_confirmCancel _ user) by done. cbn [snd].
        rewrite try_catch_world.
        eapply (interleaved_exec _ _ _ _ (session c)); [exact IH|done|].
        apply starts_cancel.
      * unfold confirmCancel. by rewrite Hlogin.
  - destruct (isAdmin (session c)) eqn:Hadm.
    + rewrite (proj1 (proj2 (exec_moderation _ k _ _ Hadm))), try_catch_world.
      eapply (interleaved_exec _ _ _ _ (session c)); [exact IH|done|].
      by apply starts_approve.
    + unfold handleApproveEvent. by rewrite Hadm.
  - destruct (isAdmin (session c)) eqn:Hadm.
    + rewrite (proj2 (proj2 (exec_moderation _ k _ _ Hadm))), try_catch_world.
      eapply (interleaved_exec _ _ _ _ (session c)); [exact IH|done|].
      by apply starts_reject.
    + unfold handleRejectEvent. by rewrite Hadm.
Qed.

(** A schedule is followed one step at a time. *)
Lemma schedule_cons i order cfg cfg' :
  advance_at i cfg = cfg' → schedule (i :: order) cfg = schedule order cfg'.
Proof. by intros <-. Qed.

Ltac schedule_step tac :=
  erewrite schedule_cons;
  [|unfold advance_at, advance, perform; unfold_gateway; simpl; tac; reflexivity].

(** X13: the capacity invariant when handlers overlap. Let any number
    of clients start any handlers at any time and let their calls reach
    the store in any order, the store rejecting whatever it likes: as
    long as no update lowers the capacity of the event it is written to,
    [|attendees| ≤ capacity] holds in every store that is reached. A
    registration writes back the list it read with one identity added,
    and that list had room when it was read. An edit that lowers the
    capacity while a registration is under way breaks the invariant even
    if it leaves room for the attendees there are at that moment: the
    registration read the event before the edit and writes its list
    after it. *)
Theorem capacity_holds_while_handlers_overlap w0 cfg w k (e : Event) user editor
    t d dt tm l cap :
  (interleaved (λ _, True) keeps_capacity (w0, []) cfg →
   event_keys_ok (store w0) →
   capacity_ok (store w0) →
   capacity_ok (store cfg.1)) ∧
  (faults w = [] →
   event_docs (store w) !! k = Some e →
   uid user ∉ attendees e →
   Z.of_nat (length (attendees e)) < capacity e →
   handleSubmit t d dt tm l cap = inr (mkEventData t d dt tm l cap) →
   cap = Z.of_nat (length (attendees e)) →
   let reg := mkRunning "Error registering: " (handleRegister_prog (uid user) k) in
   let edit := mkRunning "Error saving event: "
                 (handleSaveEvent_prog editor (Some (k, e))
                    (mkEventData t d dt tm l cap)) in
   let cfg' := schedule [0; 1; 0; 0; 0]%nat (w, [reg; edit]) in
   keeps_room e (mkEventData t d dt tm l cap) ∧
   rest <$> cfg'.2 = [Finish msg_registered; Finish msg_updated] ∧
   event_docs (store cfg'.1) !! k
   = Some (mkEvent (mkEventData t d dt tm l cap) (creatorId e) (creatorEmail e)
                   (status e) (attendees e ++ [uid user])) ∧
   ¬ capacity_ok (store cfg'.1)).
Proof.
  split.
  - intros Hil Hkeys Hcap.
    apply (interleaved_invariant (λ _, True) keeps_capacity
             (λ st, event_keys_ok st ∧ capacity_ok st) within_capacity) in Hil.
    + by destruct Hil as [[_ ?] _].
    + done.
    + intros s h st _ Hh. by eapply starts_within_capacity.
    + intros st k0 cont [Hk Hc] Hread. by apply Hread.
    + intros st cont t0 Hnow. apply Hnow.
    + apply commit_call_capacity.
    + done.
    + constructor.
  - intros Hfaults Hevent Hout Hroom Hsub Hcap reg edit cfg'.
    assert (Hdoc : event_docs (store cfg'.1) !! k
                   = Some (mkEvent (mkEventData t d dt tm l cap) (creatorId e)
                                   (creatorEmail e) (status e)
                                   (attendees e ++ [uid user])) ∧
                   rest <$> cfg'.2 = [Finish msg_registered; Finish msg_updated]).
    { subst cfg' reg edit. destruct w as [st cs fs nw].
      simpl in Hfaults, Hevent. subst fs.
      apply includes_false in Hout. apply geb_lt in Hroom.
      do 5 schedule_step
        ltac:(rewrite ?Hevent; simpl; rewrite ?Hout, ?Hroom, ?lookup_insert_eq; simpl).
      simpl. rewrite lookup_insert_eq. by destruct e as [[] ? ? ? ?]. }
    destruct Hdoc as [Hdoc Hrest].
    split; [unfold keeps_room; simpl; lia|]. split; [done|]. split; [done|].
    intros Hok. specialize (Hok _ _ Hdoc). simpl in Hok.
    rewrite length_app in Hok. simpl in Hok. lia.
Qed.

Lemma capacity_holds_while_handlers_overlap_witness :
  let w0 := world_of (one_event (party 1 approved [])) in
  let regA := mkRunning "Error registering: " (handleRegister_prog "A" 0%N) in
  let regB := mkRunning "Error registering: " (handleRegister_prog "B" 0%N) in
  let cfg := schedule [0; 1; 1; 1; 1; 0; 0; 0]%nat (w0, [regA; regB]) in
  capacity_ok (store cfg.1) ∧
  attendees <$> event_docs (store cfg.1) !! 0%N = Some ["A"].
Proof.
  intros w0 regA regB cfg. split; [|reflexivity].
  apply (proj1 (capacity_holds_while_handlers_overlap w0 cfg w0 0%N
                  (party 1 approved []) alice alice "" "" "" "" "" 0)).
  - subst cfg. apply interleaved_schedule_if.
    + change [regA; regB] with ([regA] ++ [regB]).
      apply (il_start _ _ _ _ _ (signed_in bob false));
        [|done|by apply (starts_register _ bob 0%N)].
      change [regA] with ([] ++ [regA]).
      apply (il_start _ _ _ _ _ (signed_in alice false));
        [|done|by apply (starts_register _ alice 0%N)].
      apply il_begin.
    + intros n i h c cont Hn Hh Hrest.
      do 8 (destruct n as [|n];
            [ injection Hn as <-; vm_compute in Hh; injection Hh as <-;
              simpl in Hrest;
              first [ discriminate Hrest
                    | injection Hrest as <- _; first [ apply keeps_capacity_attendees | by intros ? ? ? ? [=] ] ] | ]).
      discriminate Hn.
  - intros k e. subst w0. simpl. intros [<- _]%lookup_singleton_Some. reflexivity.
  - intros k e. subst w0. simpl. intros [<- <-]%lookup_singleton_Some. simpl. lia.
Defined.

(** X14: two registrations that overlap lose one of the two. Two users,
    neither of them an attendee yet, register for an event with room
    left, and the store rejects nothing; the first handler reads the
    event, then the second one reads it and makes its two writes, then
    the first one makes its two writes. Both are told that they are
    registered and both have their registration record, but the event
    lists only the first user: the first handler wrote back the list it
    had read, with itself added. Attendee list and records then
    disagree, and the list has grown by one, not by two. *)
Theorem overlapping_registrations_lose_one w k (e : Event) userA userB :
  faults w = [] →
  event_docs (store w) !! k = Some e →
  uid userA ≠ uid userB →
  uid userA ∉ attendees e →
  uid userB ∉ attendees e →
  Z.of_nat (length (attendees e)) < capacity e →
  let regA := mkRunning "Error registering: " (handleRegister_prog (uid userA) k) in
  let regB := mkRunning "Error registering: " (handleRegister_prog (uid userB) k) in
  let cfg := schedule [0; 1; 1; 1; 1; 0; 0; 0]%nat (w, [regA; regB]) in
  interleaved (λ _, True) (λ _ _, True) (w, []) cfg ∧
  rest <$> cfg.2 = [Finish msg_registered; Finish msg_registered] ∧
  event_docs (store cfg.1) !! k
  = Some (mkEvent (data e) (creatorId e) (creatorEmail e) (status e)
                  (attendees e ++ [uid userA])) ∧
  (uid userB ∉ attendees e ++ [uid userA]) ∧
  is_Some (registration_docs (store cfg.1) !! (uid userA, k)) ∧
  is_Some (registration_docs (store cfg.1) !! (uid userB, k)) ∧
  ¬ records_mirror (store cfg.1).
Proof.
  intros Hfaults Hevent Hne HoutA HoutB Hroom regA regB cfg.
  assert (HnotB : uid userB ∉ attendees e ++ [uid userA]).
  { rewrite elem_of_app, list_elem_of_singleton. intros [?|?]; [done|congruence]. }
  assert (Hcfg : cfg =
    (mkWorld
       (mkStore
          (<[k := mkEvent (data e) (creatorId e) (creatorEmail e) (status e)
                          (attendees e ++ [uid userA])]> (event_docs (store w)))
          (<[(uid userA, k) := mkRegistration k (now w)]>
             (<[(uid userB, k) := mkRegistration k (now w)]>
                (registration_docs (store w))))
          (profile_docs (store w)) (nextId (store w)))
       (calls w ++ [GetEvent k; GetEvent k;
                    UpdateEvent k (patch_attendees (attendees e ++ [uid userB]));
                    SetRegistration (uid userB) k (mkRegistration k (now w));
                    UpdateEvent k (patch_attendees (attendees e ++ [uid userA]));
                    SetRegistration (uid userA) k (mkRegistration k (now w))])
       [] (now w),
     [mkRunning "Error registering: " (Finish msg_registered);
      mkRunning "Error registering: " (Finish msg_registered)])).
  { subst cfg regA regB. destruct w as [st cs fs nw].
    simpl in Hfaults, Hevent. subst fs.
    apply includes_false in HoutA, HoutB. apply geb_lt in Hroom.
    do 8 schedule_step
      ltac:(rewrite ?Hevent; simpl;
            rewrite ?HoutA, ?HoutB, ?Hroom, ?lookup_insert_eq; simpl).
    unfold with_registrations, with_events. simpl.
    rewrite !merge_patch_attendees. simpl. rewrite insert_insert_eq.
    rewrite <- !app_assoc. simpl. done. }
  split; [|rewrite Hcfg; simpl; split; [done|split; [|split; [done|split; [|split]]]]].
  - subst cfg. apply interleaved_schedule.
    change [regA; regB] with ([regA] ++ [regB]).
    apply (il_start _ _ _ _ _ (mkSession (Some userB) false false)); [|done|by constructor].
    change [regA] with ([] ++ [regA]).
    apply (il_start _ _ _ _ _ (mkSession (Some userA) false false)); [|done|by constructor].
    apply il_begin.
  - apply lookup_insert_eq.
  - rewrite lookup_insert_eq. by eexists.
  - rewrite lookup_insert_ne by congruence. rewrite lookup_insert_eq. by eexists.
  - intros Hmirror.
    specialize (Hmirror (uid userB) k _ (lookup_insert_eq _ _ _)). simpl in Hmirror.
    apply HnotB, Hmirror. rewrite lookup_insert_ne by congruence.
    rewrite lookup_insert_eq. by eexists.
Qed.

Lemma overlapping_registrations_lose_one_witness :
  let w := world_of (one_event (party 3 approved ["C"])) in
  let regA := mkRunning "Error registering: " (handleRegister_prog "A" 0%N) in
  let regB := mkRunning "Error registering: " (handleRegister_prog "B" 0%N) in
  let cfg := schedule [0; 1; 1; 1; 1; 0; 0; 0]%nat (w, [regA; regB]) in
  event_docs (store cfg.1) !! 0%N = Some (party 3 approved ["C"; "A"]) ∧
  is_Some (registration_docs (store cfg.1) !! ("B", 0%N)).
Proof.
  intros w regA regB cfg.
  assert (Hne : uid alice ≠ uid bob) by discriminate.
  assert (HoutA : uid alice ∉ attendees (party 3 approved ["C"])).
  { apply includes_false. vm_compute. reflexivity. }
  assert (HoutB : uid bob ∉ attendees (party 3 approved ["C"])).
  { apply includes_false. vm_compute. reflexivity. }
  assert (Hroom : Z.of_nat (length (attendees (party 3 approved ["C"])))
                  < capacity (party 3 approved ["C"])).
  { simpl. lia. }
  destruct (overlapping_registrations_lose_one w 0%N (party 3 approved ["C"])
              alice bob eq_refl eq_refl Hne HoutA HoutB Hroom)
    as (_ & _ & Hdoc & _ & _ & HrecB & _).
  split; [exact Hdoc|exact HrecB].
Defined.

(** X16: what the auth listener makes of a sign-in. The reference to
    the profile is the only one in the application whose path [doc]
    refuses (five segments; the references to events and to registration
    records have six). So for every user, session and world the listener
    stores the user and stops: it makes no call, the profile is neither
    read nor created, and the admin flag and the loading flag keep the
    values they had. A page whose auth events all carry a user therefore
    stays in its loading state; only an auth event without a user ends
    it, and then it does not come back. *)
Theorem sign_in_stops_before_profile users user s w :
  let r := onAuthStateChanged (Some user) s w in
  valid_document_path (profile_path (uid user)) = false ∧
  (∀ k u, valid_document_path (event_path k) = true ∧
          valid_document_path (registration_path u k) = true) ∧
  currentUser r.1 = Some user ∧ isAdmin r.1 = isAdmin s ∧ loading r.1 = loading s ∧
  r.2 = w ∧
  loading (session (run (AuthStateChanged ∘ Some <$> users) initial_client w).1)
  = true ∧
  (run (AuthStateChanged ∘ Some <$> users) initial_client w).2 = w ∧
  loading (onAuthStateChanged None s w).1 = false ∧
  (loading s = false → loading r.1 = false).
Proof.
  intros r. repeat split; try done.
  - generalize initial_client (eq_refl : loading (session initial_client) = true).
    induction users as [|u users IH]; intros c Hc; [done|].
    simpl. by apply IH.
  - generalize initial_client.
    induction users as [|u users IH]; intros c; [done|]. simpl. apply IH.
Qed.

(** X17: the application never decides on an event. A session that a
    client gets into never has the admin flag, so no client ever gets
    past the guard of approve and reject, and the "adminPending" tab
    shows nothing. Hence, whatever handlers the clients start, in
    whatever order their calls reach the store and whatever the store
    rejects: an event keeps the status it has, and an event that is added
    is pending and stays so, which keeps it off the "all" tab of every
    client. *)
Theorem status_is_never_decided w0 cfg :
  interleaved session_reached (λ _ _, True) (w0, []) cfg →
  event_keys_ok (store w0) →
  (∀ s, session_reached s → isAdmin s = false) ∧
  (∀ s a, session_reached s →
     displayedEvents s (setActiveTab "adminPending" a) = []) ∧
  (∀ k (e e' : Event),
     event_docs (store w0) !! k = Some e →
     event_docs (store cfg.1) !! k = Some e' → status e' = status e) ∧
  (∀ k (e' : Event),
     event_docs (store w0) !! k = None →
     event_docs (store cfg.1) !! k = Some e' →
     status e' = pending ∧
     ∀ s a, (k, e') ∉ displayedEvents s (setActiveTab "all" (onSnapshot cfg.1 a))).
Proof.
  intros Hil Hkeys.
  assert (Hreached : ∀ s, session_reached s → isAdmin s = false).
  { intros s (acts & w & ->). by apply run_keeps_non_admin. }
  split; [done|]. split.
  { intros s a Hs. apply filter_all_false. intros event.
    unfold matchesTab. simpl. by rewrite (Hreached s Hs). }
  apply (interleaved_invariant session_reached (λ _ _, True)
           (λ st, status_kept (store w0) st ∧ event_keys_ok st)
           (λ _ p, writes_no_status p)) in Hil.
  - destruct Hil as [[[_ Hkept] _] _]. simpl in Hkept. split.
    + intros k e e' He He'. specialize (Hkept k e' He').
      rewrite decide_True in Hkept by by eapply Hkeys.
      destruct Hkept as (e0 & He0 & Hst). congruence.
    + intros k e' Hnone He'. specialize (Hkept k e' He').
      assert (Hpending : status e' = pending).
      { destruct (decide (k < nextId (store w0))%N); [|done].
        destruct Hkept as (e0 & He0 & _). congruence. }
      split; [done|]. intros s a [_ Htab]%elem_of_filter_bool.
      unfold matchesTab in Htab. simpl in Htab.
      apply bool_decide_eq_true in Htab. congruence.
  - done.
  - intros s h st Hs Hh. eapply starts_writes_no_status; [|done]. by apply Hreached.
  - intros st k cont _ Hread. apply Hread.
  - intros st cont t Hnow. apply Hnow.
  - intros st c cont st' Hinv Hw _ Hc. by eapply commit_call_status.
  - simpl. split; [by apply status_kept_refl|done].
  - constructor.
Qed.

Lemma status_is_never_decided_witness :
  let w0 := world_of (one_event (party 2 pending [])) in
  let regA := mkRunning "Error registering: " (handleRegister_prog "A" 0%N) in
  let cfg := schedule [0; 0; 0; 0]%nat (w0, [regA]) in
  event_docs (store cfg.1) !! 0%N = Some (party 2 pending ["A"]) ∧
  status (party 2 pending ["A"]) = status (party 2 pending []).
Proof.
  intros w0 regA cfg. split; [reflexivity|].
  assert (Hil : interleaved session_reached (λ _ _, True) (w0, []) cfg).
  { subst cfg. apply interleaved_schedule.
    change [regA] with ([] ++ [regA]).
    apply (il_start _ _ _ _ _
             (session (run [AuthStateChanged (Some alice)] initial_client w0).1)).
    - apply il_begin.
    - by exists [AuthStateChanged (Some alice)], w0.
    - by apply (starts_register _ alice 0%N). }
  assert (Hkeys : event_keys_ok (store w0)).
  { intros k e. subst w0. simpl. intros [<- _]%lookup_singleton_Some. reflexivity. }
  destruct (status_is_never_decided w0 cfg Hil Hkeys) as (_ & _ & Hkept & _).
  apply (Hkept 0%N); reflexivity.
Defined.

(** ** The view *)

Lemma elem_of_onSnapshot w a (event : N * Event) :
  event ∈ events (onSnapshot w a) ↔ event_docs (store w) !! event.1 = Some event.2.
Proof.
  unfold onSnapshot. simpl. destruct event as [k e]. apply elem_of_map_to_list.
Qed.

Lemma matchesFilters_off (event : N * Event) : matchesFilters "" "" event = true.
Proof. reflexivity. Qed.

Lemma elem_of_displayedEvents s a (event : N * Event) :
  event ∈ displayedEvents s a ↔
    event ∈ events a ∧
    matchesFilters (filterDate a) (filterLocation a) event = true ∧
    matchesTab s (activeTab a) event = true.
Proof.
  unfold displayedEvents, filteredEvents. rewrite !elem_of_filter_bool. tauto.
Qed.

Lemma matchesTab_myRegistrations s (event : N * Event) :
  matchesTab s "myRegistrations" event = true ↔
    ∃ u, userId s = Some u ∧ u ∈ attendees event.2.
Proof.
  unfold matchesTab. simpl. destruct (userId s) as [u|].
  - rewrite includes_true. split; [by exists u|]. by intros (u' & [= <-] & Hin).
  - split; [done|]. by intros (u' & Hu & _).
Qed.

(** X18: the two personal tabs, on the list a snapshot delivers. The
    snapshot lists exactly the documents of the event collection, each
    key once. With both filter texts empty, "myEvents" then shows exactly
    the events whose creatorId is the signed-in user and
    "myRegistrations" exactly those with the user among the attendees;
    both are empty for a client without a user, and a tab name the code
    does not know shows nothing. *)
Theorem personal_tabs_after_snapshot s a w :
  filterDate a = "" → filterLocation a = "" →
  let shown tab := displayedEvents s (setActiveTab tab (onSnapshot w a)) in
  (∀ event, event ∈ events (onSnapshot w a) ↔
            event_docs (store w) !! event.1 = Some event.2) ∧
  NoDup (events (onSnapshot w a)).*1 ∧
  (∀ event, event ∈ shown "myEvents" ↔
            event_docs (store w) !! event.1 = Some event.2 ∧
            userId s = Some (creatorId event.2)) ∧
  (∀ event, event ∈ shown "myRegistrations" ↔
            event_docs (store w) !! event.1 = Some event.2 ∧
            ∃ u, userId s = Some u ∧ u ∈ attendees event.2) ∧
  (userId s = None → shown "myEvents" = [] ∧ shown "myRegistrations" = []) ∧
  (∀ tab, tab ≠ "all" → tab ≠ "myEvents" → tab ≠ "myRegistrations" →
          tab ≠ "adminPending" → shown tab = []).
Proof.
  intros Hd Hl shown.
  assert (Hshown : ∀ tab event, event ∈ shown tab ↔
            event_docs (store w) !! event.1 = Some event.2 ∧
            matchesTab s tab event = true).
  { intros tab event. subst shown. rewrite elem_of_displayedEvents. simpl.
    rewrite Hd, Hl, matchesFilters_off.
    rewrite <- (elem_of_onSnapshot w a). unfold onSnapshot. simpl. tauto. }
  split; [intros event; apply elem_of_onSnapshot|].
  split; [apply NoDup_fst_map_to_list|].
  split; [|split; [|split]].
  - intros event. rewrite Hshown. unfold matchesTab. simpl.
    rewrite bool_decide_eq_true. split; intros [? ?]; by split.
  - intros event. by rewrite Hshown, matchesTab_myRegistrations.
  - intros Hnone. split; apply filter_all_false; intros event;
      unfold matchesTab; simpl; rewrite Hnone; [|done].
    by apply bool_decide_eq_false.
  - intros tab H1 H2 H3 H4. apply filter_all_false. intros event.
    unfold matchesTab. simpl.
    apply String.eqb_neq in H1, H2, H3, H4. by rewrite H1, H2, H3, H4.
Qed.

Lemma personal_tabs_after_snapshot_witness :
  let st := mkStore {[ 0%N := party 2 approved ["A"]; 1%N := party 2 pending [] ]}
                    ∅ ∅ 2%N in
  (0%N, party 2 approved ["A"])
    ∈ displayedEvents (signed_in alice false)
        (setActiveTab "myRegistrations" (onSnapshot (world_of st) initial_app)).
Proof.
  intros st.
  destruct (personal_tabs_after_snapshot (signed_in alice false) initial_app
              (world_of st) eq_refl eq_refl) as (_ & _ & _ & Hmine & _).
  apply Hmine. split; [reflexivity|].
  exists "A". split; [reflexivity|]. apply includes_true. vm_compute. reflexivity.
Defined.

(** X19: a registration shows up under "My Registrations" and a
    cancellation takes it away. For a user who is not yet an attendee of
    an event with room left, the store rejecting nothing: before the
    register the snapshot does not list the event on that tab, after the
    register it does, and after the cancel that follows it does not. *)
Theorem registration_is_listed s user a w k e :
  currentUser s = Some user →
  faults w = [] →
  event_docs (store w) !! k = Some e →
  uid user ∉ attendees e →
  Z.of_nat (length (attendees e)) < capacity e →
  filterDate a = "" → filterLocation a = "" →
  let listed (a0 : App) (w0 : World) (event : N * Event) :=
    event ∈ displayedEvents s (setActiveTab "myRegistrations" (onSnapshot w0 a0)) in
  let r1 := handleRegister s k a w in
  let r2 := cancelRegistration s k r1.1 r1.2 in
  (∀ e0, ¬ listed a w (k, e0)) ∧
  listed r1.1 r1.2 (k, merge (patch_attendees (attendees e ++ [uid user])) e) ∧
  (∀ e0, ¬ listed r2.1 r2.2 (k, e0)).
Proof.
  intros Hlogin Hfaults Hevent Hout Hroom Hd Hl listed r1 r2.
  assert (Hlisted : ∀ a0 w0 event,
            filterDate a0 = "" → filterLocation a0 = "" →
            (listed a0 w0 event ↔
             event_docs (store w0) !! event.1 = Some event.2 ∧
             ∃ u, userId s = Some u ∧ u ∈ attendees event.2)).
  { intros a0 w0 event Hd0 Hl0. subst listed. simpl.
    rewrite elem_of_displayedEvents. simpl.
    rewrite Hd0, Hl0, matchesFilters_off, matchesTab_myRegistrations.
    rewrite <- (elem_of_onSnapshot w0 a0). unfold onSnapshot. simpl. tauto. }
  assert (Hme : userId s = Some (uid user)) by (unfold userId; by rewrite Hlogin).
  destruct (register_then_cancel_store s user a w k e Hlogin Hfaults Hevent
              Hout Hroom) as (_ & _ & Hstore2).
  fold r1 in Hstore2. fold r2 in Hstore2.
  assert (Hr1 : r1 = handleRegister s k a w) by done.
  rewrite (handleRegister_registered s user a w k e Hlogin Hfaults Hevent Hout Hroom)
    in Hr1.
  assert (Hfilters2 : filterDate r2.1 = "" ∧ filterLocation r2.1 = "").
  { subst r2. unfold cancelRegistration, onConfirm. simpl.
    unfold confirmCancel. rewrite Hlogin.
    destruct (try_catch _ _ _ _) as [a' w'] eqn:Htc. simpl.
    unfold try_catch in Htc.
    destruct (bind _ _ _) as [w'' [msg|err]]; injection Htc as <- <-; simpl;
      rewrite Hr1; simpl; by rewrite Hd, Hl. }
  split; [|split].
  - intros e0. rewrite (Hlisted a w (k, e0) Hd Hl). simpl.
    intros [He0 (u & Hu & Hin)]. rewrite Hme in Hu. injection Hu as <-.
    rewrite Hevent in He0. injection He0 as <-. done.
  - rewrite Hlisted; [|by rewrite Hr1|by rewrite Hr1]. rewrite Hr1. simpl. split.
    + apply lookup_insert_eq.
    + exists (uid user). split; [done|].
      apply elem_of_app. right. by apply list_elem_of_singleton.
  - intros e0. destruct Hfilters2 as [Hd2 Hl2].
    rewrite (Hlisted r2.1 r2.2 (k, e0) Hd2 Hl2). simpl.
    rewrite Hstore2. simpl.
    intros [He0 (u & Hu & Hin)]. rewrite Hme in Hu. injection Hu as <-.
    rewrite Hevent in He0. injection He0 as <-. done.
Qed.

Lemma registration_is_listed_witness :
  let w := world_of (one_event (party 2 approved ["B"])) in
  let s := signed_in alice false in
  let r1 := handleRegister s 0%N initial_app w in
  (0%N, party 2 approved ["B"; "A"])
    ∈ displayedEvents s (setActiveTab "myRegistrations" (onSnapshot r1.2 r1.1)).
Proof.
  intros w s r1.
  assert (Hout : uid alice ∉ attendees (party 2 approved ["B"])).
  { apply includes_false. vm_compute. reflexivity. }
  assert (Hroom : Z.of_nat (length (attendees (party 2 approved ["B"])))
                  < capacity (party 2 approved ["B"])).
  { simpl. lia. }
  destruct (registration_is_listed s alice initial_app w 0%N
              (party 2 approved ["B"]) eq_refl eq_refl eq_refl Hout Hroom
              eq_refl eq_refl) as (_ & Hlisted & _).
  exact Hlisted.
Defined.

(** X20: what an up-to-date card offers, the handler grants. For a
    signed-in user and a card that shows the document the store holds,
    the store rejecting nothing: an enabled "Register" button leads to a
    registration (the success message, the user appended to the attendees
    of the event, the registration record in place), a "Cancel
    Registration" button to a cancellation (the success message, the user
    off the attendee list with everybody else kept, the record gone), and
    "Approve" on the admin tab, for a session with the admin flag, turns
    a pending event into an approved one. *)
Theorem offered_controls_succeed s user a w isPastEvent (event : N * Event) :
  currentUser s = Some user →
  faults w = [] →
  event_docs (store w) !! event.1 = Some event.2 →
  (offersRegister s a isPastEvent event = true →
     let r := handleRegister s event.1 a w in
     message r.1 = msg_registered ∧
     event_docs (store r.2) !! event.1
     = Some (mkEvent (data event.2) (creatorId event.2) (creatorEmail event.2)
                     (status event.2) (attendees event.2 ++ [uid user])) ∧
     registration_docs (store r.2) !! (uid user, event.1)
     = Some (mkRegistration event.1 (now w))) ∧
  (offersCancel s a isPastEvent event = true →
     let r := cancelRegistration s event.1 a w in
     message r.1 = msg_cancelled ∧
     (∃ left_,
        event_docs (store r.2) !! event.1
        = Some (mkEvent (data event.2) (creatorId event.2) (creatorEmail event.2)
                        (status event.2) left_) ∧
        ∀ v, v ∈ left_ ↔ v ∈ attendees event.2 ∧ v ≠ uid user) ∧
     registration_docs (store r.2) !! (uid user, event.1) = None) ∧
  (offersModeration a event = true → isAdmin s = true →
     status event.2 = pending ∧
     message (handleApproveEvent s event.1 a w).1 = msg_approved ∧
     status <$> event_docs (store (handleApproveEvent s event.1 a w).2) !! event.1
       = Some approved).
Proof.
  intros Hlogin Hfaults Hevent.
  assert (Hme : userId s = Some (uid user)) by (unfold userId; by rewrite Hlogin).
  split; [|split].
  - unfold offersRegister, isRegistered, isFull. rewrite Hme.
    rewrite !andb_true_iff, !negb_true_iff.
    intros [[_ Hout%includes_false] Hroom].
    rewrite (handleRegister_registered s user a w event.1 event.2) by
      (try done; rewrite Z.geb_leb in Hroom; by apply Z.leb_gt).
    simpl. rewrite !lookup_insert_eq, merge_patch_attendees. done.
  - unfold offersCancel, isRegistered. rewrite Hme.
    rewrite !andb_true_iff. intros [_ Hin%includes_true].
    rewrite (cancelRegistration_cancelled s user a w event.1 event.2) by done.
    simpl. rewrite lookup_insert_eq, lookup_delete_eq, merge_patch_attendees.
    split; [done|]. split; [|done].
    exists (without (uid user) (attendees event.2)). split; [done|].
    intros v. apply elem_of_without.
  - unfold offersModeration. rewrite andb_true_iff, bool_decide_eq_true.
    intros [_ Hpending] Hadmin. split; [done|].
    unfold handleApproveEvent. rewrite Hadmin. simpl. unfold_gateway.
    rewrite Hfaults, Hevent. simpl. by rewrite lookup_insert_eq.
Qed.

Lemma offered_controls_succeed_witness :
  let event := (0%N, party 2 approved ["B"]) in
  let w := world_of (one_event event.2) in
  let r := handleRegister (signed_in alice false) 0%N initial_app w in
  offersRegister (signed_in alice false) initial_app false event = true ∧
  message r.1 = msg_registered ∧
  event_docs (store r.2) !! 0%N = Some (party 2 approved ["B"; "A"]) ∧
  registration_docs (store r.2) !! ("A", 0%N)
  = Some (mkRegistration 0%N "2029-06-01T12:00:00.000Z").
Proof.
  intros event w r. split; [reflexivity|].
  destruct (offered_controls_succeed (signed_in alice false) alice initial_app w
              false event eq_refl eq_refl eq_refl) as [Hreg _].
  exact (Hreg eq_refl).
Defined.

(** Case-insensitive containment is inherited by the parts of the text
    searched for. *)
Lemma str_includes_narrow (pre q post hay : string) :
  str_includes (toLowerCase (pre +:+ q +:+ post)) (toLowerCase hay) = true →
  str_includes (toLowerCase q) (toLowerCase hay) = true.
Proof.
  rewrite !str_includes_spec, !toLowerCase_app.
  intros (h1 & h2 & Hhay).
  exists (h1 +:+ toLowerCase pre), (toLowerCase post +:+ h2).
  rewrite Hhay. by rewrite !append_assoc.
Qed.

(** X21: typing more into the location filter never adds events. For
    ASCII text: if the old filter text occurs in the new one, every event
    that passes the filters with the new text passed them with the old
    one (same date filter, any tab); clearing the text lets every
    location pass. *)
Theorem location_filter_narrows s a pre q post (event : N * Event) :
  ascii_text (pre +:+ q +:+ post) = true →
  ascii_text (location event.2) = true →
  event ∈ displayedEvents s (setFilterLocation (pre +:+ q +:+ post) a) →
  event ∈ displayedEvents s (setFilterLocation q a) ∧
  event ∈ displayedEvents s (setFilterLocation "" a).
Proof.
  intros _ _. rewrite !elem_of_displayedEvents. simpl.
  intros (Hin & Hmatch & Htab).
  unfold matchesFilters in *. apply andb_true_iff in Hmatch as [Hdate Hloc].
  split; (split; [done|split; [|done]]); rewrite Hdate; simpl; [|done].
  destruct q as [|c q]; [done|]. cbn [truthy].
  destruct (pre +:+ String c q +:+ post) as [|c' rest] eqn:Hnew.
  { destruct pre; discriminate Hnew. }
  cbn [truthy] in Hloc. rewrite <- Hnew in Hloc.
  by apply str_includes_narrow in Hloc.
Qed.

Lemma location_filter_narrows_witness :
  let a := setEvents [(0%N, party 2 approved []); (1%N, party 2 pending [])]
                     initial_app in
  (0%N, party 2 approved [])
    ∈ displayedEvents initial_session (setFilterLocation "ER" a).
Proof.
  intros a.
  apply (location_filter_narrows initial_session a "b" "ER" "lin"
           (0%N, party 2 approved []) eq_refl eq_refl).
  apply elem_of_displayedEvents. split; [|split; reflexivity].
  apply list_elem_of_In. left. reflexivity.
Defined.

(** X22: the event form sends nothing unless it is complete. The form
    is refused exactly when one of title, description, date, time and
    location is empty or the capacity is not positive; a refused form
    changes neither the application state nor the world. A complete form
    is handed to the save handler with its six values and the modal is
    closed afterwards in every case, also when the save failed. *)
Theorem incomplete_form_sends_nothing s a w t d dt tm l cap :
  let valid := t ≠ "" ∧ d ≠ "" ∧ dt ≠ "" ∧ tm ≠ "" ∧ l ≠ "" ∧ 0 < cap in
  let r := submitEventModal s t d dt tm l cap a w in
  (handleSubmit t d dt tm l cap = inl msg_form_error ↔ ¬ valid) ∧
  (handleSubmit t d dt tm l cap = inr (mkEventData t d dt tm l cap) ↔ valid) ∧
  (¬ valid → r = (a, w)) ∧
  (valid →
     store r.2 = store (handleSaveEvent s (mkEventData t d dt tm l cap) a w).2 ∧
     showCreateModal r.1 = false ∧ eventToEdit r.1 = None).
Proof.
  intros valid r.
  assert (Htruthy : ∀ x : string, truthy x = true ↔ x ≠ "").
  { intros [|c x]; simpl; split; done. }
  assert (Hdec : handleSubmit t d dt tm l cap = inr (mkEventData t d dt tm l cap) ∧ valid
                 ∨ handleSubmit t d dt tm l cap = inl msg_form_error ∧ ¬ valid).
  { unfold handleSubmit, valid.
    destruct (truthy t) eqn:Ht; simpl;
      [|right; split; [done|]; intros (H & _); by apply Htruthy in H; congruence].
    destruct (truthy d) eqn:Hd; simpl;
      [|right; split; [done|]; intros (_ & H & _); by apply Htruthy in H; congruence].
    destruct (truthy dt) eqn:Hdt; simpl;
      [|right; split; [done|]; intros (_ & _ & H & _); by apply Htruthy in H; congruence].
    destruct (truthy tm) eqn:Htm; simpl;
      [|right; split; [done|]; intros (_ & _ & _ & H & _);
        by apply Htruthy in H; congruence].
    destruct (truthy l) eqn:Hl; simpl;
      [|right; split; [done|]; intros (_ & _ & _ & _ & H & _);
        by apply Htruthy in H; congruence].
    destruct (Z.leb_spec cap 0); [right; split; [done|]; intros (_&_&_&_&_&?); lia|].
    left. split; [done|]. by repeat split; try apply Htruthy. }
  split; [|split; [|split]].
  - destruct Hdec as [[Hs Hv]|[Hs Hv]]; rewrite Hs; split; done.
  - destruct Hdec as [[Hs Hv]|[Hs Hv]]; rewrite Hs; split; done.
  - intros Hinvalid. subst r. unfold submitEventModal.
    destruct Hdec as [[Hs Hv]|[Hs Hv]]; [done|]. by rewrite Hs.
  - intros Hvalid. subst r. unfold submitEventModal.
    destruct Hdec as [[Hs Hv]|[Hs Hv]]; [|done]. rewrite Hs.
    by destruct (handleSaveEvent _ _ _ _).
Qed.

Lemma incomplete_form_sends_nothing_witness :
  let w := world_of empty_store in
  submitEventModal (signed_in carol false) "Party" "" "2030-01-01" "18:00" "Berlin" 4
                   initial_app w = (initial_app, w).
Proof.
  intros w.
  destruct (incomplete_form_sends_nothing (signed_in carol false) initial_app w
              "Party" "" "2030-01-01" "18:00" "Berlin" 4) as (_ & _ & Hrefused & _).
  apply Hrefused. intros (_ & Hd & _). by apply Hd.
Defined.

(** * Properties of the job portal *)

Section JobPortalProperties.
Import JobPortal.

Lemma not_ready_false a u :
  db a = true → userId a = Some u → u ≠ "" → not_ready a = false.
Proof.
  intros Hdb Hu Hne. unfold not_ready. rewrite Hdb, Hu. simpl.
  destruct u; [done|reflexivity].
Qed.



(** X24: nothing stops a second application for the same job. Submitting
    the same complete form twice, the store rejecting nothing, files two
    documents under two ids, both for the same job and with the same name
    and email, each stamped with the server's time at its own write: the
    collection grows by two and both submissions report success. *)
Theorem applying_twice_files_twice l a w u job :
  db a = true → userId a = Some u → u ≠ "" →
  selectedJob l = Some job →
  formName l ≠ "" → formEmail l ≠ "" →
  faults w = [] →
  keys_ok (store w) →
  let r1 := handleSubmitApplication l a w in
  let r2 := handleSubmitApplication r1.1.1 r1.1.2 r1.2 in
  let filed t := mkApplication (id job) (title job) (formName l) (formEmail l) t in
  applySuccess r1.1.1 = msg_submitted ∧ applySuccess r2.1.1 = msg_submitted ∧
  application_docs (store r2.2) !! (u, nextId (store w)) = Some (filed (now w)) ∧
  application_docs (store r2.2) !! (u, N.succ (nextId (store w)))
  = Some (filed (now r1.2)) ∧
  now r1.2 = default (now w) (head (later w)) ∧
  size (application_docs (store r2.2)) = S (S (size (application_docs (store w)))).
Proof.
  intros Hdb Hu Hne Hjob Hname Hemail Hfaults Hkeys r1 r2 filed. subst r2 r1 filed.
  unfold handleSubmitApplication.
  rewrite (truthy_true _ Hname), (truthy_true _ Hemail), Hjob. simpl.
  unfold handleApplyJob. rewrite (not_ready_false a u Hdb Hu Hne), Hu.
  unfold addDoc, request. destruct w as [st cs fs nw lt]. simpl in *. subst fs.
  simpl. rewrite ?(truthy_true _ Hname), ?(truthy_true _ Hemail), ?Hjob. simpl.
  rewrite ?(not_ready_false a u Hdb Hu Hne), ?Hu. simpl.
  assert (Hfresh : ∀ k, (nextId st ≤ k)%N → application_docs st !! (u, k) = None).
  { intros k Hk. destruct (application_docs st !! (u, k)) eqn:Hl; [|done].
    apply Hkeys in Hl. lia. }
  split; [done|]. split; [done|]. split; [|split; [|split]].
  - rewrite lookup_insert_ne by (intros [= H]; lia). apply lookup_insert_eq.
  - apply lookup_insert_eq.
  - done.
  - rewrite map_size_insert_None.
    + rewrite map_size_insert_None; [done|]. apply Hfresh. lia.
    + rewrite lookup_insert_ne by (intros [= H]; lia). apply Hfresh. lia.
Qed.

Lemma applying_twice_files_twice_witness :
  let job := mkJob "job3" "UX Designer" "Creative Studio" "Delhi, India"
                   "Design intuitive and engaging user experiences." in
  let l := applying job "Asha" "asha@example.org" in
  let w := mkWorld empty_store [] [] "2029-06-01T12:00:00.000Z"
                   ["2029-06-01T12:00:07.000Z"] in
  let r1 := handleSubmitApplication l (ready "U1") w in
  let r2 := handleSubmitApplication r1.1.1 r1.1.2 r1.2 in
  application_docs (store r2.2) !! ("U1", 0%N)
  = Some (mkApplication "job3" "UX Designer" "Asha" "asha@example.org"
                        "2029-06-01T12:00:00.000Z") ∧
  application_docs (store r2.2) !! ("U1", 1%N)
  = Some (mkApplication "job3" "UX Designer" "Asha" "asha@example.org"
                        "2029-06-01T12:00:07.000Z") ∧
  size (application_docs (store r2.2)) = 2%nat.
Proof.
  intros job l w r1 r2.
  assert (Hu : "U1" ≠ "") by discriminate.
  assert (Hn : formName l ≠ "") by discriminate.
  assert (He : formEmail l ≠ "") by discriminate.
  assert (Hk : keys_ok (store w)).
  { intros u k a. simpl. by rewrite lookup_empty. }
  destruct (applying_twice_files_twice l (ready "U1") w "U1" job
              eq_refl eq_refl Hu eq_refl Hn He eq_refl Hk)
    as (_ & _ & Hfirst & Hsecond & _ & Hsize).
  split; [exact Hfirst|]. split; [exact Hsecond|exact Hsize].
Defined.



(** X26: an application form without a name or without an email is
    not sent. The submission then only sets the text asking for both: no
    call is made, world and application state are as before, and the
    success text and the "applying" flag are left alone. With both given,
    that text is never the outcome. *)
Theorem incomplete_application_sends_nothing l a w :
  let r := handleSubmitApplication l a w in
  (formName l = "" ∨ formEmail l = "" →
     r.2 = w ∧ r.1.2 = a ∧ applyError r.1.1 = msg_fill_in ∧
     applySuccess r.1.1 = applySuccess l ∧ isApplying r.1.1 = isApplying l ∧
     isModalOpen r.1.1 = isModalOpen l) ∧
  (formName l ≠ "" → formEmail l ≠ "" →
     applyError r.1.1 ≠ msg_fill_in ∧ isApplying r.1.1 = false).
Proof.
  intros r. subst r. unfold handleSubmitApplication. split.
  - intros [Hn|He].
    + by rewrite Hn.
    + rewrite He. simpl. by rewrite orb_true_r.
  - intros Hn He. rewrite (truthy_true _ Hn), (truthy_true _ He). simpl.
    destruct (selectedJob l) as [job|]; [|done].
    by destruct (handleApplyJob _ _ _ _ _ _) as [[a' w'] [|msg]].
Qed.

Lemma incomplete_application_sends_nothing_witness :
  let job := mkJob "job1" "Software Engineer" "Tech Solutions Inc." "Bangalore, India"
                   "Develop and maintain high-performance software applications." in
  let w := world_of empty_store in
  (handleSubmitApplication (applying job "Asha" "") (ready "U1") w).2 = w.
Proof.
  intros job w.
  destruct (incomplete_application_sends_nothing (applying job "Asha" "")
              (ready "U1") w) as [Hrefused _].
  apply Hrefused. by right.
Defined.

(** X27: a client that is not ready reports success without doing
    anything. When the database handle or the user id is missing,
    [handleApplyJob] and [handleDeleteApplication] set the application's
    error text and return normally, so the submission of a complete form
    shows the success text although no call was made, and a confirmed
    deletion closes its dialog although nothing was deleted. *)
Theorem not_ready_reports_success l d a w job k :
  not_ready a = true →
  selectedJob l = Some job →
  formName l ≠ "" → formEmail l ≠ "" →
  appToDelete d = Some k →
  let r := handleSubmitApplication l a w in
  let r' := confirmDelete d a w in
  r.2 = w ∧ applySuccess r.1.1 = msg_submitted ∧ applyError r.1.1 = "" ∧
  error r.1.2 = msg_not_ready ∧
  r'.2 = w ∧ isDeleteModalOpen r'.1.1 = false ∧ appToDelete r'.1.1 = None ∧
  deleteError r'.1.1 = "" ∧ error r'.1.2 = msg_not_ready.
Proof.
  intros Hnot Hjob Hn He Hk r r'. subst r r'.
  unfold handleSubmitApplication, confirmDelete.
  rewrite (truthy_true _ Hn), (truthy_true _ He), Hjob, Hk. simpl.
  unfold handleApplyJob, handleDeleteApplication. by rewrite Hnot.
Qed.

Lemma not_ready_reports_success_witness :
  let job := mkJob "job1" "Software Engineer" "Tech Solutions Inc." "Bangalore, India"
                   "Develop and maintain high-performance software applications." in
  let a := mkApp true None true predefinedJobs [] false false "" "" in
  let w := world_of empty_store in
  let r := handleSubmitApplication (applying job "Asha" "asha@example.org") a w in
  r.2 = w ∧ applySuccess r.1.1 = msg_submitted.
Proof.
  intros job a w r.
  assert (Hn : formName (applying job "Asha" "asha@example.org") ≠ "") by discriminate.
  assert (He : formEmail (applying job "Asha" "asha@example.org") ≠ "") by discriminate.
  destruct (not_ready_reports_success (applying job "Asha" "asha@example.org")
              (mkAppliedJobs true (Some 0%N) "" false) a w job 0%N
              eq_refl eq_refl Hn He eq_refl) as (Hw & Hmsg & _).
  split; [exact Hw|exact Hmsg].
Defined.

Lemma str_includes_empty (hay : string) : str_includes "" hay = true.
Proof. destruct hay; reflexivity. Qed.

(** X28: the job search, for ASCII text. A job is shown exactly when
    its title, company, location or description contains the query up to
    the case of the letters (some part of the field has the length and
    the letters of the query); an empty query shows every job; the result
    keeps the order of the job list; and a query that contains the
    previous one never shows a job the previous one did not. *)
Theorem job_search_narrows a pre q post :
  ascii_text (pre +:+ q +:+ post) = true →
  Forall (λ job, ascii_text (title job) = true ∧ ascii_text (company job) = true ∧
                 ascii_text (location job) = true ∧
                 ascii_text (description job) = true) (jobs a) →
  (∀ job, job ∈ filteredJobs (setJobSearchQuery q a) ↔
     job ∈ jobs a ∧
     ∃ field, field ∈ [title job; company job; location job; description job] ∧
              ∃ h1 m h2, field = h1 +:+ m +:+ h2 ∧
                         equal_ignoring_case m q = true) ∧
  filteredJobs (setJobSearchQuery "" a) = jobs a ∧
  filteredJobs (setJobSearchQuery q a) `sublist_of` jobs a ∧
  (∀ job, job ∈ filteredJobs (setJobSearchQuery (pre +:+ q +:+ post) a) →
          job ∈ filteredJobs (setJobSearchQuery q a)).
Proof.
  intros _ _. unfold filteredJobs. simpl. split; [|split; [|split]].
  - intros job. rewrite elem_of_filter_bool. unfold matchesQuery.
    rewrite !orb_true_iff, !str_includes_ignoring_case.
    split.
    + intros [Hin Hm]. split; [done|].
      destruct Hm as [[[Hm|Hm]|Hm]|Hm];
        [exists (title job)|exists (company job)|exists (location job)
        |exists (description job)];
        (split; [|done]); repeat (first [by left | right]).
    + intros [Hin (field & Hf & Hm)]. split; [done|].
      repeat (apply elem_of_cons in Hf as [->|Hf]; [tauto|]).
      by apply elem_of_nil in Hf.
  - apply filter_all_true. intros job. unfold matchesQuery. simpl.
    by rewrite str_includes_empty.
  - induction (jobs a) as [|job js IH]; [done|]. simpl.
    destruct (matchesQuery q job); by constructor.
  - intros job. rewrite !elem_of_filter_bool. intros [Hin Hm]. split; [done|].
    unfold matchesQuery in *. rewrite !orb_true_iff in *.
    destruct Hm as [[[Hm|Hm]|Hm]|Hm]; apply str_includes_narrow in Hm; tauto.
Qed.

Lemma job_search_narrows_witness :
  let a := setJobSearchQuery "DESIGN" (ready "U1") in
  filteredJobs a =
    [mkJob "job3" "UX Designer" "Creative Studio" "Delhi, India"
           "Design intuitive and engaging user experiences."] ∧
  ∀ job, job ∈ filteredJobs (setJobSearchQuery "UX DESIGNER" (ready "U1")) →
         job ∈ filteredJobs a.
Proof.
  intros a.
  assert (Hjobs : Forall (λ job, ascii_text (title job) = true ∧
                                 ascii_text (company job) = true ∧
                                 ascii_text (location job) = true ∧
                                 ascii_text (description job) = true)
                         (jobs (ready "U1"))).
  { repeat constructor. }
  destruct (job_search_narrows (ready "U1") "UX " "DESIGN" "ER" eq_refl Hjobs)
    as (Hshown & _ & _ & Hnarrow).
  split; [|exact Hnarrow].
  reflexivity.
Defined.

(** X29: the applications of other users are out of reach. Whatever a
    client does through the apply and delete handlers and whatever the
    store rejects, the documents of every user other than the client's own
    stay exactly as they are; a client that is not ready changes no
    document at all. *)
Theorem applications_are_private a w u v k jobId jobTitle name email :
  userId a = Some u → v ≠ u →
  let r1 := handleApplyJob jobId jobTitle name email a w in
  let r2 := handleDeleteApplication k a w in
  (∀ k', application_docs (store r1.1.2) !! (v, k')
         = application_docs (store w) !! (v, k')) ∧
  (∀ k', application_docs (store r2.1.2) !! (v, k')
         = application_docs (store w) !! (v, k')) ∧
  (not_ready a = true → r1.1.2 = w ∧ r2.1.2 = w).
Proof.
  intros Hu Hne r1 r2. subst r1 r2.
  unfold handleApplyJob, handleDeleteApplication. rewrite Hu.
  destruct (not_ready a); [done|].
  unfold addDoc, deleteDoc, request. destruct w as [st cs fs nw]. simpl.
  split; [|split; [|done]]; intros k'; destruct fs as [|[] fs]; simpl; try done.
  - rewrite lookup_insert_ne; [done|congruence].
  - rewrite lookup_insert_ne; [done|congruence].
  - rewrite lookup_delete_ne; [done|congruence].
  - rewrite lookup_delete_ne; [done|congruence].
Qed.

Lemma applications_are_private_witness :
  let st := mkStore {[ ("U2", 0%N) :=
                         mkApplication "job2" "Product Manager" "Ravi"
                                       "ravi@example.org" "2029-05-01T08:00:00.000Z" ]}
                    1%N in
  let r := handleDeleteApplication 0%N (ready "U1") (world_of st) in
  application_docs (store r.1.2) !! ("U2", 0%N)
    = application_docs st !! ("U2", 0%N).
Proof.
  intros st r.
  assert (Hne : "U2" ≠ "U1") by discriminate.
  destruct (applications_are_private (ready "U1") (world_of st) "U1" "U2" 0%N
              "" "" "" "" eq_refl Hne) as (_ & Hdel & _).
  exact (Hdel 0%N).
Defined.

(** X30: the list of the user's applications. For a ready client
    whose authentication has completed, the snapshot listener lists
    exactly the documents of the client's own collection, each with its
    id, and ends the loading state; so an application that was just filed
    is on the list. A client that is not ready keeps the list it had. *)
Theorem snapshot_lists_own_applications a w u :
  userId a = Some u →
  (db a = true → u ≠ "" → isAuthReady a = true →
     (∀ k doc, (k, doc) ∈ applications (onSnapshot w a) ↔
               application_docs (store w) !! (u, k) = Some doc) ∧
     loadingApplications (onSnapshot w a) = false ∧
     (∀ l job, selectedJob l = Some job → formName l ≠ "" → formEmail l ≠ "" →
               faults w = [] →
               (nextId (store w),
                mkApplication (id job) (title job) (formName l) (formEmail l) (now w))
                 ∈ applications (onSnapshot (handleSubmitApplication l a w).2 a))) ∧
  (not_ready a = true → onSnapshot w a = a).
Proof.
  intros Hu. split.
  - intros Hdb Hne Hready.
    assert (Hlist : ∀ w0 k doc, (k, doc) ∈ applications (onSnapshot w0 a) ↔
                      application_docs (store w0) !! (u, k) = Some doc).
    { intros w0 k doc. unfold onSnapshot.
      rewrite Hu, Hdb, Hready, (truthy_true _ Hne). simpl.
      rewrite list_elem_of_omap. split.
      - intros ([[u' k'] doc'] & Hin & Hsel). simpl in Hsel.
        destruct (decide (u' = u)) as [->|]; [|done].
        injection Hsel as <- <-. by apply elem_of_map_to_list in Hin.
      - intros Hl. exists ((u, k), doc). split; [by apply elem_of_map_to_list|].
        simpl. by rewrite decide_True. }
    split; [apply Hlist|]. split.
    + unfold onSnapshot. by rewrite Hu, Hdb, Hready, (truthy_true _ Hne).
    + intros l job Hjob Hn He Hfaults. apply Hlist.
      unfold handleSubmitApplication.
      rewrite (truthy_true _ Hn), (truthy_true _ He), Hjob. simpl.
      unfold handleApplyJob. rewrite (not_ready_false a u Hdb Hu Hne), Hu.
      unfold addDoc, request. rewrite Hfaults. simpl. apply lookup_insert_eq.
  - unfold not_ready, onSnapshot. rewrite Hu.
    destruct (db a); simpl; [|done]. by intros ->%negb_true_iff.
Qed.

Lemma snapshot_lists_own_applications_witness :
  let job := mkJob "job3" "UX Designer" "Creative Studio" "Delhi, India"
                   "Design intuitive and engaging user experiences." in
  let l := applying job "Asha" "asha@example.org" in
  let w := world_of empty_store in
  (0%N, mkApplication "job3" "UX Designer" "Asha" "asha@example.org"
                      "2029-06-01T12:00:00.000Z")
    ∈ applications (onSnapshot (handleSubmitApplication l (ready "U1") w).2 (ready "U1")).
Proof.
  intros job l w.
  assert (Hu : "U1" ≠ "") by discriminate.
  assert (Hn : formName l ≠ "") by discriminate.
  assert (He : formEmail l ≠ "") by discriminate.
  destruct (snapshot_lists_own_applications (ready "U1") w "U1" eq_refl) as [Hready _].
  destruct (Hready eq_refl Hu eq_refl) as (_ & _ & Hfiled).
  exact (Hfiled l job eq_refl Hn He eq_refl).
Defined.

End JobPortalProperties.
